(** * Gemini computer-use extension: the agent orchestration core

  A shallow embedding of the orchestration code of the extension and the
  properties its specification states about it.

  Sources embedded here:
  - [lib/coordinates.js]: the coordinate mapper;
  - [lib/gemini-client.js] (class [BrowserAgent]): conversation history,
    screenshot pruning, the retrying model call, reply classification;
  - [src/background/service-worker.js]: [executeAction] and
    [runOneIteration], the loop that mirrors the Python agent;
  - [background/service-worker.js] with [lib/api.js]: the older loop
    ([runAgentLoop], [callGeminiAPI], [buildFunctionResponse]);
  - [content/content.js]: the message handler and the [navigate] handler;
  - [lib/actions.js]: [parseKeyCombination];
  - the trajectory export: [escapeHtml].

  Conventions.  JavaScript strings are [string]s (their UTF-8 bytes), JS
  objects used as records are [gmap string JVal], numbers that the code
  only ever uses as integers are [Z], and the arithmetic of the coordinate
  mapper is carried out in [Q].  Asynchronous code is written in a small
  monad threading the mutable globals, an event log and the answers of the
  outside world. *)

From Stdlib Require Import ZArith QArith Qround Lia Lqa String Ascii List Bool.
From stdpp Require Import base option list gmap strings pretty.

#[local] Set Warnings "-register-all".

(* ===================================================================== *)
(** * Part I: the program                                                 *)
(* ===================================================================== *)

(** ** JavaScript values *)

Module Js.

Inductive JVal : Type :=
| JUndefined
| JNull
| JBool (b : bool)
| JNum (n : Z)
| JStr (s : string)
| JObj (o : gmap string JVal).

(** [ToBoolean]: what [if (v)], [!v] and [v || w] look at. *)
Definition truthy (v : JVal) : bool :=
  match v with
  | JUndefined | JNull => false
  | JBool b => b
  | JNum n => negb (n =? 0)%Z
  | JStr s => negb (String.eqb s "")
  | JObj _ => true
  end.

(** [v?.k]: property access that yields [undefined] off an object. *)
Definition prop (k : string) (v : JVal) : JVal :=
  match v with
  | JObj o => default JUndefined (o !! k)
  | _ => JUndefined
  end.

(** Truthiness of a string-or-null, as in [if (text)] and [!reasoning]. *)
Definition truthy_str (s : option string) : bool :=
  match s with
  | Some t => negb (String.eqb t "")
  | None => false
  end.

(** [Array.prototype.join] on strings. *)
Fixpoint join (sep : string) (l : list string) : string :=
  match l with
  | [] => ""
  | [x] => x
  | x :: rest => x +:+ sep +:+ join sep rest
  end.

(** An [Error] object, with the extra fields the SDK's fetch errors carry. *)
Record JsError : Type := mkError {
  name : string;
  message : string;
  status : option N;
  statusText : option string
}.

Definition Error (msg : string) : JsError :=
  {| name := "Error"; message := msg; status := None; statusText := None |}.

End Js.
Import Js.

(** ** lib/coordinates.js *)

Module Coordinates.

Definition NORMALIZED_MAX : Q := 1000.

(** [Math.round]: the nearest integer, halves going up. *)
Definition Math_round (x : Q) : Z := Qfloor (x + (1 # 2))%Q.

Definition denormalizeX (normalizedX viewportWidth : Q) : Z :=
  Math_round ((normalizedX / NORMALIZED_MAX) * viewportWidth)%Q.

Definition denormalizeY (normalizedY viewportHeight : Q) : Z :=
  Math_round ((normalizedY / NORMALIZED_MAX) * viewportHeight)%Q.

Definition normalizeX (pixelX viewportWidth : Q) : Z :=
  Math_round ((pixelX / viewportWidth) * NORMALIZED_MAX)%Q.

Definition normalizeY (pixelY viewportHeight : Q) : Z :=
  Math_round ((pixelY / viewportHeight) * NORMALIZED_MAX)%Q.

(** A pixel sent to model space and back, on integer pixels and extents. *)
Definition roundtripX (p e : Z) : Z :=
  denormalizeX (inject_Z (normalizeX (inject_Z p) (inject_Z e))) (inject_Z e).

Definition roundtripY (p e : Z) : Z :=
  denormalizeY (inject_Z (normalizeY (inject_Z p) (inject_Z e))) (inject_Z e).

End Coordinates.

(** ** Conversation data: turns and parts *)

Module Conversation.

Record InlineData : Type := mkInline {
  mimeType : string;
  data : string
}.

(** The [parts] field of a function response: missing, [null] (what
    pruning writes), or an array of image parts. *)
Inductive FrParts : Type :=
| PartsAbsent
| PartsNull
| PartsArray (images : list InlineData).

Record FunctionResponse : Type := mkFR {
  fr_name : string;
  fr_response : gmap string JVal;
  fr_parts : FrParts
}.

(** A function call as the model sends it: [args] may be missing. *)
Record RawFunctionCall : Type := mkRawCall {
  raw_name : string;
  raw_args : option (gmap string JVal)
}.

(** A part is an object with optional fields. *)
Record Part : Type := mkPart {
  text : option string;
  thought : bool;
  functionCall : option RawFunctionCall;
  functionResponse : option FunctionResponse;
  inlineData : option InlineData
}.

Record Content : Type := mkContent {
  role : string;
  parts : option (list Part)
}.

Record Candidate : Type := mkCandidate {
  content : option Content;
  finishReason : option string
}.

(** An extracted function call: [{ name, args }]. *)
Record FunctionCall : Type := mkCall {
  fc_name : string;
  fc_args : gmap string JVal
}.

Definition emptyPart : Part :=
  {| text := None; thought := false; functionCall := None;
     functionResponse := None; inlineData := None |}.

Definition textPart (s : string) : Part :=
  {| text := Some s; thought := false; functionCall := None;
     functionResponse := None; inlineData := None |}.

Definition functionResponsePart (fr : FunctionResponse) : Part :=
  {| text := None; thought := false; functionCall := None;
     functionResponse := Some fr; inlineData := None |}.

Definition imagePart (i : InlineData) : Part :=
  {| text := None; thought := false; functionCall := None;
     functionResponse := None; inlineData := Some i |}.

End Conversation.
Import Conversation.

(** ** lib/gemini-client.js: the pure part of [BrowserAgent] *)

Module BrowserAgent.

Definition PREDEFINED_COMPUTER_USE_FUNCTIONS : list string :=
  [ "open_web_browser"; "click_at"; "hover_at"; "type_text_at";
    "scroll_document"; "scroll_at"; "wait_5_seconds"; "go_back";
    "go_forward"; "search"; "navigate"; "key_combination";
    "drag_and_drop" ].

Definition MAX_RECENT_TURN_WITH_SCREENSHOTS : nat := 3.

(** [Array.prototype.includes] on strings. *)
Definition includes (l : list string) (s : string) : bool :=
  existsb (String.eqb s) l.

(** Arrays are truthy, even empty ones; [null] and a missing field are not. *)
Definition parts_truthy (p : FrParts) : bool :=
  match p with
  | PartsArray _ => true
  | PartsAbsent | PartsNull => false
  end.

(** The test both inner loops of [_cleanupOldScreenshots] apply to a part:
    [part.functionResponse?.parts &&
     PREDEFINED_COMPUTER_USE_FUNCTIONS.includes(part.functionResponse.name)]. *)
Definition screenshot_part (p : Part) : bool :=
  match functionResponse p with
  | Some fr =>
      parts_truthy (fr_parts fr)
      && includes PREDEFINED_COMPUTER_USE_FUNCTIONS (fr_name fr)
  | None => false
  end.

(** The first inner loop: does the turn count as one with screenshots? *)
Definition hasScreenshot (c : Content) : bool :=
  String.eqb (role c) "user"
  && match parts c with
     | Some ps => existsb screenshot_part ps
     | None => false
     end.

(** The second inner loop: [part.functionResponse.parts = null] on every
    part that passes the test. *)
Definition strip_part (p : Part) : Part :=
  match functionResponse p with
  | Some fr =>
      if screenshot_part p then
        {| text := text p; thought := thought p;
           functionCall := functionCall p;
           functionResponse :=
             Some {| fr_name := fr_name fr; fr_response := fr_response fr;
                     fr_parts := PartsNull |};
           inlineData := inlineData p |}
      else p
  | None => p
  end.

Definition strip_content (c : Content) : Content :=
  {| role := role c;
     parts := match parts c with
              | Some ps => Some (map strip_part ps)
              | None => None
              end |}.

(** The outer loop walks the history from the last turn to the first,
    carrying [turnWithScreenshotsFound]; here the history is handed over
    newest turn first. *)
Fixpoint cleanup_from (turnWithScreenshotsFound : nat)
    (newest_first : list Content) : list Content :=
  match newest_first with
  | [] => []
  | c :: older =>
      if hasScreenshot c then
        let found := S turnWithScreenshotsFound in
        (if (MAX_RECENT_TURN_WITH_SCREENSHOTS <? found)%nat
         then strip_content c else c)
        :: cleanup_from found older
      else c :: cleanup_from turnWithScreenshotsFound older
  end.

Definition _cleanupOldScreenshots (contents : list Content) : list Content :=
  reverse (cleanup_from 0 (reverse contents)).

(** What the service worker hands to [addFunctionResponses]. *)
Record FunctionResponseInput : Type := mkFRI {
  fri_name : string;
  fri_response : gmap string JVal;
  fri_screenshot : string
}.

Definition functionResponse_of (fr : FunctionResponseInput) : Part :=
  functionResponsePart
    {| fr_name := fri_name fr;
       fr_response := fri_response fr;
       fr_parts :=
         if negb (String.eqb (fri_screenshot fr) "")
         then PartsArray [ {| mimeType := "image/png";
                              data := fri_screenshot fr |} ]
         else PartsAbsent |}.

Definition addFunctionResponses (functionResponses : list FunctionResponseInput)
    (contents : list Content) : list Content :=
  _cleanupOldScreenshots
    (contents ++ [ {| role := "user";
                      parts := Some (map functionResponse_of functionResponses) |} ]).

Definition startConversation (query : string) : list Content :=
  [ {| role := "user"; parts := Some [ textPart query ] |} ].

Definition addUserMessage (t : string) (contents : list Content) : list Content :=
  contents ++ [ {| role := "user"; parts := Some [ textPart t ] |} ].

Definition addModelResponse (candidate : Candidate) (contents : list Content)
    : list Content :=
  match content candidate with
  | Some c => contents ++ [ c ]
  | None => contents
  end.

(** [candidate.content?.parts], absent when either level is. *)
Definition candidate_parts (candidate : Candidate) : option (list Part) :=
  match content candidate with
  | Some c => parts c
  | None => None
  end.

(** [parts.filter(keep).map(part => part.text)], for a [keep] that only
    lets parts with a text through. *)
Definition texts_where (keep : Part -> bool) (ps : list Part) : list string :=
  omap (fun part => if keep part then text part else None) ps.

Definition getText (candidate : Candidate) : option string :=
  match candidate_parts candidate with
  | None => None
  | Some ps =>
      let textParts :=
        texts_where (fun part => truthy_str (text part) && negb (thought part)) ps in
      if (0 <? length textParts)%nat then Some (join "" textParts) else None
  end.

Definition newline : string := String (ascii_of_nat 10) "".

Definition extractThoughtSummary (candidate : Candidate) : option string :=
  match candidate_parts candidate with
  | None => None
  | Some ps =>
      let thoughtParts :=
        texts_where (fun part => thought part && truthy_str (text part)) ps in
      if (0 <? length thoughtParts)%nat
      then Some (join newline thoughtParts) else None
  end.

Definition call_of_raw (r : RawFunctionCall) : FunctionCall :=
  {| fc_name := raw_name r; fc_args := default ∅ (raw_args r) |}.

Definition extractFunctionCalls (candidate : Candidate) : list FunctionCall :=
  match candidate_parts candidate with
  | None => []
  | Some ps => map call_of_raw (omap functionCall ps)
  end.

Definition isMalformedFunctionCall (candidate : Candidate) : bool :=
  match finishReason candidate with
  | Some r => String.eqb r "MALFORMED_FUNCTION_CALL"
  | None => false
  end.

(** [{ required, explanation }]; [explanation] is [undefined] when no
    confirmation is required. *)
Record SafetyCheck : Type := mkSafety {
  required : bool;
  explanation : JVal
}.

(** [v === 'require_confirmation'] *)
Definition is_require_confirmation (v : JVal) : bool :=
  match v with
  | JStr d => String.eqb d "require_confirmation"
  | _ => false
  end.

Definition requiresSafetyConfirmation (fc : FunctionCall) : SafetyCheck :=
  let safetyDecision := default JUndefined (fc_args fc !! "safety_decision") in
  if is_require_confirmation (prop "decision" safetyDecision) then
    {| required := true;
       explanation :=
         if truthy (prop "explanation" safetyDecision)
         then prop "explanation" safetyDecision
         else JStr "Action requires confirmation" |}
  else {| required := false; explanation := JUndefined |}.

End BrowserAgent.

(** ** content/content.js: the handlers run inside the page *)

Module ContentScript.

(** What a handler does to the page besides answering. *)
Inductive PageEffect : Type :=
| Navigate (url : string)          (* window.location.href = url *)
| HistoryBack                      (* history.back() *)
| HistoryForward.                  (* history.forward() *)

Inductive HandlerOutcome : Type :=
| Returns (result : gmap string JVal) (effects : list PageEffect)
| Raises (message : string).

(** The page the script runs in.  The handlers that drive the DOM with
    native input events ([click_at], [type_text_at], the scrolls, [hover_at],
    [key_combination], [drag_and_drop]) are the actuator the specification
    leaves outside; the page says what each of them does. *)
Record Page : Type := mkPage {
  location_href : string;
  dom_handlers : string -> gmap string JVal -> HandlerOutcome
}.

(** An object literal. *)
Definition obj (fields : list (string * JVal)) : gmap string JVal :=
  list_to_map fields.

(** [String.prototype.startsWith] *)
Definition startsWith (s p : string) : bool := String.prefix p s.

Definition navigate (pg : Page) (args : gmap string JVal) : HandlerOutcome :=
  let url := default JUndefined (args !! "url") in
  if negb (truthy url) then
    Returns (obj [ ("success", JBool false);
                   ("error", JStr "No URL provided");
                   ("url", JStr (location_href pg)) ]) []
  else
    match url with
    | JStr u =>
        let url :=
          if negb (startsWith u "http://") && negb (startsWith u "https://")
          then "https://" +:+ u else u in
        Returns (obj [ ("success", JBool true);
                       ("navigatedTo", JStr url);
                       ("url", JStr url) ]) [ Navigate url ]
    | _ => Raises "url.startsWith is not a function"
    end.

Definition go_back (pg : Page) (args : gmap string JVal) : HandlerOutcome :=
  Returns (obj [ ("success", JBool true); ("action", JStr "back");
                 ("url", JStr (location_href pg)) ]) [ HistoryBack ].

Definition go_forward (pg : Page) (args : gmap string JVal) : HandlerOutcome :=
  Returns (obj [ ("success", JBool true); ("action", JStr "forward");
                 ("url", JStr (location_href pg)) ]) [ HistoryForward ].

Definition wait_5_seconds (pg : Page) (args : gmap string JVal) : HandlerOutcome :=
  Returns (obj [ ("success", JBool true); ("waited", JNum 5000);
                 ("url", JStr (location_href pg)) ]) [].

Definition search (pg : Page) (args : gmap string JVal) : HandlerOutcome :=
  Returns (obj [ ("success", JBool true);
                 ("navigatedTo", JStr "https://www.google.com");
                 ("url", JStr "https://www.google.com") ])
          [ Navigate "https://www.google.com" ].

Definition open_web_browser (pg : Page) (args : gmap string JVal) : HandlerOutcome :=
  Returns (obj [ ("success", JBool true); ("message", JStr "Already in browser");
                 ("url", JStr (location_href pg)) ]) [].

Definition dom_handler (action : string) (pg : Page) (args : gmap string JVal)
    : HandlerOutcome :=
  dom_handlers pg action args.

(** The table [actionHandlers], in the order of the source. *)
Definition actionHandlers
    : list (string * (Page -> gmap string JVal -> HandlerOutcome)) :=
  [ ("click_at", dom_handler "click_at");
    ("type_text_at", dom_handler "type_text_at");
    ("scroll_document", dom_handler "scroll_document");
    ("scroll_at", dom_handler "scroll_at");
    ("navigate", navigate);
    ("go_back", go_back);
    ("go_forward", go_forward);
    ("hover_at", dom_handler "hover_at");
    ("key_combination", dom_handler "key_combination");
    ("drag_and_drop", dom_handler "drag_and_drop");
    ("wait_5_seconds", wait_5_seconds);
    ("search", search);
    ("open_web_browser", open_web_browser) ].

(** [actionHandlers[action]], on the table's own entries. *)
Definition handler_of (action : string)
    : option (Page -> gmap string JVal -> HandlerOutcome) :=
  snd <$> List.find (fun entry => String.eqb (fst entry) action) actionHandlers.

(** The listener's [EXECUTE_ACTION] branch: the answer passed to
    [sendResponse], and what happened to the page. *)
Definition onExecuteAction (pg : Page) (action : string) (args : gmap string JVal)
    : gmap string JVal * list PageEffect :=
  match handler_of action with
  | None =>
      (obj [ ("success", JBool false);
             ("error", JStr ("Unknown action: " +:+ action)) ], [])
  | Some handler =>
      match handler pg args with
      | Returns result effects => (result, effects)
      | Raises msg =>
          (obj [ ("success", JBool false); ("error", JStr msg) ], [])
      end
  end.

End ContentScript.

(** ** The asynchronous runtime: globals, outside world, events *)

Module Runtime.
Import BrowserAgent.

Record Tab : Type := mkTab {
  tab_id : Z;
  tab_url : option string
}.

(** [chrome.tabs.sendMessage]: the promise rejects, or the message reaches
    the content script of a page. *)
Inductive SendOutcome : Type :=
| SendRejects (e : JsError)
| SendDelivered (pg : ContentScript.Page).

(** [response] of [model.generateContent]. *)
Record GenerateContentResponse : Type := mkResponse {
  candidates : option (list Candidate)
}.

(** [fetch] against the REST endpoint (older client). *)
Record ApiData : Type := mkApiData {
  data_candidates : option (list Candidate);
  data_error_message : option string
}.

Record HttpResponse : Type := mkHttp {
  http_status : Z;
  http_json : option ApiData       (* [None]: the body is not JSON *)
}.

Inductive FetchOutcome : Type :=
| FetchRejects (e : JsError)
| FetchResponds (r : HttpResponse).

(** The answers of the outside world, each list in the order asked. *)
Record Env : Type := mkEnv {
  env_generate : list (JsError + GenerateContentResponse);
  env_fetch : list FetchOutcome;
  env_safety : list (option bool);  (* [None]: no answer ever comes *)
  env_tabs : list (option Tab);
  env_send : list SendOutcome;
  env_inject : list (option JsError);
  env_capture : list (JsError + string);
  env_stop : list bool              (* does STOP_AGENT arrive during this await? *)
}.

(** The mutable state: [agent.contents] (which is [conversationHistory]
    in the older worker), [agent.finalReasoning] and the worker's globals. *)
Record World : Type := mkWorld {
  contents : list Content;
  finalReasoning : option string;
  isRunning : bool;
  shouldStop : bool;
  pendingSafetyConfirmation : option FunctionCall;
  highlightMouse : bool;
  env : Env
}.

Inductive SidepanelMessage : Type :=
| STATUS_UPDATE (status : string)
| ERROR (message : string)
| UPDATE_CONVERSATION (role : string) (content : option string)
    (thoughtSummary : option string) (actions : list FunctionCall)
| SAFETY_CONFIRMATION (action : FunctionCall) (explanation : JVal)
| TRAJECTORY_UPDATED.

Inductive Event : Type :=
| EvGenerateContent (sent : list Content)
| EvFetch (sent : list Content)
| EvWarn (attempt : nat)
| EvSleep (ms : Z)
| EvSidepanel (m : SidepanelMessage)
| EvSafetyResponse (fc : FunctionCall) (allowed : bool)
| EvExecuteAction (action : string) (args : gmap string JVal)
| EvSendMessage (action : string) (args : gmap string JVal) (highlightMouse : bool)
| EvPage (eff : ContentScript.PageEffect)
| EvInjectContentScript
| EvPageSettle
| EvCaptureScreenshot
| EvTrajectoryStep (screenshot : option string) (actions : list FunctionCall).

Inductive Outcome (A : Type) : Type :=
| Value (a : A)
| Throws (e : JsError)
| Pending            (* awaits a promise nobody will settle *)
| OutOfFuel.
Arguments Value {A} a.
Arguments Throws {A} e.
Arguments Pending {A}.
Arguments OutOfFuel {A}.

Definition M (A : Type) : Type := World -> Outcome A * World * list Event.

Definition ret {A} (a : A) : M A := fun w => (Value a, w, []).

Definition bind {A B} (m : M A) (f : A -> M B) : M B :=
  fun w =>
    match m w with
    | (Value a, w1, e1) =>
        let '(r, w2, e2) := f a w1 in (r, w2, e1 ++ e2)
    | (Throws e, w1, e1) => (Throws e, w1, e1)
    | (Pending, w1, e1) => (Pending, w1, e1)
    | (OutOfFuel, w1, e1) => (OutOfFuel, w1, e1)
    end.

Definition throw {A} (e : JsError) : M A := fun w => (Throws e, w, []).

(** [try { m } catch (error) { handler }] with the value of either. *)
Definition try_catch {A} (m : M A) (handler : JsError -> M A) : M A :=
  fun w =>
    match m w with
    | (Throws e, w1, e1) =>
        let '(r, w2, e2) := handler e w1 in (r, w2, e1 ++ e2)
    | other => other
    end.

(** [try { m } finally { cleanup }]: the cleanup also runs on a throw. *)
Definition try_finally {A} (m : M A) (cleanup : M unit) : M A :=
  fun w =>
    match m w with
    | (Value a, w1, e1) =>
        match cleanup w1 with
        | (Value _, w2, e2) => (Value a, w2, e1 ++ e2)
        | (Throws e, w2, e2) => (Throws e, w2, e1 ++ e2)
        | (Pending, w2, e2) => (Pending, w2, e1 ++ e2)
        | (OutOfFuel, w2, e2) => (OutOfFuel, w2, e1 ++ e2)
        end
    | (Throws e, w1, e1) =>
        match cleanup w1 with
        | (Value _, w2, e2) => (Throws e, w2, e1 ++ e2)
        | (Throws e', w2, e2) => (Throws e', w2, e1 ++ e2)
        | (Pending, w2, e2) => (Pending, w2, e1 ++ e2)
        | (OutOfFuel, w2, e2) => (OutOfFuel, w2, e1 ++ e2)
        end
    | other => other
    end.

Definition emit (ev : Event) : M unit := fun w => (Value tt, w, [ev]).
Definition get : M World := fun w => (Value w, w, []).
Definition modify (f : World -> World) : M unit := fun w => (Value tt, f w, []).
Definition pending {A} : M A := fun w => (Pending, w, []).
Definition out_of_fuel {A} : M A := fun w => (OutOfFuel, w, []).

Declare Scope js_scope.
Delimit Scope js_scope with js.
Notation "x <- m ;; k" := (bind m (fun x => k))
  (at level 100, m at next level, right associativity) : js_scope.
Notation "m ;; k" := (bind m (fun _ => k))
  (at level 100, right associativity) : js_scope.
Local Open Scope js_scope.

(** *** Updates of the globals *)

Definition set_contents (c : list Content) (w : World) : World :=
  {| contents := c; finalReasoning := finalReasoning w;
     isRunning := isRunning w; shouldStop := shouldStop w;
     pendingSafetyConfirmation := pendingSafetyConfirmation w;
     highlightMouse := highlightMouse w; env := env w |}.

Definition set_finalReasoning (r : option string) (w : World) : World :=
  {| contents := contents w; finalReasoning := r;
     isRunning := isRunning w; shouldStop := shouldStop w;
     pendingSafetyConfirmation := pendingSafetyConfirmation w;
     highlightMouse := highlightMouse w; env := env w |}.

Definition set_isRunning (b : bool) (w : World) : World :=
  {| contents := contents w; finalReasoning := finalReasoning w;
     isRunning := b; shouldStop := shouldStop w;
     pendingSafetyConfirmation := pendingSafetyConfirmation w;
     highlightMouse := highlightMouse w; env := env w |}.

Definition set_shouldStop (b : bool) (w : World) : World :=
  {| contents := contents w; finalReasoning := finalReasoning w;
     isRunning := isRunning w; shouldStop := b;
     pendingSafetyConfirmation := pendingSafetyConfirmation w;
     highlightMouse := highlightMouse w; env := env w |}.

Definition set_pending (p : option FunctionCall) (w : World) : World :=
  {| contents := contents w; finalReasoning := finalReasoning w;
     isRunning := isRunning w; shouldStop := shouldStop w;
     pendingSafetyConfirmation := p;
     highlightMouse := highlightMouse w; env := env w |}.

Definition set_env (e : Env) (w : World) : World :=
  {| contents := contents w; finalReasoning := finalReasoning w;
     isRunning := isRunning w; shouldStop := shouldStop w;
     pendingSafetyConfirmation := pendingSafetyConfirmation w;
     highlightMouse := highlightMouse w; env := e |}.

(** *** Asking the outside world *)

(** Take the next answer of one of the lists of [Env]; [rest] puts the
    remaining answers back. *)
Definition ask {A} (answers : Env -> list A) (rest : list A -> Env -> Env)
    : M (option A) :=
  fun w =>
    match answers (env w) with
    | [] => (Value None, w, [])
    | a :: more => (Value (Some a), set_env (rest more (env w)) w, [])
    end.

Definition rest_generate (l : list (JsError + GenerateContentResponse)) (e : Env) : Env :=
  {| env_generate := l; env_fetch := env_fetch e; env_safety := env_safety e;
     env_tabs := env_tabs e; env_send := env_send e; env_inject := env_inject e;
     env_capture := env_capture e; env_stop := env_stop e |}.

Definition rest_fetch (l : list FetchOutcome) (e : Env) : Env :=
  {| env_generate := env_generate e; env_fetch := l; env_safety := env_safety e;
     env_tabs := env_tabs e; env_send := env_send e; env_inject := env_inject e;
     env_capture := env_capture e; env_stop := env_stop e |}.

Definition rest_safety (l : list (option bool)) (e : Env) : Env :=
  {| env_generate := env_generate e; env_fetch := env_fetch e; env_safety := l;
     env_tabs := env_tabs e; env_send := env_send e; env_inject := env_inject e;
     env_capture := env_capture e; env_stop := env_stop e |}.

Definition rest_tabs (l : list (option Tab)) (e : Env) : Env :=
  {| env_generate := env_generate e; env_fetch := env_fetch e;
     env_safety := env_safety e; env_tabs := l; env_send := env_send e;
     env_inject := env_inject e; env_capture := env_capture e;
     env_stop := env_stop e |}.

Definition rest_send (l : list SendOutcome) (e : Env) : Env :=
  {| env_generate := env_generate e; env_fetch := env_fetch e;
     env_safety := env_safety e; env_tabs := env_tabs e; env_send := l;
     env_inject := env_inject e; env_capture := env_capture e;
     env_stop := env_stop e |}.

Definition rest_inject (l : list (option JsError)) (e : Env) : Env :=
  {| env_generate := env_generate e; env_fetch := env_fetch e;
     env_safety := env_safety e; env_tabs := env_tabs e; env_send := env_send e;
     env_inject := l; env_capture := env_capture e; env_stop := env_stop e |}.

Definition rest_capture (l : list (JsError + string)) (e : Env) : Env :=
  {| env_generate := env_generate e; env_fetch := env_fetch e;
     env_safety := env_safety e; env_tabs := env_tabs e; env_send := env_send e;
     env_inject := env_inject e; env_capture := l; env_stop := env_stop e |}.

Definition rest_stop (l : list bool) (e : Env) : Env :=
  {| env_generate := env_generate e; env_fetch := env_fetch e;
     env_safety := env_safety e; env_tabs := env_tabs e; env_send := env_send e;
     env_inject := env_inject e; env_capture := env_capture e; env_stop := l |}.

Definition sendToSidepanel (m : SidepanelMessage) : M unit :=
  emit (EvSidepanel m).

(** [stopAgent], run by the message listener on STOP_AGENT. *)
Definition stopAgent : M unit :=
  modify (fun w => set_pending None (set_isRunning false (set_shouldStop true w))) ;;
  sendToSidepanel (STATUS_UPDATE "idle").

(** Every [await] hands control to the event loop, where a STOP_AGENT
    message may be served before the worker resumes.  Returns whether one
    was. *)
Definition await_ : M bool :=
  stop <- ask env_stop rest_stop ;;
  match stop with
  | Some true => stopAgent ;; ret true
  | _ => ret false
  end.

Definition sleep (ms : Z) : M unit :=
  emit (EvSleep ms) ;; await_ ;; ret tt.

(** [chrome.tabs.query({active, currentWindow})], first tab if any. *)
Definition tabs_query : M (option Tab) :=
  t <- ask env_tabs rest_tabs ;;
  await_ ;;
  ret (default None t).

Definition no_receiver : JsError :=
  Error "Could not establish connection. Receiving end does not exist.".

(** What the handler did to the page, in order. *)
Fixpoint page_effects (l : list ContentScript.PageEffect) : M unit :=
  match l with
  | [] => ret tt
  | eff :: l' => emit (EvPage eff) ;; page_effects l'
  end.

(** [chrome.tabs.sendMessage(tab.id, { type: 'EXECUTE_ACTION', ... })]:
    when it is delivered, the content script's listener answers. *)
Definition tabs_sendMessage (action : string) (args : gmap string JVal)
    (highlightMouse : bool) : M (gmap string JVal) :=
  emit (EvSendMessage action args highlightMouse) ;;
  o <- ask env_send rest_send ;;
  await_ ;;
  match default (SendRejects no_receiver) o with
  | SendRejects e => throw e
  | SendDelivered pg =>
      let '(response, effects) := ContentScript.onExecuteAction pg action args in
      page_effects effects ;;
      ret response
  end.

(** [chrome.scripting.executeScript] of the content script. *)
Definition scripting_executeScript : M unit :=
  emit EvInjectContentScript ;;
  o <- ask env_inject rest_inject ;;
  await_ ;;
  match default None o with
  | Some e => throw e
  | None => ret tt
  end.

(** [captureScreenshot]: query the tab, capture, strip the data-URL prefix;
    the answer taken here is the base64 text, or the error thrown on the
    way. *)
Definition captureScreenshot : M string :=
  emit EvCaptureScreenshot ;;
  o <- ask env_capture rest_capture ;;
  await_ ;;
  match default (inl (Error "No active tab found")) o with
  | inl e => throw e
  | inr base64Data => ret base64Data
  end.

Definition waitForPageSettle : M unit :=
  emit EvPageSettle ;; await_ ;; ret tt.

Definition getCurrentUrl : M string :=
  t <- tabs_query ;;
  ret (match t with
       | Some tab => default "" (tab_url tab)
       | None => ""
       end).

(** [requestSafetyConfirmation]: park the call, tell the side panel, and
    wait for SAFETY_RESPONSE.  A STOP_AGENT served meanwhile clears the
    parked call, after which no SAFETY_RESPONSE can settle the promise. *)
Definition requestSafetyConfirmation (functionCall : FunctionCall) (explanation : JVal)
    : M bool :=
  modify (set_pending (Some functionCall)) ;;
  sendToSidepanel (SAFETY_CONFIRMATION functionCall explanation) ;;
  stopped <- await_ ;;
  if (stopped : bool) then pending
  else
    answer <- ask env_safety rest_safety ;;
    match answer with
    | Some (Some allowed) =>
        modify (set_pending None) ;;
        emit (EvSafetyResponse functionCall allowed) ;;
        ret allowed
    | _ => pending
    end.

(** [String.prototype.includes] *)
Fixpoint str_includes (needle hay : string) : bool :=
  String.prefix needle hay
  || match hay with
     | EmptyString => false
     | String _ rest => str_includes needle rest
     end.

End Runtime.

(** ** Regular expressions, as far as [questionIndicators] needs them *)

Module RegExp.

Inductive Pattern : Type :=
| Chars (literal : string)         (* a run of literal characters *)
| EndAssertion                     (* [$] *)
| Seq (p q : Pattern)
| Alt (p q : Pattern).             (* [(p|q)] *)

Record RegExp : Type := mkRegExp {
  pattern : Pattern;
  ignoreCase : bool;               (* flag [i] *)
  multiline : bool                 (* flag [m] *)
}.

(** Case folding of flag [i]: characters below 128 fold like ASCII, and
    no character from above folds onto one below. *)
Definition canonicalize (ignoreCase : bool) (c : ascii) : ascii :=
  let n := nat_of_ascii c in
  if ignoreCase && (97 <=? n)%nat && (n <=? 122)%nat
  then ascii_of_nat (n - 32) else c.

Definition LF : string := String (ascii_of_nat 10) "".
Definition CR : string := String (ascii_of_nat 13) "".
(** U+2028 and U+2029 in UTF-8. *)
Definition LS : string :=
  String (ascii_of_nat 226) (String (ascii_of_nat 128) (String (ascii_of_nat 168) "")).
Definition PS : string :=
  String (ascii_of_nat 226) (String (ascii_of_nat 128) (String (ascii_of_nat 169) "")).

Definition line_terminator_ahead (input : string) : bool :=
  String.prefix LF input || String.prefix CR input
  || String.prefix LS input || String.prefix PS input.

Fixpoint match_chars (ic : bool) (literal input : string) : option string :=
  match literal, input with
  | EmptyString, _ => Some input
  | String a literal', String b input' =>
      if Ascii.eqb (canonicalize ic a) (canonicalize ic b)
      then match_chars ic literal' input' else None
  | String _ _, EmptyString => None
  end.

(** All the ways [p] matches at the start of [input]: what is left of the
    input after each. *)
Fixpoint matches (ic ml : bool) (p : Pattern) (input : string) : list string :=
  match p with
  | Chars literal =>
      match match_chars ic literal input with
      | Some rest => [rest]
      | None => []
      end
  | EndAssertion =>
      match input with
      | EmptyString => [input]
      | _ => if ml && line_terminator_ahead input then [input] else []
      end
  | Seq p q => flat_map (matches ic ml q) (matches ic ml p input)
  | Alt p q => matches ic ml p input ++ matches ic ml q input
  end.

Definition matches_here (re : RegExp) (input : string) : bool :=
  match matches (ignoreCase re) (multiline re) (pattern re) input with
  | [] => false
  | _ :: _ => true
  end.

(** [re.test(input)]: a match starting anywhere. *)
Fixpoint test (re : RegExp) (input : string) : bool :=
  matches_here re input
  || match input with
     | EmptyString => false
     | String _ rest => test re rest
     end.

Definition literal_i (s : string) : RegExp :=
  {| pattern := Chars s; ignoreCase := true; multiline := false |}.

Definition questionIndicators : list RegExp :=
  [ {| pattern := Seq (Chars "?") EndAssertion;
       ignoreCase := false; multiline := true |};
    literal_i "please confirm";
    literal_i "should I";
    literal_i "would you like";
    literal_i "which one";
    literal_i "do you want";
    {| pattern := Seq (Chars "can you ")
                      (Alt (Chars "tell") (Alt (Chars "provide") (Chars "specify")));
       ignoreCase := true; multiline := false |};
    literal_i "let me know" ].

End RegExp.

(** ** [BrowserAgent]: the question heuristic and the retrying model call *)

Module Agent.
Import BrowserAgent Runtime.
Local Open Scope js_scope.

Definition isWaitingForInput (text : option string) : bool :=
  match text with
  | None => false
  | Some t =>
      if String.eqb t "" then false
      else existsb (fun pattern => RegExp.test pattern t) RegExp.questionIndicators
  end.

Definition maxRetries : nat := 5.
Definition baseDelayMs : Z := 1000.

(** [this.model.generateContent({ contents: this.contents })] *)
Definition generateContent : M GenerateContentResponse :=
  w <- get ;;
  emit (EvGenerateContent (contents w)) ;;
  o <- ask env_generate rest_generate ;;
  await_ ;;
  match default (inl (Error "Failed to fetch")) o with
  | inl e => throw e
  | inr response => ret response
  end.

(** The error thrown after the last attempt. *)
Definition enhancedError (error : JsError) : JsError :=
  let errorMessage :=
    if String.eqb (message error) "" then "Unknown API error" else message error in
  let errorMessage :=
    match status error with
    | Some n => if (n =? 0)%N then errorMessage
                else "[" +:+ pretty n +:+ "] " +:+ errorMessage
    | None => errorMessage
    end in
  let errorMessage :=
    match statusText error with
    | Some t => if String.eqb t "" then errorMessage
                else errorMessage +:+ " (" +:+ t +:+ ")"
    | None => errorMessage
    end in
  Error errorMessage.

(** The [for] loop of [getModelResponse], entered with [attempt] and
    [remaining = maxRetries - attempt] rounds to go.  Falling out of the
    loop returns [undefined], here [None]. *)
Fixpoint attempts (remaining attempt : nat) : M (option GenerateContentResponse) :=
  match remaining with
  | O => ret None
  | S remaining' =>
      try_catch
        (response <- generateContent ;; ret (Some response))
        (fun error =>
           emit (EvWarn (attempt + 1)) ;;
           if (attempt =? maxRetries - 1)%nat then throw (enhancedError error)
           else
             let delayMs := (baseDelayMs * 2 ^ Z.of_nat attempt)%Z in
             sleep delayMs ;;
             attempts remaining' (S attempt))
  end.

Definition getModelResponse : M (option GenerateContentResponse) :=
  attempts maxRetries 0.

End Agent.

(** ** src/background/service-worker.js *)

Module ServiceWorker.
Import BrowserAgent Runtime ContentScript.
Local Open Scope js_scope.

Inductive IterationResult : Type := COMPLETE | CONTINUE.

Definition url_of_tab (t : option Tab) : JVal :=
  JStr (match t with
        | Some tab => default "" (tab_url tab)
        | None => ""
        end).

Definition executeAction (action : string) (args : gmap string JVal)
    (highlightMouse : bool) : M (gmap string JVal) :=
  emit (EvExecuteAction action args) ;;
  try_catch
    (t <- tabs_query ;;
     match t with
     | None => throw (Error "No active tab found")
     | Some tab =>
         if String.eqb action "wait_5_seconds" then
           sleep 5000 ;;
           ret (obj [ ("success", JBool true); ("waited", JNum 5000);
                      ("url", match tab_url tab with
                              | Some u => JStr u
                              | None => JUndefined
                              end) ])
         else tabs_sendMessage action args highlightMouse
     end)
    (fun error =>
       if str_includes "Receiving end does not exist" (message error) then
         try_catch
           (t <- tabs_query ;;
            match t with
            | None =>
                throw {| name := "TypeError";
                         message := "Cannot read properties of undefined (reading 'id')";
                         status := None; statusText := None |}
            | Some tab =>
                scripting_executeScript ;;
                tabs_sendMessage action args highlightMouse
            end)
           (fun injectError =>
              t <- tabs_query ;;
              ret (obj [ ("success", JBool false);
                         ("error", JStr ("Failed to inject content script: "
                                         +:+ message injectError));
                         ("url", url_of_tab t) ]))
       else
         t <- tabs_query ;;
         ret (obj [ ("success", JBool false);
                    ("error", JStr (message error));
                    ("url", url_of_tab t) ])).

(** [saveTrajectoryToStorage] after [trajectorySteps.push]: the step is
    logged, the write to [chrome.storage.local] is awaited. *)
Definition trackStep (screenshot : option string) (actions : list FunctionCall) : M unit :=
  emit (EvTrajectoryStep screenshot actions) ;;
  await_ ;;
  sendToSidepanel TRAJECTORY_UPDATED.

(** How the [for] loop over the function calls is left. *)
Inductive LoopExit : Type :=
| LoopDone (functionResponses : list FunctionResponseInput)  (* ran out, or [break] *)
| LoopReturned (r : IterationResult).                        (* [return] inside *)

Fixpoint forEachCall (functionCalls : list FunctionCall)
    (functionResponses : list FunctionResponseInput) : M LoopExit :=
  match functionCalls with
  | [] => ret (LoopDone functionResponses)
  | fc :: rest =>
      w <- get ;;
      if shouldStop w then ret (LoopDone functionResponses)
      else
        let safety := requiresSafetyConfirmation fc in
        allowed <- (if required safety
                    then requestSafetyConfirmation fc (explanation safety)
                    else ret true) ;;
        if negb allowed then ret (LoopReturned COMPLETE)
        else
          let safetyAcknowledgement := required safety in
          result <- executeAction (fc_name fc) (fc_args fc) (highlightMouse w) ;;
          waitForPageSettle ;;
          screenshot <- captureScreenshot ;;
          url <- (let u := default JUndefined (result !! "url") in
                  if truthy u then ret u
                  else (current <- getCurrentUrl ;; ret (JStr current))) ;;
          let response : gmap string JVal :=
            if safetyAcknowledgement
            then <["safety_acknowledgement" := JStr "true"]> (obj [ ("url", url) ])
            else obj [ ("url", url) ] in
          trackStep (Some screenshot) [fc] ;;
          sleep 200 ;;
          forEachCall rest
            (functionResponses
               ++ [ {| fri_name := fc_name fc; fri_response := response;
                       fri_screenshot := screenshot |} ])
  end.

Definition undefined_candidates : JsError :=
  {| name := "TypeError";
     message := "Cannot read properties of undefined (reading 'candidates')";
     status := None; statusText := None |}.

Definition runOneIteration : M IterationResult :=
  got <- try_catch
           (r <- Agent.getModelResponse ;; ret (inr r))
           (fun error =>
              sendToSidepanel (ERROR (message error)) ;;
              ret (inl COMPLETE)) ;;
  match got with
  | inl early => ret early
  | inr None => throw undefined_candidates
  | inr (Some response) =>
      match candidates response with
      | None | Some [] =>
          sendToSidepanel (ERROR "No response from model") ;;
          ret COMPLETE
      | Some (candidate :: _) =>
          modify (fun w => set_contents (addModelResponse candidate (contents w)) w) ;;
          let reasoning := getText candidate in
          let thoughtSummary := extractThoughtSummary candidate in
          let functionCalls := extractFunctionCalls candidate in
          if (length functionCalls =? 0)%nat && negb (truthy_str reasoning)
             && isMalformedFunctionCall candidate
          then ret CONTINUE
          else
            sendToSidepanel
              (UPDATE_CONVERSATION "model" reasoning thoughtSummary functionCalls) ;;
            if (length functionCalls =? 0)%nat then
              modify (set_finalReasoning reasoning) ;;
              (if truthy_str reasoning || truthy_str thoughtSummary
               then trackStep None []
               else ret tt) ;;
              sendToSidepanel
                (STATUS_UPDATE (if Agent.isWaitingForInput reasoning
                                then "waiting" else "idle")) ;;
              ret COMPLETE
            else
              exit <- forEachCall functionCalls [] ;;
              match exit with
              | LoopReturned r => ret r
              | LoopDone functionResponses =>
                  w <- get ;;
                  if shouldStop w then ret COMPLETE
                  else
                    modify (fun w => set_contents
                              (addFunctionResponses functionResponses (contents w)) w) ;;
                    ret CONTINUE
              end
      end
  end.

(** The [while (isRunning && !shouldStop)] loop, for at most [fuel] rounds. *)
Fixpoint iterate (fuel : nat) : M unit :=
  w <- get ;;
  if isRunning w && negb (shouldStop w) then
    match fuel with
    | O => out_of_fuel
    | S fuel' =>
        result <- runOneIteration ;;
        match result with
        | COMPLETE => ret tt
        | CONTINUE => sleep 300 ;; iterate fuel'
        end
    end
  else ret tt.

(** [runAgentLoop(initialPrompt)]; without a prompt the agent of the
    session is the one that already exists. *)
Definition runAgentLoop (fuel : nat) (initialPrompt : option string) : M unit :=
  w <- get ;;
  if isRunning w then ret tt
  else
    modify (fun w => set_shouldStop false (set_isRunning true w)) ;;
    sendToSidepanel (STATUS_UPDATE "running") ;;
    try_finally
      (try_catch
         ((if truthy_str initialPrompt then
             modify (fun w => set_finalReasoning None
                        (set_contents (startConversation (default "" initialPrompt)) w)) ;;
             await_ ;;
             sendToSidepanel (UPDATE_CONVERSATION "user" initialPrompt None [])
           else ret tt) ;;
          iterate fuel)
         (fun error => sendToSidepanel (ERROR (message error))))
      (modify (fun w => set_pending None (set_isRunning false w)) ;;
       w <- get ;;
       if negb (shouldStop w) then sendToSidepanel (STATUS_UPDATE "idle")
       else ret tt).

End ServiceWorker.

(** ** lib/api.js and background/service-worker.js: the older worker *)

Module Legacy.
Import BrowserAgent Runtime ContentScript.
Local Open Scope js_scope.

(** *** lib/api.js *)

Definition maxRetries : nat := 3.

(** What [parseResponse] returns: [{ parts, role }]. *)
Record Reply : Type := mkReply {
  reply_parts : list Part;
  reply_role : string
}.

Definition parseResponse (data : ApiData) : JsError + Reply :=
  match data_candidates data with
  | None | Some [] => inl (Error "No response from model")
  | Some (candidate :: _) =>
      if match finishReason candidate with
         | Some r => String.eqb r "SAFETY"
         | None => false
         end
      then inl (Error "Response blocked by safety filters")
      else
        match candidate_parts candidate with
        | None => inl (Error "Invalid response structure")
        | Some ps =>
            inr {| reply_parts := ps;
                   reply_role :=
                     match content candidate with
                     | Some c => if String.eqb (role c) "" then "model" else role c
                     | None => "model"
                     end |}
        end
  end.

(** [fetch(endpoint, { method: 'POST', ... })] *)
Definition fetch : M HttpResponse :=
  w <- get ;;
  emit (EvFetch (contents w)) ;;
  o <- ask env_fetch rest_fetch ;;
  await_ ;;
  match default (FetchRejects {| name := "TypeError"; message := "Failed to fetch";
                                 status := None; statusText := None |}) o with
  | FetchRejects e => throw e
  | FetchResponds r => ret r
  end.

Definition ok (r : HttpResponse) : bool :=
  (200 <=? http_status r)%Z && (http_status r <=? 299)%Z.

(** One round of the [while] loop of [callGeminiAPI]. *)
Inductive Round : Type :=
| Again                            (* [retries++; continue] *)
| Return (reply : Reply).

Definition backoff (retries : nat) : Z := (2 ^ Z.of_nat retries * 1000)%Z.

Definition round (retries : nat) : M Round :=
  try_catch
    (response <- fetch ;;
     if (http_status response =? 401)%Z then
       throw (Error "Invalid API key or unauthorized access")
     else if (http_status response =? 429)%Z then
       if (retries <? maxRetries)%nat then
         sleep (backoff retries) ;; ret Again
       else throw (Error "Rate limited. Please try again later.")
     else if negb (ok response) then
       await_ ;;
       let fallback := "API error: " +:+ pretty (http_status response) in
       throw (Error (match http_json response with
                     | Some errorData =>
                         match data_error_message errorData with
                         | Some m => if String.eqb m "" then fallback else m
                         | None => fallback
                         end
                     | None => fallback
                     end))
     else
       await_ ;;
       match http_json response with
       | None => throw {| name := "SyntaxError"; message := "Unexpected end of JSON input";
                          status := None; statusText := None |}
       | Some data =>
           match parseResponse data with
           | inl e => throw e
           | inr reply => ret (Return reply)
           end
       end)
    (fun error =>
       if str_includes "Rate limited" (message error)
          || str_includes "Invalid API" (message error)
       then throw error
       else if (retries <? maxRetries)%nat && String.eqb (name error) "TypeError" then
         sleep (backoff retries) ;; ret Again
       else throw error).

(** [while (retries <= maxRetries)], entered with
    [remaining = maxRetries + 1 - retries]; leaving the loop returns
    [undefined]. *)
Fixpoint rounds (remaining retries : nat) : M (option Reply) :=
  match remaining with
  | O => ret None
  | S remaining' =>
      r <- round retries ;;
      match r with
      | Return reply => ret (Some reply)
      | Again => rounds remaining' (S retries)
      end
  end.

Definition callGeminiAPI : M (option Reply) := rounds (maxRetries + 1) 0.

Definition extractFunctionCalls (ps : list Part) : list FunctionCall :=
  map call_of_raw (omap functionCall ps).

(** White space and line terminators of [String.prototype.trim], as
    UTF-8 byte sequences. *)
Definition bytes (l : list nat) : string :=
  fold_right (fun n s => String (ascii_of_nat n) s) "" l.

Definition whitespace : list string :=
  map bytes
    [ [9]; [10]; [11]; [12]; [13]; [32]; [194; 160]; [225; 154; 128];
      [226; 128; 128]; [226; 128; 129]; [226; 128; 130]; [226; 128; 131];
      [226; 128; 132]; [226; 128; 133]; [226; 128; 134]; [226; 128; 135];
      [226; 128; 136]; [226; 128; 137]; [226; 128; 138]; [226; 128; 168];
      [226; 128; 169]; [226; 128; 175]; [226; 129; 159]; [227; 128; 128];
      [239; 187; 191] ].

Fixpoint string_drop (n : nat) (s : string) : string :=
  match n, s with
  | S n', String _ s' => string_drop n' s'
  | _, _ => s
  end.

Fixpoint strip_leading (tokens : list string) (fuel : nat) (s : string) : string :=
  match fuel with
  | O => s
  | S fuel' =>
      match List.find (fun t => String.prefix t s) tokens with
      | Some t => strip_leading tokens fuel' (string_drop (String.length t) s)
      | None => s
      end
  end.

Definition trim (s : string) : string :=
  let s1 := strip_leading whitespace (String.length s) s in
  String.rev (strip_leading (map String.rev whitespace) (String.length s1) (String.rev s1)).

Definition extractText (ps : list Part) : string :=
  trim (fold_left (fun acc part =>
                     if truthy_str (text part) then acc +:+ default "" (text part)
                     else acc) ps "").

Definition isWaitingForInput (ps : list Part) : bool :=
  let t := extractText ps in
  let functionCalls := extractFunctionCalls ps in
  if (0 <? length functionCalls)%nat then false
  else if String.eqb t "" then false
  else existsb (fun pattern => RegExp.test pattern t) RegExp.questionIndicators.

Definition requiresSafetyConfirmation (functionCall : FunctionCall) : SafetyCheck :=
  let safetyDecision := default JUndefined (fc_args functionCall !! "safety_decision") in
  if truthy safetyDecision && is_require_confirmation (prop "decision" safetyDecision) then
    {| required := true;
       explanation :=
         if truthy (prop "explanation" safetyDecision)
         then prop "explanation" safetyDecision
         else JStr "Action requires confirmation" |}
  else {| required := false; explanation := JUndefined |}.

Definition buildFunctionResponse (name : string) (result : gmap string JVal)
    (safetyAcknowledgement : bool) : Part :=
  functionResponsePart
    {| fr_name := name;
       fr_response :=
         if safetyAcknowledgement
         then <["safety_acknowledgement" := JStr "true"]> result
         else result;
       fr_parts := PartsAbsent |}.

Definition buildUserMessage (t : string) (screenshotBase64 : option string) : Content :=
  {| role := "user";
     parts := Some ((if String.eqb t "" then [] else [ textPart t ])
                    ++ (if truthy_str screenshotBase64
                        then [ imagePart {| mimeType := "image/png";
                                            data := default "" screenshotBase64 |} ]
                        else [])) |}.

(** *** background/service-worker.js *)

Definition executeAction (action : string) (args : gmap string JVal)
    (highlightMouse : bool) : M (gmap string JVal) :=
  emit (EvExecuteAction action args) ;;
  try_catch
    (t <- tabs_query ;;
     match t with
     | None => throw (Error "No active tab found")
     | Some tab =>
         if String.eqb action "wait_5_seconds" then
           sleep 5000 ;;
           ret (obj [ ("success", JBool true); ("waited", JNum 5000);
                      ("url", match tab_url tab with
                              | Some u => JStr u
                              | None => JUndefined
                              end) ])
         else tabs_sendMessage action args highlightMouse
     end)
    (fun error =>
       if str_includes "Receiving end does not exist" (message error) then
         try_catch
           (t <- tabs_query ;;
            match t with
            | None =>
                throw {| name := "TypeError";
                         message := "Cannot read properties of undefined (reading 'id')";
                         status := None; statusText := None |}
            | Some tab =>
                scripting_executeScript ;;
                tabs_sendMessage action args highlightMouse
            end)
           (fun injectError =>
              ret (obj [ ("success", JBool false);
                         ("error", JStr ("Failed to inject content script: "
                                         +:+ message injectError)) ]))
       else
         ret (obj [ ("success", JBool false);
                    ("error", JStr (message error)) ])).

Definition denied : gmap string JVal :=
  obj [ ("denied", JBool true); ("reason", JStr "User denied action") ].

(** The [for] loop over the function calls; [break] and running out of
    calls both leave it with the responses gathered so far. *)
Fixpoint forEachCall (functionCalls : list FunctionCall)
    (functionResponses : list Part) : M (list Part) :=
  match functionCalls with
  | [] => ret functionResponses
  | fc :: rest =>
      w <- get ;;
      if shouldStop w then ret functionResponses
      else
        let safety := requiresSafetyConfirmation fc in
        allowed <- (if required safety
                    then requestSafetyConfirmation fc (explanation safety)
                    else ret true) ;;
        if negb allowed then
          forEachCall rest
            (functionResponses ++ [ buildFunctionResponse (fc_name fc) denied false ])
        else
          let safetyAcknowledgement := required safety in
          result <- executeAction (fc_name fc) (fc_args fc) (highlightMouse w) ;;
          sleep 200 ;;
          forEachCall rest
            (functionResponses
               ++ [ buildFunctionResponse (fc_name fc) result safetyAcknowledgement ])
  end.

(** One round of the [while (isRunning && !shouldStop)] loop. *)
Inductive Step : Type := Break | Next.

Definition undefined_parts : JsError :=
  {| name := "TypeError";
     message := "Cannot read properties of undefined (reading 'parts')";
     status := None; statusText := None |}.

Definition loopBody : M Step :=
  got <- try_catch
           (r <- callGeminiAPI ;; ret (Some r))
           (fun error => sendToSidepanel (ERROR (message error)) ;; ret None) ;;
  match got with
  | None => ret Break
  | Some None => throw undefined_parts
  | Some (Some response) =>
      modify (fun w => set_contents
                (contents w ++ [ {| role := "model";
                                    parts := Some (reply_parts response) |} ]) w) ;;
      let t := extractText (reply_parts response) in
      let functionCalls := extractFunctionCalls (reply_parts response) in
      sendToSidepanel (UPDATE_CONVERSATION "model" (Some t) None functionCalls) ;;
      if (length functionCalls =? 0)%nat then
        modify (set_isRunning false) ;;
        sendToSidepanel
          (STATUS_UPDATE (if isWaitingForInput (reply_parts response)
                          then "waiting" else "idle")) ;;
        ret Break
      else
        functionResponses <- forEachCall functionCalls [] ;;
        w <- get ;;
        if shouldStop w then ret Break
        else
          waitForPageSettle ;;
          newScreenshot <- captureScreenshot ;;
          modify (fun w => set_contents
                    (contents w
                     ++ [ {| role := "user";
                             parts := Some (functionResponses
                                            ++ [ imagePart {| mimeType := "image/png";
                                                              data := newScreenshot |} ]) |} ])
                    w) ;;
          sleep 300 ;;
          ret Next
  end.

Fixpoint iterate (fuel : nat) : M unit :=
  w <- get ;;
  if isRunning w && negb (shouldStop w) then
    match fuel with
    | O => out_of_fuel
    | S fuel' =>
        step <- loopBody ;;
        match step with
        | Break => ret tt
        | Next => iterate fuel'
        end
    end
  else ret tt.

Definition runAgentLoop (fuel : nat) (initialPrompt : option string) : M unit :=
  w <- get ;;
  if isRunning w then ret tt
  else
    modify (fun w => set_shouldStop false (set_isRunning true w)) ;;
    sendToSidepanel (STATUS_UPDATE "running") ;;
    try_finally
      (try_catch
         ((if truthy_str initialPrompt then
             waitForPageSettle ;;
             screenshot <- captureScreenshot ;;
             modify (fun w => set_contents
                       (contents w
                        ++ [ buildUserMessage (default "" initialPrompt) (Some screenshot) ])
                       w) ;;
             sendToSidepanel (UPDATE_CONVERSATION "user" initialPrompt None [])
           else ret tt) ;;
          iterate fuel)
         (fun error => sendToSidepanel (ERROR (message error))))
      (modify (fun w => set_pending None (set_isRunning false w)) ;;
       w <- get ;;
       if negb (shouldStop w) then sendToSidepanel (STATUS_UPDATE "idle")
       else ret tt).

End Legacy.

(** ** lib/coordinates.js: points, bounds and validity *)

Module Viewport.
Import Coordinates.

(** [Math.max] and [Math.min] of two numbers. *)
Definition Math_max (a b : Q) : Q := if Qle_bool a b then b else a.
Definition Math_min (a b : Q) : Q := if Qle_bool a b then a else b.

(** [a < b] on numbers. *)
Definition lt (a b : Q) : bool := negb (Qle_bool b a).

(** [{ x, y }] *)
Record Point : Type := mkPoint {
  x : Z;
  y : Z
}.

Definition denormalizeCoordinates
    (normalizedX normalizedY viewportWidth viewportHeight : Q) : Point :=
  {| x := denormalizeX normalizedX viewportWidth;
     y := denormalizeY normalizedY viewportHeight |}.

Definition normalizeCoordinates
    (pixelX pixelY viewportWidth viewportHeight : Q) : Point :=
  {| x := normalizeX pixelX viewportWidth;
     y := normalizeY pixelY viewportHeight |}.

Definition clamp (value min max : Q) : Q := Math_max min (Math_min max value).

Definition isValidNormalizedCoords (x y : Q) : bool :=
  Qle_bool 0 x && lt x NORMALIZED_MAX && Qle_bool 0 y && lt y NORMALIZED_MAX.

Definition isWithinViewport (x y viewportWidth viewportHeight : Q) : bool :=
  Qle_bool 0 x && lt x viewportWidth && Qle_bool 0 y && lt y viewportHeight.

End Viewport.

(** ** lib/actions.js: key combinations *)

Module Actions.

(** [String.prototype.toLowerCase] on the letters A-Z; every other byte is
    kept.  A string with a character outside ASCII never lowers to one of
    the words compared with below (they hold no k, the only ASCII letter
    that is the whole lower case of a character outside ASCII), and is
    never equal to one here either. *)
Definition lower (c : ascii) : ascii :=
  let n := nat_of_ascii c in
  if (65 <=? n)%nat && (n <=? 90)%nat then ascii_of_nat (n + 32) else c.

Fixpoint toLowerCase (s : string) : string :=
  match s with
  | EmptyString => EmptyString
  | String c rest => String (lower c) (toLowerCase rest)
  end.

(** [s.split(sep)] for a separator of one character. *)
Fixpoint split (sep : ascii) (s : string) : list string :=
  match s with
  | EmptyString => [ EmptyString ]
  | String c rest =>
      if Ascii.eqb c sep then EmptyString :: split sep rest
      else match split sep rest with
           | piece :: pieces => String c piece :: pieces
           | [] => [ String c EmptyString ]
           end
  end.

Record Modifiers : Type := mkModifiers {
  ctrlKey : bool;
  altKey : bool;
  shiftKey : bool;
  metaKey : bool
}.

(** [{ key, modifiers }] *)
Record KeyInfo : Type := mkKeyInfo {
  key : string;
  modifiers : Modifiers
}.

(** The labels of one [case] group of the [switch]. *)
Definition is_case (labels : list string) (lowerPart : string) : bool :=
  existsb (String.eqb lowerPart) labels.

(** The body of the [for] loop: one part of the combination. *)
Definition onPart (state : KeyInfo) (part : string) : KeyInfo :=
  let lowerPart := toLowerCase part in
  let m := modifiers state in
  if is_case [ "control"; "ctrl" ] lowerPart then
    {| key := key state;
       modifiers := {| ctrlKey := true; altKey := altKey m;
                       shiftKey := shiftKey m; metaKey := metaKey m |} |}
  else if is_case [ "alt" ] lowerPart then
    {| key := key state;
       modifiers := {| ctrlKey := ctrlKey m; altKey := true;
                       shiftKey := shiftKey m; metaKey := metaKey m |} |}
  else if is_case [ "shift" ] lowerPart then
    {| key := key state;
       modifiers := {| ctrlKey := ctrlKey m; altKey := altKey m;
                       shiftKey := true; metaKey := metaKey m |} |}
  else if is_case [ "meta"; "command"; "cmd" ] lowerPart then
    {| key := key state;
       modifiers := {| ctrlKey := ctrlKey m; altKey := altKey m;
                       shiftKey := shiftKey m; metaKey := true |} |}
  else {| key := part; modifiers := m |}.

Definition parseKeyCombination (keys : string) : KeyInfo :=
  let parts := map Legacy.trim (split "+" keys) in
  fold_left onPart parts
    {| key := "";
       modifiers := {| ctrlKey := false; altKey := false;
                       shiftKey := false; metaKey := false |} |}.

End Actions.

(** ** The trajectory export: escaping *)

Module TrajectoryExport.

(** The double quote. *)
Definition quot : ascii := "034"%char.

(** The table [div]. *)
Definition entity (char : ascii) : option string :=
  if Ascii.eqb char "&" then Some "&amp;"
  else if Ascii.eqb char "<" then Some "&lt;"
  else if Ascii.eqb char ">" then Some "&gt;"
  else if Ascii.eqb char quot then Some "&quot;"
  else if Ascii.eqb char "'" then Some "&#039;"
  else None.

(** [String(text).replace(re, char => div[char])], where [re] is the class
    of the five characters of the table, with flag [g]. *)
Fixpoint replace_special (text : string) : string :=
  match text with
  | EmptyString => EmptyString
  | String char rest =>
      match entity char with
      | Some e => e +:+ replace_special rest
      | None => String char (replace_special rest)
      end
  end.

(** [escapeHtml(text)] for a text that is a string or missing. *)
Definition escapeHtml (text : option string) : string :=
  match text with
  | Some t => if String.eqb t "" then "" else replace_special t
  | None => ""
  end.

End TrajectoryExport.

(** ** Notions used to state the properties *)

Module Notions.
Import BrowserAgent ContentScript Runtime.

(** How many turns of [l] count as turns with screenshots. *)
Definition screenshot_turns (l : list Content) : nat :=
  length (List.filter hasScreenshot l).

(** What pruning makes of a turn that has [newer] screenshot turns after it. *)
Definition pruned_turn (newer : nat) (c : Content) : Content :=
  if hasScreenshot c && (MAX_RECENT_TURN_WITH_SCREENSHOTS <=? newer)%nat
  then strip_content c else c.

Definition navigated (url : string) : HandlerOutcome :=
  Returns (obj [ ("success", JBool true); ("navigatedTo", JStr url);
                 ("url", JStr url) ]) [ Navigate url ].

Definition no_url_provided (pg : Page) : HandlerOutcome :=
  Returns (obj [ ("success", JBool false); ("error", JStr "No URL provided");
                 ("url", JStr (location_href pg)) ]) [].

Definition somePage : Page :=
  {| location_href := "https://example.org/start";
     dom_handlers := fun _ _ => Raises "not driven here" |}.

(** A user turn that answers one action of the vocabulary with a
    screenshot. *)
Definition screenshot_turn (action shot : string) : Content :=
  {| role := "user";
     parts := Some [ functionResponsePart
                       {| fr_name := action;
                          fr_response := obj [ ("url", JStr "https://example.org/start") ];
                          fr_parts := PartsArray [ {| mimeType := "image/png";
                                                     data := shot |} ] |} ] |}.

(** The same turn once its screenshot is gone. *)
Definition bare_turn (action : string) : Content :=
  {| role := "user";
     parts := Some [ functionResponsePart
                       {| fr_name := action;
                          fr_response := obj [ ("url", JStr "https://example.org/start") ];
                          fr_parts := PartsNull |} ] |}.

(** The three components of a run. *)
Definition outcome {A} (m : M A) (w : World) : Outcome A := fst (fst (m w)).
Definition after {A} (m : M A) (w : World) : World := snd (fst (m w)).
Definition events {A} (m : M A) (w : World) : list Event := snd (m w).

(** Every event of every run of [m] satisfies [K]. *)
Definition only {A} (K : Event -> Prop) (m : M A) : Prop :=
  forall w, Forall K (events m w).

(** No run of [m] changes the component [f] of the world. *)
Definition preserves {A X} (f : World -> X) (m : M A) : Prop :=
  forall w, f (after m w) = f w.

Definition not_executor (ev : Event) : Prop :=
  match ev with
  | EvExecuteAction _ _ => False
  | _ => True
  end.

Definition not_safety_response (ev : Event) : Prop :=
  match ev with
  | EvSafetyResponse _ _ => False
  | _ => True
  end.

(** Events other than entering the executor and receiving a safety answer. *)
Definition plain (ev : Event) : Prop :=
  match ev with
  | EvExecuteAction _ _ | EvSafetyResponse _ _ => False
  | _ => True
  end.

(** Every trace of [m] satisfies [T]. *)
Definition all_runs {A} (T : list Event -> Prop) (m : M A) : Prop :=
  forall w, T (events m w).

(** The delays slept, the model calls made and the errors shown, in order. *)
Definition sleeps (evs : list Event) : list Z :=
  omap (fun ev => match ev with EvSleep ms => Some ms | _ => None end) evs.

Definition model_calls (evs : list Event) : list (list Content) :=
  omap (fun ev => match ev with EvGenerateContent c => Some c | _ => None end) evs.

Definition errors_shown (evs : list Event) : list string :=
  omap (fun ev => match ev with
                  | EvSidepanel (ERROR m) => Some m
                  | _ => None
                  end) evs.

Definition statuses_shown (evs : list Event) : list string :=
  omap (fun ev => match ev with
                  | EvSidepanel (STATUS_UPDATE s) => Some s
                  | _ => None
                  end) evs.

(** The delay slept after the failure of attempt number [attempt]
    (counted from 0). *)
Definition delay (attempt : nat) : Z :=
  (Agent.baseDelayMs * 2 ^ Z.of_nat attempt)%Z.

(** [await_] shows at most the status of a stop. *)
Definition stop_status (ev : Event) : Prop :=
  ev = EvSidepanel (STATUS_UPDATE "idle").

(** A function call needs confirmation. *)
Definition gated (action : string) (args : gmap string JVal) : bool :=
  required (requiresSafetyConfirmation {| fc_name := action; fc_args := args |}).

(** In a trace, the executor is entered for a gated call only right after
    the side panel was asked about that call and the answer was to allow. *)
Definition executed_only_once_allowed (evs : list Event) : Prop :=
  forall pre action args post,
    evs = pre ++ EvExecuteAction action args :: post ->
    gated action args = true ->
    exists pre' explanation,
      pre = pre' ++ [ EvSidepanel (SAFETY_CONFIRMATION
                                     {| fc_name := action; fc_args := args |}
                                     explanation);
                      EvSafetyResponse {| fc_name := action; fc_args := args |} true ].

(** The same, as a grammar of traces. *)
Inductive well_gated : list Event -> Prop :=
| wg_nil : well_gated []
| wg_other ev evs :
    not_executor ev -> well_gated evs -> well_gated (ev :: evs)
| wg_free action args evs :
    gated action args = false ->
    well_gated evs -> well_gated (EvExecuteAction action args :: evs)
| wg_allowed fc explanation evs :
    well_gated evs ->
    well_gated (EvSidepanel (SAFETY_CONFIRMATION fc explanation)
                :: EvSafetyResponse fc true
                :: EvExecuteAction (fc_name fc) (fc_args fc) :: evs).

Definition not_refusal (ev : Event) : Prop :=
  match ev with
  | EvSafetyResponse _ false => False
  | _ => True
  end.

(** A refusal, when [m] receives one, is the last event of the run, which
    then ends with [final]. *)
Definition ends_at_denial {A} (final : Outcome A) (m : M A) : Prop :=
  forall w pre fc post,
    events m w = pre ++ EvSafetyResponse fc false :: post ->
    post = [] /\ outcome m w = final.

(** *** The question heuristic, in words *)

(** Letters a-z folded onto A-Z, every other byte kept. *)
Fixpoint fold_case (s : string) : string :=
  match s with
  | EmptyString => EmptyString
  | String c s' => String (RegExp.canonicalize true c) (fold_case s')
  end.

(** [t] contains [phrase], letter case aside. *)
Definition mentions (phrase t : string) : Prop :=
  exists before mid after,
    t = before +:+ mid +:+ after /\ fold_case mid = fold_case phrase.

(** [s] begins with a line terminator: LF, CR, U+2028 or U+2029. *)
Definition starts_new_line (s : string) : Prop :=
  exists nl rest,
    In nl [ RegExp.LF; RegExp.CR; RegExp.LS; RegExp.PS ] /\ s = nl +:+ rest.

(** Some line of [t] ends in a question mark. *)
Definition line_ends_with_question_mark (t : string) : Prop :=
  exists before after,
    t = before +:+ "?" +:+ after /\ (after = "" \/ starts_new_line after).

Definition question_heuristic (t : string) : Prop :=
  line_ends_with_question_mark t
  \/ mentions "please confirm" t
  \/ mentions "should I" t
  \/ mentions "would you like" t
  \/ mentions "which one" t
  \/ mentions "do you want" t
  \/ (mentions "can you tell" t \/ mentions "can you provide" t
      \/ mentions "can you specify" t)
  \/ mentions "let me know" t.

(** *** Sample worlds and replies, for the concrete cases *)

Definition silence : Env :=
  {| env_generate := []; env_fetch := []; env_safety := []; env_tabs := [];
     env_send := []; env_inject := []; env_capture := []; env_stop := [] |}.

(** A running session with history [history] in the outside world [e]. *)
Definition session (history : list Content) (e : Env) : World :=
  {| contents := history; finalReasoning := None; isRunning := true;
     shouldStop := false; pendingSafetyConfirmation := None;
     highlightMouse := false; env := e |}.

Definition task : list Content := startConversation "check the weather".

Definition unavailable : JsError :=
  {| name := "Error"; message := "fetch failed"; status := Some 503%N;
     statusText := Some "Service Unavailable" |}.

Definition callPart (action : string) (args : list (string * JVal)) : Part :=
  {| text := None; thought := false;
     functionCall := Some {| raw_name := action; raw_args := Some (obj args) |};
     functionResponse := None; inlineData := None |}.

Definition thoughtPart (s : string) : Part :=
  {| text := Some s; thought := true; functionCall := None;
     functionResponse := None; inlineData := None |}.

Definition reply (ps : list Part) (reason : string) : JsError + GenerateContentResponse :=
  inr {| candidates :=
           Some [ {| content := Some {| role := "model"; parts := Some ps |};
                     finishReason := Some reason |} ] |}.

Definition needs_confirmation : JVal :=
  JObj (obj [ ("decision", JStr "require_confirmation");
              ("explanation", JStr "This submits a payment") ]).

Definition someTab : Tab := {| tab_id := 7; tab_url := Some "https://example.org/start" |}.

(** A candidate cut short by a malformed function call: no content at all. *)
Definition malformed_candidate : Candidate :=
  {| content := None; finishReason := Some "MALFORMED_FUNCTION_CALL" |}.

Definition malformed_reply : World :=
  session task
    {| env_generate := [ inr {| candidates := Some [ malformed_candidate ] |} ];
       env_fetch := []; env_safety := []; env_tabs := []; env_send := [];
       env_inject := []; env_capture := []; env_stop := [] |}.

(** The same finish reason, on a candidate whose content holds a thought. *)
Definition malformed_after_thought : World :=
  session task
    {| env_generate := [ reply [ thoughtPart "I will click the button." ]
                               "MALFORMED_FUNCTION_CALL" ];
       env_fetch := []; env_safety := []; env_tabs := []; env_send := [];
       env_inject := []; env_capture := []; env_stop := [] |}.

(** The model asks a question and calls nothing. *)
Definition asks_a_question : World :=
  session task
    {| env_generate := [ reply [ textPart "Should I submit the form?" ] "STOP" ];
       env_fetch := []; env_safety := []; env_tabs := []; env_send := [];
       env_inject := []; env_capture := []; env_stop := [] |}.

Definition always_down : World :=
  session task
    {| env_generate := [ inl unavailable; inl unavailable; inl unavailable;
                         inl unavailable; inl unavailable ];
       env_fetch := []; env_safety := []; env_tabs := []; env_send := [];
       env_inject := []; env_capture := []; env_stop := [] |}.

(** A click that needs confirmation. *)
Definition gated_click : list (string * JVal) :=
  [ ("x", JNum 500); ("y", JNum 300); ("safety_decision", needs_confirmation) ].

Definition gated_click_call : FunctionCall :=
  {| fc_name := "click_at"; fc_args := obj gated_click |}.

(** The model asks for the gated click and the user refuses it. *)
Definition refused_click : World :=
  session task
    {| env_generate := [ reply [ callPart "click_at" gated_click ] "STOP" ];
       env_fetch := []; env_safety := [ Some false ]; env_tabs := [];
       env_send := []; env_inject := []; env_capture := []; env_stop := [] |}.

(** For the older worker: the model asks for the gated click and then for a
    navigation; the user refuses the click. *)
Definition refused_click_then_navigate : World :=
  session task
    {| env_generate := [];
       env_fetch :=
         [ FetchResponds
             {| http_status := 200;
                http_json :=
                  Some {| data_candidates :=
                            Some [ {| content :=
                                        Some {| role := "model";
                                                parts :=
                                                  Some [ callPart "click_at" gated_click;
                                                         callPart "navigate"
                                                           [ ("url", JStr "weather.com") ] ] |};
                                      finishReason := Some "STOP" |} ];
                          data_error_message := None |} |} ];
       env_safety := [ Some false ]; env_tabs := [ Some someTab ];
       env_send := [ SendDelivered somePage ]; env_inject := [];
       env_capture := [ inr "iVBORw0KGgo" ]; env_stop := [] |}.

(** Does the history hold a function response marked as denied? *)
Definition records_denial (history : list Content) : bool :=
  existsb (fun turn =>
             match parts turn with
             | Some ps =>
                 existsb (fun p =>
                            match functionResponse p with
                            | Some fr =>
                                match fr_response fr !! "denied" with
                                | Some (JBool true) => true
                                | _ => false
                                end
                            | None => false
                            end) ps
             | None => false
             end) history.

(** The actions that entered the executor after the first refusal. *)
Fixpoint executed_after_refusal (evs : list Event) : list string :=
  match evs with
  | [] => []
  | EvSafetyResponse _ false :: rest =>
      omap (fun ev => match ev with
                      | EvExecuteAction action _ => Some action
                      | _ => None
                      end) rest
  | _ :: rest => executed_after_refusal rest
  end.

(** The model asks for an action outside the vocabulary. *)
Definition unknown_action : World :=
  session task
    {| env_generate := [ reply [ callPart "frobnicate" [] ] "STOP" ];
       env_fetch := []; env_safety := [];
       env_tabs := [ Some someTab; Some someTab ];
       env_send := [ SendDelivered somePage ]; env_inject := [];
       env_capture := [ inr "iVBORw0KGgo" ]; env_stop := [] |}.

(** The content script is missing and cannot be injected. *)
Definition no_content_script : World :=
  session task
    {| env_generate := []; env_fetch := []; env_safety := [];
       env_tabs := [ Some someTab; Some someTab; Some someTab ];
       env_send := [ SendRejects no_receiver ];
       env_inject := [ Some (Error "Cannot access a chrome:// URL") ];
       env_capture := []; env_stop := [] |}.

(** For the older worker: the model asks for a click on a page where the
    content script is missing and cannot be injected. *)
Definition click_without_content_script : World :=
  session task
    {| env_generate := [];
       env_fetch :=
         [ FetchResponds
             {| http_status := 200;
                http_json :=
                  Some {| data_candidates :=
                            Some [ {| content :=
                                        Some {| role := "model";
                                                parts :=
                                                  Some [ callPart "click_at"
                                                           [ ("x", JNum 500);
                                                             ("y", JNum 300) ] ] |};
                                      finishReason := Some "STOP" |} ];
                          data_error_message := None |} |} ];
       env_safety := []; env_tabs := [ Some someTab; Some someTab ];
       env_send := [ SendRejects no_receiver ];
       env_inject := [ Some (Error "Cannot access a chrome:// URL") ];
       env_capture := [ inr "iVBORw0KGgo" ]; env_stop := [] |}.

End Notions.
Import Notions.

(** ** Further notions: what is observed of a run *)

Module Observations.
Import BrowserAgent Runtime.

(** The requests sent to the REST endpoint, in order. *)
Definition fetches (evs : list Event) : list (list Content) :=
  omap (fun ev => match ev with EvFetch c => Some c | _ => None end) evs.

(** Whatever [m] returns satisfies [P]. *)
Definition yields {A} (P : A -> Prop) (m : M A) : Prop :=
  forall w a, outcome m w = Value a -> P a.

(** The character [c] occurs in [s]. *)
Definition occurs (c : ascii) (s : string) : Prop := In c (list_ascii_of_string s).

(** The names of the modifier keys, lower case. *)
Definition modifier_names : list string :=
  [ "control"; "ctrl"; "alt"; "shift"; "meta"; "command"; "cmd" ].

(** What the current worker answers to a function call: the call's name, a
    response that holds [url] and, for a call that needed confirmation,
    [safety_acknowledgement], and nothing else. *)
Definition answers (fc : FunctionCall) (fr : FunctionResponseInput) : Prop :=
  fri_name fr = fc_name fc
  /\ exists url : JVal,
       (truthy url = true \/ exists s, url = JStr s)
       /\ fri_response fr
          = if required (requiresSafetyConfirmation fc)
            then <["safety_acknowledgement" := JStr "true"]>
                   (ContentScript.obj [ ("url", url) ])
            else ContentScript.obj [ ("url", url) ].

(** What the older worker answers to a function call: a function response
    under the call's name. *)
Definition answers_by_name (fc : FunctionCall) (part : Part) : Prop :=
  exists response,
    part = functionResponsePart
             {| fr_name := fc_name fc; fr_response := response;
                fr_parts := PartsAbsent |}.

(** An idle session: nothing runs, the history holds the task. *)
Definition at_rest (history : list Content) (e : Env) : World :=
  {| contents := history; finalReasoning := None; isRunning := false;
     shouldStop := false; pendingSafetyConfirmation := None;
     highlightMouse := false; env := e |}.

(** The message [stopAgent] sends. *)
Definition stop_message : Event := EvSidepanel (STATUS_UPDATE "idle").

(** The outcomes after which something of the worker still runs: a value
    that satisfies [Q], or an error, which a handler may catch. *)
Definition goes_on {A} (Q : A -> Prop) (o : Outcome A) : Prop :=
  match o with
  | Value a => Q a
  | Throws _ => True
  | Pending | OutOfFuel => False
  end.

(** [m] honours a stop: started after a stop it enters the executor no
    more, nor does it after a stop served while it runs; and when it goes
    on, the stop flag is still set. *)
Definition stops {A} (Q : A -> Prop) (m : M A) : Prop :=
  forall w,
    (shouldStop w = true ->
     Forall not_executor (events m w)
     /\ (goes_on Q (outcome m w) -> shouldStop (after m w) = true))
    /\ (forall pre post,
           events m w = pre ++ stop_message :: post ->
           Forall not_executor post
           /\ (goes_on Q (outcome m w) -> shouldStop (after m w) = true)).

Definition always {A} (a : A) : Prop := True.
Definition never {A} (a : A) : Prop := False.

(** The model asks for a navigation and a click; STOP_AGENT arrives while
    the navigation is under way. *)
Definition stopped_midway : World :=
  at_rest task
    {| env_generate := [ reply [ callPart "navigate" [ ("url", JStr "weather.com") ];
                                 callPart "click_at" [ ("x", JNum 500); ("y", JNum 300) ] ]
                               "STOP" ];
       env_fetch := []; env_safety := [];
       env_tabs := [ Some someTab; Some someTab ];
       env_send := [ SendDelivered somePage; SendDelivered somePage ];
       env_inject := [];
       env_capture := [ inr "iVBORw0KGgo"; inr "iVBORw0KGgo" ];
       env_stop := [ false; false; true ] |}.

(** No run of [m] ends with an error thrown. *)
Definition never_throws {A} (m : M A) : Prop :=
  forall w e, outcome m w <> Throws e.

(** No tab is active, now or later. *)
Definition no_active_tab (w : World) : Prop :=
  Forall (fun t => t = None) (env_tabs (env w)).

End Observations.

(* ===================================================================== *)
(** * Part II: the properties                                             *)
(* ===================================================================== *)

(** ** Screenshot pruning *)

Section Pruning.
Import BrowserAgent.

Lemma screenshot_part_strip (p : Part) : screenshot_part (strip_part p) = false.
Proof.
  unfold strip_part.
  destruct (functionResponse p) as [fr|] eqn:Hfr.
  - destruct (screenshot_part p) eqn:Hp.
    + reflexivity.
    + exact Hp.
  - unfold screenshot_part. now rewrite Hfr.
Qed.

Lemma hasScreenshot_strip (c : Content) : hasScreenshot (strip_content c) = false.
Proof.
  unfold hasScreenshot, strip_content; simpl.
  destruct (parts c) as [ps|]; [|apply andb_false_r].
  assert (H : existsb screenshot_part (map strip_part ps) = false).
  { induction ps as [|p ps IH]; simpl; [reflexivity|].
    now rewrite screenshot_part_strip, IH. }
  rewrite H. apply andb_false_r.
Qed.

Lemma length_cleanup_from (k : nat) (l : list Content) :
  length (cleanup_from k l) = length l.
Proof.
  revert k. induction l as [|c l IH]; intros k; simpl; [reflexivity|].
  destruct (hasScreenshot c); simpl; now rewrite IH.
Qed.

(** The walk, cut at any turn: the turns before the cut are handled as if
    alone, the turn at the cut sees the count reached so far. *)
Lemma cleanup_from_app (k : nat) (l1 : list Content) (c : Content) (l2 : list Content) :
  cleanup_from k (l1 ++ c :: l2) =
    cleanup_from k l1
    ++ pruned_turn (k + screenshot_turns l1) c
    :: cleanup_from (k + screenshot_turns l1 + (if hasScreenshot c then 1 else 0)) l2.
Proof.
  revert k. induction l1 as [|a l1 IH]; intros k; simpl.
  - unfold screenshot_turns, pruned_turn; simpl. rewrite !Nat.add_0_r.
    destruct (hasScreenshot c) eqn:Hc; simpl.
    + replace (k + 1)%nat with (S k) by lia.
      destruct k as [|[|[|k]]]; reflexivity.
    + now rewrite Nat.add_0_r.
  - unfold screenshot_turns in *; simpl.
    destruct (hasScreenshot a) eqn:Ha; simpl; rewrite IH; do 3 f_equal; try lia.
    all: f_equal; lia.
Qed.

Lemma cleanup_from_saturated (k : nat) (l : list Content) :
  (MAX_RECENT_TURN_WITH_SCREENSHOTS <= k)%nat ->
  cleanup_from k l = map (fun c => if hasScreenshot c then strip_content c else c) l.
Proof.
  revert k. induction l as [|c l IH]; intros k Hk; simpl; [reflexivity|].
  destruct (hasScreenshot c).
  - rewrite IH by lia.
    destruct (Nat.ltb_spec MAX_RECENT_TURN_WITH_SCREENSHOTS (S k)); [reflexivity|lia].
  - now rewrite IH.
Qed.

Lemma cleanup_from_nothing (k : nat) (l : list Content) :
  Forall (fun c => hasScreenshot c = false) l -> cleanup_from k l = l.
Proof.
  intros H; revert k; induction H as [|c l Hc _ IH]; intros k; simpl; [reflexivity|].
  now rewrite Hc, IH.
Qed.

Lemma cleanup_from_idem (k : nat) (l : list Content) :
  cleanup_from k (cleanup_from k l) = cleanup_from k l.
Proof.
  revert k. induction l as [|c l IH]; intros k; simpl; [reflexivity|].
  destruct (hasScreenshot c) eqn:Hc.
  - destruct (Nat.ltb_spec MAX_RECENT_TURN_WITH_SCREENSHOTS (S k)) as [Hlt|Hge]; simpl.
    + rewrite hasScreenshot_strip. f_equal.
      rewrite (cleanup_from_saturated (S k)) by lia.
      apply cleanup_from_nothing.
      clear. induction l as [|y l IHl]; simpl; constructor; [|exact IHl].
      destruct (hasScreenshot y) eqn:Hy; [apply hasScreenshot_strip|exact Hy].
    + rewrite Hc.
      destruct (Nat.ltb_spec MAX_RECENT_TURN_WITH_SCREENSHOTS (S k)); [lia|].
      now rewrite IH.
  - simpl. rewrite Hc. now rewrite IH.
Qed.

Lemma screenshot_turns_reverse (l : list Content) :
  screenshot_turns (reverse l) = screenshot_turns l.
Proof.
  unfold screenshot_turns. induction l as [|c l IH]; [reflexivity|].
  rewrite reverse_cons, List.filter_app, length_app, IH; simpl.
  destruct (hasScreenshot c); simpl; lia.
Qed.

(** Pruning, cut at any turn of the history (oldest first). *)
Lemma cleanup_split (older : list Content) (c : Content) (newer : list Content) :
  exists older',
    _cleanupOldScreenshots (older ++ c :: newer) =
      older' ++ pruned_turn (screenshot_turns newer) c :: _cleanupOldScreenshots newer
    /\ length older' = length older.
Proof.
  unfold _cleanupOldScreenshots.
  rewrite reverse_app, reverse_cons, <- app_assoc; simpl.
  rewrite cleanup_from_app; simpl. rewrite screenshot_turns_reverse.
  rewrite reverse_app, reverse_cons, <- app_assoc; simpl.
  eexists; split; [reflexivity|].
  now rewrite length_reverse, length_cleanup_from, length_reverse.
Qed.

End Pruning.

Section PruningClaims.
Import BrowserAgent.

Lemma filter_reverse_bool (f : Content -> bool) (l : list Content) :
  List.filter f (reverse l) = reverse (List.filter f l).
Proof.
  induction l as [|c l IH]; [reflexivity|].
  rewrite reverse_cons, List.filter_app, IH; simpl.
  destruct (f c); [now rewrite reverse_cons | now rewrite app_nil_r].
Qed.

Lemma filter_cleanup_from (k : nat) (l : list Content) :
  List.filter hasScreenshot (cleanup_from k l) =
    take (MAX_RECENT_TURN_WITH_SCREENSHOTS - k) (List.filter hasScreenshot l).
Proof.
  revert k. induction l as [|c l IH]; intros k; simpl.
  - now rewrite take_nil.
  - destruct (hasScreenshot c) eqn:Hc; simpl.
    + destruct (Nat.ltb_spec MAX_RECENT_TURN_WITH_SCREENSHOTS (S k)) as [Hlt|Hge]; simpl.
      * rewrite hasScreenshot_strip, IH.
        replace (MAX_RECENT_TURN_WITH_SCREENSHOTS - k)%nat with 0%nat by lia.
        replace (MAX_RECENT_TURN_WITH_SCREENSHOTS - S k)%nat with 0%nat by lia.
        reflexivity.
      * rewrite Hc, IH.
        replace (MAX_RECENT_TURN_WITH_SCREENSHOTS - k)%nat
          with (S (MAX_RECENT_TURN_WITH_SCREENSHOTS - S k)) by lia.
        reflexivity.
    + rewrite Hc. apply IH.
Qed.

Lemma cleanup_lookup (contents : list Content) (i : nat) (c : Content) :
  contents !! i = Some c ->
  _cleanupOldScreenshots contents !! i =
    Some (pruned_turn (screenshot_turns (drop (S i) contents)) c).
Proof.
  intros Hi.
  rewrite <- (take_drop_middle contents i c Hi) at 1.
  destruct (cleanup_split (take i contents) c (drop (S i) contents))
    as (older' & -> & Hlen).
  apply list_lookup_middle.
  rewrite Hlen, length_take. apply lookup_lt_Some in Hi. lia.
Qed.


(** C6.  Pruning twice in a row is pruning once. *)
Theorem C6_pruning_idempotent (contents : list Content) :
  _cleanupOldScreenshots (_cleanupOldScreenshots contents) =
    _cleanupOldScreenshots contents.
Proof.
  unfold _cleanupOldScreenshots.
  now rewrite reverse_involutive, cleanup_from_idem.
Qed.


End PruningClaims.

(** ** The coordinate mapper *)

Section CoordinateClaims.
Import Coordinates.
Local Open Scope Z_scope.

Lemma normalizeX_div (p e : Z) :
  0 < e -> normalizeX (inject_Z p) (inject_Z e) = (2000 * p + e) / (2 * e).
Proof.
  intros He. destruct e as [|e|e]; try lia.
  unfold normalizeX, NORMALIZED_MAX, Math_round, Qfloor, Qplus, Qdiv, Qmult,
    Qinv, inject_Z; simpl.
  f_equal; lia.
Qed.

Lemma denormalizeX_div (v e : Z) :
  denormalizeX (inject_Z v) (inject_Z e) = (2 * (v * e) + 1000) / 2000.
Proof.
  unfold denormalizeX, NORMALIZED_MAX, Math_round, Qfloor, Qplus, Qdiv, Qmult,
    Qinv, inject_Z; simpl.
  f_equal; lia.
Qed.

Lemma roundtripY_X (p e : Z) : roundtripY p e = roundtripX p e.
Proof. reflexivity. Qed.

(** The two roundings, as inequalities between integers. *)
Lemma roundtrip_inequalities (p e : Z) :
  0 < e ->
  exists n : Z,
    2 * (n * e) <= 2000 * p + e < 2 * (n * e) + 2 * e
    /\ 2000 * roundtripX p e <= 2 * (n * e) + 1000 < 2000 * roundtripX p e + 2000.
Proof.
  intros He. unfold roundtripX.
  rewrite normalizeX_div by lia. rewrite denormalizeX_div.
  set (n := (2000 * p + e) / (2 * e)). exists n. split.
  - subst n.
    pose proof (Z.mul_div_le (2000 * p + e) (2 * e) ltac:(lia)).
    pose proof (Z.mul_succ_div_gt (2000 * p + e) (2 * e) ltac:(lia)). lia.
  - pose proof (Z.mul_div_le (2 * (n * e) + 1000) 2000 ltac:(lia)).
    pose proof (Z.mul_succ_div_gt (2 * (n * e) + 1000) 2000 ltac:(lia)). lia.
Qed.




End CoordinateClaims.

(** ** The [navigate] handler *)

Section NavigateClaims.
Import ContentScript.

Lemma truthy_nonempty (u : string) : u <> "" -> truthy (JStr u) = true.
Proof.
  intros Hu; simpl. destruct (String.eqb_spec u ""); [contradiction|reflexivity].
Qed.

Lemma startsWith_nonempty (u p : string) :
  startsWith u p = true -> p <> "" -> u <> "".
Proof.
  intros H Hp ->. unfold startsWith in H. destruct p; [contradiction|discriminate].
Qed.

(** C10, as the code has it.  A non-empty url without scheme is sent to
    ["https://"] followed by the url, one with a scheme is used as it is;
    either way the answer reports success with [url] (and [navigatedTo])
    the address navigated to.  A missing url, and likewise an empty one,
    is answered [{ success: false, error: 'No URL provided', url }] with
    the page's current address, and nothing is navigated. *)
Theorem C10_navigate_normalizes_url (pg : Page) (args : gmap string JVal) :
  (forall u : string,
      args !! "url" = Some (JStr u) -> u <> "" ->
      startsWith u "http://" = false -> startsWith u "https://" = false ->
      navigate pg args = navigated ("https://" +:+ u)
      /\ obj [ ("success", JBool true); ("navigatedTo", JStr ("https://" +:+ u));
               ("url", JStr ("https://" +:+ u)) ] !! "url"
         = Some (JStr ("https://" +:+ u)))
  /\ (forall u : string,
         args !! "url" = Some (JStr u) ->
         startsWith u "http://" = true \/ startsWith u "https://" = true ->
         navigate pg args = navigated u)
  /\ (args !! "url" = None \/ args !! "url" = Some (JStr "") ->
      navigate pg args = no_url_provided pg).
Proof.
  split; [|split].
  - intros u Hu Hne H1 H2. split; [|reflexivity].
    unfold navigate, navigated. rewrite Hu; simpl default.
    rewrite (truthy_nonempty u Hne); simpl negb. cbv iota.
    now rewrite H1, H2.
  - intros u Hu Hs.
    assert (Hne : u <> "").
    { destruct Hs as [H|H]; apply (startsWith_nonempty _ _ H); discriminate. }
    unfold navigate, navigated. rewrite Hu; simpl default.
    rewrite (truthy_nonempty u Hne); simpl negb. cbv iota.
    destruct Hs as [H|H]; rewrite H; simpl; [reflexivity|].
    now rewrite andb_false_r.
  - intros [H|H]; unfold navigate, no_url_provided; now rewrite H.
Qed.

(** C10 fails for the empty url: it does not start with a scheme, yet
    nothing is navigated and the answer is a failure. *)
Lemma C10_empty_url_is_refused :
  startsWith "" "http://" = false /\ startsWith "" "https://" = false
  /\ navigate somePage (obj [ ("url", JStr "") ]) <> navigated ("https://" +:+ "")
  /\ navigate somePage (obj [ ("url", JStr "") ]) = no_url_provided somePage.
Proof. repeat split; try reflexivity. discriminate. Qed.

Lemma C10_navigate_witness :
  navigate somePage (obj [ ("url", JStr "weather.com") ])
  = navigated "https://weather.com".
Proof.
  destruct (C10_navigate_normalizes_url somePage (obj [ ("url", JStr "weather.com") ]))
    as [Hbare _].
  apply (Hbare "weather.com"); [reflexivity | discriminate | reflexivity | reflexivity].
Defined.

End NavigateClaims.

(** ** Strings *)

Section Strings.

Lemma string_app_assoc (a b c : string) : (a +:+ b) +:+ c = a +:+ (b +:+ c).
Proof.
  induction a as [|x a IH]; [reflexivity|].
  change (String x ((a +:+ b) +:+ c) = String x (a +:+ (b +:+ c))).
  now f_equal.
Qed.

Lemma string_app_nil_l (a : string) : "" +:+ a = a.
Proof. reflexivity. Qed.

Lemma string_app_cons (c : ascii) (a b : string) :
  String c a +:+ b = String c (a +:+ b).
Proof. reflexivity. Qed.

Lemma string_app_nil_r (a : string) : a +:+ "" = a.
Proof.
  induction a as [|x a IH]; [reflexivity|].
  change (String x (a +:+ "") = String x a). now f_equal.
Qed.

End Strings.

(** Push [+:+] through the constructors of its first argument. *)
Ltac string_simpl :=
  repeat (rewrite string_app_nil_l in * || rewrite string_app_cons in *).

(** ** The question heuristic *)

Section QuestionHeuristic.
Import RegExp.

Lemma prefix_app (p s : string) :
  String.prefix p s = true <-> exists rest, s = p +:+ rest.
Proof.
  revert s. induction p as [|a p IH]; intros s.
  - split; [intros _; now exists s|intros _; now destruct s].
  - destruct s as [|b s]; simpl.
    + split; [discriminate|intros [rest H]; discriminate].
    + destruct (ascii_dec a b) as [->|Hne].
      * rewrite IH. split; intros [rest H]; exists rest.
        -- now rewrite H.
        -- now inversion H.
      * split; [discriminate|intros [rest H]; inversion H; congruence].
Qed.

Lemma line_terminator_ahead_spec (s : string) :
  line_terminator_ahead s = true <-> starts_new_line s.
Proof.
  unfold line_terminator_ahead, starts_new_line.
  rewrite !orb_true_iff, !prefix_app. split.
  - intros [[[[r H]|[r H]]|[r H]]|[r H]]; eexists _, r; (split; [|exact H]);
      simpl; auto.
  - intros (nl & r & Hin & H). simpl in Hin.
    destruct Hin as [<-|[<-|[<-|[<-|[]]]]]; eauto.
Qed.

Lemma fold_case_app (a b : string) :
  fold_case (a +:+ b) = fold_case a +:+ fold_case b.
Proof.
  induction a as [|x a IH]; [reflexivity|].
  change (String (canonicalize true x) (fold_case (a +:+ b))
          = String (canonicalize true x) (fold_case a +:+ fold_case b)).
  now f_equal.
Qed.

Lemma fold_case_split (m x y : string) :
  fold_case m = x +:+ y ->
  exists m1 m2, m = m1 +:+ m2 /\ fold_case m1 = x /\ fold_case m2 = y.
Proof.
  revert m. induction x as [|c x IH]; intros m H.
  - exists "", m. auto.
  - destruct m as [|d m]; [discriminate|].
    change (String (canonicalize true d) (fold_case m) = String c (x +:+ y)) in H.
    inversion H as [[Hc Hm]].
    destruct (IH m Hm) as (m1 & m2 & -> & H1 & H2).
    exists (String d m1), m2. repeat split; [|exact H2].
    simpl. now rewrite H1.
Qed.

(** Matching literal characters under flag [i]. *)
Lemma match_chars_fold (literal input rest : string) :
  match_chars true literal input = Some rest
  <-> exists mid, input = mid +:+ rest /\ fold_case mid = fold_case literal.
Proof.
  revert input. induction literal as [|a literal IH]; intros input; simpl.
  - split.
    + intros [= ->]. now exists "".
    + intros (mid & -> & H). destruct mid; [reflexivity|discriminate].
  - destruct input as [|b input].
    + split; [discriminate|].
      intros (mid & H & Hf). destruct mid; [discriminate|].
      destruct rest; discriminate.
    + destruct (Ascii.eqb_spec (canonicalize true a) (canonicalize true b)) as [Hab|Hab].
      * rewrite IH. split.
        -- intros (mid & -> & Hf). exists (String b mid). split; [reflexivity|].
           simpl. now rewrite Hf, Hab.
        -- intros (mid & H & Hf). destruct mid as [|c mid]; [discriminate|].
           inversion H; subst. simpl in Hf. inversion Hf. eauto.
      * split; [discriminate|].
        intros (mid & H & Hf). destruct mid as [|c mid]; [discriminate|].
        inversion H; subst. simpl in Hf. inversion Hf. congruence.
Qed.

(** Matching literal characters without flags. *)
Lemma match_chars_exact (literal input rest : string) :
  match_chars false literal input = Some rest <-> input = literal +:+ rest.
Proof.
  revert input. induction literal as [|a literal IH]; intros input; simpl.
  - split; [now intros [= ->]|now intros ->].
  - destruct input as [|b input]; [split; discriminate|].
    unfold canonicalize; simpl.
    destruct (Ascii.eqb_spec a b) as [->|Hab].
    + rewrite IH. split; [now intros ->|now intros [= ->]].
    + split; [discriminate|]. intros [= ? ?]. congruence.
Qed.

#[local] Arguments match_chars : simpl never.
#[local] Arguments line_terminator_ahead : simpl never.

(** A match anywhere is a match at the start of some suffix. *)
Lemma test_somewhere (re : RegExp) (t : string) :
  test re t = true
  <-> exists before after, t = before +:+ after /\ matches_here re after = true.
Proof.
  induction t as [|c t IH]; simpl.
  - rewrite orb_false_r. split.
    + intros H. now exists "", "".
    + intros (before & after & H & Hm).
      destruct before; string_simpl; [|discriminate H]. now subst.
  - rewrite orb_true_iff, IH. split.
    + intros [H|(before & after & -> & Hm)].
      * exists "", (String c t). split; [reflexivity|exact H].
      * exists (String c before), after. split; [reflexivity|exact Hm].
    + intros (before & after & H & Hm). destruct before as [|d before]; string_simpl.
      * subst. now left.
      * inversion H; subst. right. eauto.
Qed.

Lemma test_literal_i (phrase t : string) :
  test (literal_i phrase) t = true <-> mentions phrase t.
Proof.
  rewrite test_somewhere. unfold mentions, matches_here, literal_i; simpl. split.
  - intros (before & after & -> & Hm).
    destruct (match_chars true phrase after) as [rest|] eqn:E; [|discriminate].
    apply match_chars_fold in E as (mid & -> & Hf). eauto.
  - intros (before & mid & after & -> & Hf).
    exists before, (mid +:+ after). split; [reflexivity|].
    assert (E : match_chars true phrase (mid +:+ after) = Some after)
      by (apply match_chars_fold; eauto).
    now rewrite E.
Qed.

Lemma test_question_mark (t : string) :
  test {| pattern := Seq (Chars "?") EndAssertion;
          ignoreCase := false; multiline := true |} t = true
  <-> line_ends_with_question_mark t.
Proof.
  rewrite test_somewhere. unfold line_ends_with_question_mark, matches_here; simpl.
  split.
  - intros (before & after & -> & Hm).
    destruct (match_chars false "?" after) as [rest|] eqn:E; [|discriminate].
    apply match_chars_exact in E as ->. exists before, rest. split; [reflexivity|].
    simpl in Hm. destruct rest as [|c rest]; [now left|right].
    apply line_terminator_ahead_spec.
    destruct (line_terminator_ahead (String c rest)); [reflexivity|discriminate].
  - intros (before & after & -> & Hend). exists before, ("?" +:+ after).
    split; [reflexivity|].
    assert (E : match_chars false "?" ("?" +:+ after) = Some after)
      by now apply match_chars_exact.
    rewrite E; simpl. destruct Hend as [->|Hnl]; [reflexivity|].
    apply line_terminator_ahead_spec in Hnl.
    destruct after; [reflexivity|]. now rewrite Hnl.
Qed.

Lemma mentions_two_parts (p q t : string) :
  mentions (p +:+ q) t
  <-> exists before m1 m2 after,
        t = before +:+ m1 +:+ m2 +:+ after
        /\ fold_case m1 = fold_case p /\ fold_case m2 = fold_case q.
Proof.
  unfold mentions. split.
  - intros (before & mid & after & -> & Hf). rewrite fold_case_app in Hf.
    apply fold_case_split in Hf as (m1 & m2 & -> & H1 & H2).
    exists before, m1, m2, after. now rewrite string_app_assoc.
  - intros (before & m1 & m2 & after & -> & H1 & H2).
    exists before, (m1 +:+ m2), after.
    now rewrite string_app_assoc, !fold_case_app, H1, H2.
Qed.

Lemma test_can_you (t : string) :
  test {| pattern := Seq (Chars "can you ")
                         (Alt (Chars "tell") (Alt (Chars "provide") (Chars "specify")));
          ignoreCase := true; multiline := false |} t = true
  <-> mentions "can you tell" t \/ mentions "can you provide" t
      \/ mentions "can you specify" t.
Proof.
  change "can you tell" with ("can you " +:+ "tell").
  change "can you provide" with ("can you " +:+ "provide").
  change "can you specify" with ("can you " +:+ "specify").
  rewrite !mentions_two_parts, test_somewhere. unfold matches_here; simpl. split.
  - intros (before & after & -> & Hm).
    destruct (match_chars true "can you " after) as [rest|] eqn:E; [|discriminate].
    apply match_chars_fold in E as (m1 & -> & H1). simpl in Hm.
    rewrite app_nil_r in Hm.
    destruct (match_chars true "tell" rest) as [r|] eqn:E1.
    { apply match_chars_fold in E1 as (m2 & -> & H2). left.
      now exists before, m1, m2, r. }
    destruct (match_chars true "provide" rest) as [r|] eqn:E2.
    { apply match_chars_fold in E2 as (m2 & -> & H2). right; left.
      now exists before, m1, m2, r. }
    destruct (match_chars true "specify" rest) as [r|] eqn:E3; [|discriminate].
    apply match_chars_fold in E3 as (m2 & -> & H2). right; right.
    now exists before, m1, m2, r.
  - intros H.
    assert (Hpick : exists before m1 m2 after q,
               t = before +:+ m1 +:+ m2 +:+ after
               /\ fold_case m1 = fold_case "can you "
               /\ fold_case m2 = fold_case q
               /\ In q ["tell"; "provide"; "specify"]).
    { destruct H as [H|[H|H]]; destruct H as (b & m1 & m2 & a & Ht & H1 & H2);
        [ exists b, m1, m2, a, "tell"
        | exists b, m1, m2, a, "provide"
        | exists b, m1, m2, a, "specify" ];
        (split; [exact Ht|]); (split; [exact H1|]); (split; [exact H2|]);
        simpl; auto. }
    destruct Hpick as (before & m1 & m2 & after & q & -> & H1 & H2 & Hq).
    exists before, (m1 +:+ m2 +:+ after). split; [reflexivity|].
    assert (E : match_chars true "can you " (m1 +:+ m2 +:+ after) = Some (m2 +:+ after))
      by (apply match_chars_fold; eauto).
    rewrite E; simpl. rewrite app_nil_r.
    assert (Eq : match_chars true q (m2 +:+ after) = Some after)
      by (apply match_chars_fold; eauto).
    simpl in Hq. destruct Hq as [<-|[<-|[<-|[]]]]; rewrite Eq.
    + reflexivity.
    + now destruct (match_chars true "tell" (m2 +:+ after)).
    + destruct (match_chars true "tell" (m2 +:+ after));
        now destruct (match_chars true "provide" (m2 +:+ after)).
Qed.

(** The code's test is the heuristic in words. *)
Lemma isWaitingForInput_spec (text : option string) :
  Agent.isWaitingForInput text = true
  <-> exists t, text = Some t /\ question_heuristic t.
Proof.
  unfold Agent.isWaitingForInput. destruct text as [t|].
  2:{ split; [discriminate|]. intros (t & H & _). discriminate. }
  assert (Hall : existsb (fun p => test p t) questionIndicators = true
                 <-> question_heuristic t).
  { unfold questionIndicators, question_heuristic. cbn [existsb].
    rewrite orb_false_r, !orb_true_iff, test_question_mark, !test_literal_i,
      test_can_you. tauto. }
  destruct (String.eqb_spec t "") as [->|Hne].
  - split; [discriminate|].
    intros (t & [= <-] & H). apply Hall in H. discriminate H.
  - rewrite Hall. split; [eauto|]. now intros (t' & [= <-] & H).
Qed.

End QuestionHeuristic.

(** ** Reasoning about runs *)

Section Runs.
Import Runtime.
Local Open Scope js_scope.

Lemma run_eta {A} (m : M A) (w : World) :
  m w = (outcome m w, after m w, events m w).
Proof. unfold outcome, after, events. now destruct (m w) as [[? ?] ?]. Qed.

Lemma bind_value {A B} (m : M A) (f : A -> M B) w a w1 e1 :
  m w = (Value a, w1, e1) ->
  bind m f w = (outcome (f a) w1, after (f a) w1, e1 ++ events (f a) w1).
Proof.
  intros H. unfold bind. rewrite H, (run_eta (f a) w1). reflexivity.
Qed.

Lemma bind_stuck {A B} (m : M A) (f : A -> M B) w :
  (forall a, outcome m w <> Value a) ->
  events (bind m f) w = events m w
  /\ after (bind m f) w = after m w
  /\ (forall b, outcome (bind m f) w <> Value b).
Proof.
  unfold outcome, after, events, bind.
  destruct (m w) as [[[a| | |] w1] e1]; simpl; intros H.
  - now destruct (H a).
  - repeat split; discriminate.
  - repeat split; discriminate.
  - repeat split; discriminate.
Qed.

(** *** Events *)

Lemma only_ret {A} K (a : A) : only K (ret a).
Proof. intros w; constructor. Qed.

Lemma only_bind {A B} K (m : M A) (f : A -> M B) :
  only K m -> (forall a, only K (f a)) -> only K (bind m f).
Proof.
  intros Hm Hf w. specialize (Hm w). unfold events, bind in *.
  destruct (m w) as [[[a| | |] w1] e1]; simpl in *; try assumption.
  specialize (Hf a w1). unfold events in Hf.
  destruct (f a w1) as [[o w2] e2]; simpl in *.
  apply Forall_app; split; assumption.
Qed.

Lemma only_emit K ev : K ev -> only K (emit ev).
Proof. intros H w; repeat constructor; exact H. Qed.

Lemma only_get K : only K get.
Proof. intros w; constructor. Qed.

Lemma only_modify K f : only K (modify f).
Proof. intros w; constructor. Qed.

Lemma only_throw {A} K e : only K (@throw A e).
Proof. intros w; constructor. Qed.

Lemma only_pending {A} K : only K (@pending A).
Proof. intros w; constructor. Qed.

Lemma only_out_of_fuel {A} K : only K (@out_of_fuel A).
Proof. intros w; constructor. Qed.

Lemma only_ask {A} K (answers : Env -> list A) rest : only K (ask answers rest).
Proof. intros w; unfold events, ask. destruct (answers (env w)); constructor. Qed.

Lemma only_try_catch {A} K (m : M A) handler :
  only K m -> (forall e, only K (handler e)) -> only K (try_catch m handler).
Proof.
  intros Hm Hh w. specialize (Hm w). unfold events, try_catch in *.
  destruct (m w) as [[[a|e| |] w1] e1]; simpl in *; try assumption.
  specialize (Hh e w1). unfold events in Hh.
  destruct (handler e w1) as [[o w2] e2]; simpl in *.
  apply Forall_app; split; assumption.
Qed.

Lemma only_try_finally {A} K (m : M A) cleanup :
  only K m -> only K cleanup -> only K (try_finally m cleanup).
Proof.
  intros Hm Hc w. specialize (Hm w). unfold events, try_finally in *.
  destruct (m w) as [[[a|e| |] w1] e1]; simpl in *; try assumption.
  all: specialize (Hc w1); unfold events in Hc;
    destruct (cleanup w1) as [[[[]|e'| |] w2] e2]; simpl in *;
    apply Forall_app; split; assumption.
Qed.

(** *** The world *)

Lemma preserves_ret {A X} (f : World -> X) (a : A) : preserves f (ret a).
Proof. intros w; reflexivity. Qed.

Lemma preserves_bind {A B X} (f : World -> X) (m : M A) (k : A -> M B) :
  preserves f m -> (forall a, preserves f (k a)) -> preserves f (bind m k).
Proof.
  intros Hm Hk w. specialize (Hm w). unfold after, bind in *.
  destruct (m w) as [[[a| | |] w1] e1]; simpl in *; try assumption.
  specialize (Hk a w1). unfold after in Hk.
  destruct (k a w1) as [[o w2] e2]; simpl in *. congruence.
Qed.

Lemma preserves_emit {X} (f : World -> X) ev : preserves f (emit ev).
Proof. intros w; reflexivity. Qed.

Lemma preserves_get {X} (f : World -> X) : preserves f get.
Proof. intros w; reflexivity. Qed.

Lemma preserves_throw {A X} (f : World -> X) e : preserves f (@throw A e).
Proof. intros w; reflexivity. Qed.

Lemma preserves_pending {A X} (f : World -> X) : preserves f (@pending A).
Proof. intros w; reflexivity. Qed.

Lemma preserves_out_of_fuel {A X} (f : World -> X) : preserves f (@out_of_fuel A).
Proof. intros w; reflexivity. Qed.

Lemma preserves_modify {X} (f : World -> X) g :
  (forall w, f (g w) = f w) -> preserves f (modify g).
Proof. intros H w; apply H. Qed.

Lemma preserves_ask {A X} (f : World -> X) (answers : Env -> list A) rest :
  (forall l w, f (set_env (rest l (env w)) w) = f w) -> preserves f (ask answers rest).
Proof.
  intros H w; unfold after, ask. destruct (answers (env w)); simpl; [reflexivity|apply H].
Qed.

Lemma preserves_try_catch {A X} (f : World -> X) (m : M A) handler :
  preserves f m -> (forall e, preserves f (handler e)) ->
  preserves f (try_catch m handler).
Proof.
  intros Hm Hh w. specialize (Hm w). unfold after, try_catch in *.
  destruct (m w) as [[[a|e| |] w1] e1]; simpl in *; try assumption.
  specialize (Hh e w1). unfold after in Hh.
  destruct (handler e w1) as [[o w2] e2]; simpl in *. congruence.
Qed.

End Runs.

(** Decompose a goal [only K m] or [preserves f m] along the program. *)
Ltac run_step :=
  match goal with
  | |- only _ (Runtime.bind _ _) => apply only_bind; [|intros]
  | |- only _ (Runtime.ret _) => apply only_ret
  | |- only _ (Runtime.emit _) => apply only_emit
  | |- only _ Runtime.get => apply only_get
  | |- only _ (Runtime.modify _) => apply only_modify
  | |- only _ (Runtime.throw _) => apply only_throw
  | |- only _ Runtime.pending => apply only_pending
  | |- only _ Runtime.out_of_fuel => apply only_out_of_fuel
  | |- only _ (Runtime.ask _ _) => apply only_ask
  | |- only _ (Runtime.try_catch _ _) => apply only_try_catch; [|intros]
  | |- only _ (Runtime.try_finally _ _) => apply only_try_finally
  | |- preserves _ (Runtime.bind _ _) => apply preserves_bind; [|intros]
  | |- preserves _ (Runtime.ret _) => apply preserves_ret
  | |- preserves _ (Runtime.emit _) => apply preserves_emit
  | |- preserves _ Runtime.get => apply preserves_get
  | |- preserves _ (Runtime.modify _) => apply preserves_modify; intros; reflexivity
  | |- preserves _ (Runtime.throw _) => apply preserves_throw
  | |- preserves _ Runtime.pending => apply preserves_pending
  | |- preserves _ Runtime.out_of_fuel => apply preserves_out_of_fuel
  | |- preserves _ (Runtime.ask _ _) => apply preserves_ask; intros; reflexivity
  | |- preserves _ (Runtime.try_catch _ _) => apply preserves_try_catch; [|intros]
  | |- only _ (match ?x with _ => _ end) => destruct x
  | |- preserves _ (match ?x with _ => _ end) => destruct x
  | |- only _ (let '(_, _) := ?x in _) => destruct x
  | |- preserves _ (let '(_, _) := ?x in _) => destruct x
  end.

Ltac run_steps := repeat run_step.

(** ** What the primitives of the runtime emit and touch *)

Section Primitives.
Import Runtime.
Local Open Scope js_scope.

Lemma only_weaken {A} (K K' : Event -> Prop) (m : M A) :
  (forall ev, K ev -> K' ev) -> only K m -> only K' m.
Proof. intros HK Hm w. eapply Forall_impl; [apply Hm|exact HK]. Qed.

Lemma plain_not_executor ev : plain ev -> not_executor ev.
Proof. destruct ev; simpl; auto. Qed.

Lemma plain_not_safety_response ev : plain ev -> not_safety_response ev.
Proof. destruct ev; simpl; auto. Qed.

Lemma bind_get {A} (k : World -> M A) w : bind get k w = k w w.
Proof. unfold bind, get. now destruct (k w w) as [[? ?] ?]. Qed.

Lemma bind_ret {A B} (a : A) (k : A -> M B) w : bind (ret a) k w = k a w.
Proof. unfold bind, ret. now destruct (k a w) as [[? ?] ?]. Qed.

Lemma bind_emit {A} ev (k : unit -> M A) w :
  bind (emit ev) k w = (outcome (k tt) w, after (k tt) w, ev :: events (k tt) w).
Proof. unfold bind, emit. now rewrite (run_eta (k tt) w). Qed.

Lemma bind_modify {A} g (k : unit -> M A) w : bind (modify g) k w = k tt (g w).
Proof. unfold bind, modify. now destruct (k tt (g w)) as [[? ?] ?]. Qed.

Lemma only_page_effects l : only plain (page_effects l).
Proof.
  induction l as [|eff l IH]; simpl; run_steps; try exact I. exact IH.
Qed.

Lemma only_await : only plain await_.
Proof. unfold await_, stopAgent, sendToSidepanel. run_steps; exact I. Qed.

Lemma only_sleep ms : only plain (sleep ms).
Proof. unfold sleep. run_steps; try exact I. apply only_await. Qed.

Lemma only_tabs_query : only plain tabs_query.
Proof. unfold tabs_query. run_steps. apply only_await. Qed.

Lemma only_tabs_sendMessage action args h : only plain (tabs_sendMessage action args h).
Proof.
  unfold tabs_sendMessage. run_steps; try exact I;
    try apply only_await; apply only_page_effects.
Qed.

Lemma only_scripting_executeScript : only plain scripting_executeScript.
Proof. unfold scripting_executeScript. run_steps; try exact I; apply only_await. Qed.

Lemma only_captureScreenshot : only plain captureScreenshot.
Proof. unfold captureScreenshot. run_steps; try exact I; apply only_await. Qed.

Lemma only_waitForPageSettle : only plain waitForPageSettle.
Proof. unfold waitForPageSettle. run_steps; try exact I; apply only_await. Qed.

Lemma only_getCurrentUrl : only plain getCurrentUrl.
Proof. unfold getCurrentUrl. run_steps. apply only_tabs_query. Qed.

Lemma only_sendToSidepanel m : only plain (sendToSidepanel m).
Proof. unfold sendToSidepanel. run_steps; exact I. Qed.

Lemma only_generateContent : only plain Agent.generateContent.
Proof. unfold Agent.generateContent. run_steps; try exact I; apply only_await. Qed.

Lemma only_attempts remaining attempt : only plain (Agent.attempts remaining attempt).
Proof.
  revert attempt. induction remaining as [|remaining IH]; intros attempt; simpl.
  - run_steps.
  - run_steps; try exact I; try apply only_generateContent; try apply only_sleep.
    apply IH.
Qed.

Lemma only_getModelResponse : only plain Agent.getModelResponse.
Proof. apply only_attempts. Qed.

Lemma only_trackStep s a : only plain (ServiceWorker.trackStep s a).
Proof.
  unfold ServiceWorker.trackStep. run_steps; try exact I;
    try apply only_await; apply only_sendToSidepanel.
Qed.

Lemma only_fetch : only plain Legacy.fetch.
Proof. unfold Legacy.fetch. run_steps; try exact I; apply only_await. Qed.

Lemma only_round retries : only plain (Legacy.round retries).
Proof.
  unfold Legacy.round.
  run_steps; try exact I;
    try apply only_fetch; try apply only_sleep; try apply only_await.
Qed.

Lemma only_rounds remaining retries : only plain (Legacy.rounds remaining retries).
Proof.
  revert retries. induction remaining as [|remaining IH]; intros retries; simpl.
  - run_steps.
  - run_steps; [apply only_round|apply IH].
Qed.

Lemma only_callGeminiAPI : only plain Legacy.callGeminiAPI.
Proof. apply only_rounds. Qed.

(** *** The history is only written by the loop itself *)

Lemma keeps_await {X} (f : World -> X) :
  (forall l w, f (set_env (rest_stop l (env w)) w) = f w) ->
  (forall w, f (set_pending None (set_isRunning false (set_shouldStop true w))) = f w) ->
  preserves f await_.
Proof.
  intros H1 H2. unfold await_, stopAgent, sendToSidepanel.
  run_steps. - apply preserves_ask, H1. - apply preserves_modify, H2.
Qed.

Lemma contents_await : preserves contents await_.
Proof. apply keeps_await; reflexivity. Qed.

Lemma contents_sleep ms : preserves contents (sleep ms).
Proof. unfold sleep. run_steps. apply contents_await. Qed.

Lemma contents_tabs_query : preserves contents tabs_query.
Proof. unfold tabs_query. run_steps. apply contents_await. Qed.

Lemma contents_page_effects l : preserves contents (page_effects l).
Proof. induction l as [|eff l IH]; simpl; run_steps. exact IH. Qed.

Lemma contents_tabs_sendMessage action args h :
  preserves contents (tabs_sendMessage action args h).
Proof.
  unfold tabs_sendMessage. run_steps; try apply contents_await.
  apply contents_page_effects.
Qed.

Lemma contents_scripting_executeScript : preserves contents scripting_executeScript.
Proof. unfold scripting_executeScript. run_steps; apply contents_await. Qed.

Lemma contents_captureScreenshot : preserves contents captureScreenshot.
Proof. unfold captureScreenshot. run_steps; apply contents_await. Qed.

Lemma contents_waitForPageSettle : preserves contents waitForPageSettle.
Proof. unfold waitForPageSettle. run_steps; apply contents_await. Qed.

Lemma contents_getCurrentUrl : preserves contents getCurrentUrl.
Proof. unfold getCurrentUrl. run_steps. apply contents_tabs_query. Qed.

Lemma contents_requestSafetyConfirmation fc e :
  preserves contents (requestSafetyConfirmation fc e).
Proof.
  unfold requestSafetyConfirmation, sendToSidepanel. run_steps.
  apply contents_await.
Qed.

Lemma contents_generateContent : preserves contents Agent.generateContent.
Proof. unfold Agent.generateContent. run_steps; apply contents_await. Qed.

Lemma contents_attempts remaining attempt :
  preserves contents (Agent.attempts remaining attempt).
Proof.
  revert attempt. induction remaining as [|remaining IH]; intros attempt; simpl.
  - run_steps.
  - run_steps; try apply contents_generateContent; try apply contents_sleep.
    apply IH.
Qed.

Lemma contents_getModelResponse : preserves contents Agent.getModelResponse.
Proof. apply contents_attempts. Qed.

Lemma contents_trackStep s a : preserves contents (ServiceWorker.trackStep s a).
Proof.
  unfold ServiceWorker.trackStep, sendToSidepanel. run_steps. apply contents_await.
Qed.

End Primitives.

(** ** The retrying model call *)

Section Gateway.
Import Runtime Agent.
Local Open Scope js_scope.

Lemma try_catch_value {A} (m : M A) handler w a :
  outcome m w = Value a ->
  try_catch m handler w = (Value a, after m w, events m w).
Proof. intros H. unfold try_catch. rewrite (run_eta m w), H. reflexivity. Qed.

Lemma try_catch_throws {A} (m : M A) handler w e :
  outcome m w = Throws e ->
  try_catch m handler w =
    (outcome (handler e) (after m w), after (handler e) (after m w),
     events m w ++ events (handler e) (after m w)).
Proof.
  intros H. unfold try_catch. rewrite (run_eta m w), H.
  now rewrite (run_eta (handler e) (after m w)).
Qed.

Lemma bind_run {A B} (m : M A) (f : A -> M B) w :
  bind m f w =
    match outcome m w with
    | Value a => (outcome (f a) (after m w), after (f a) (after m w),
                  events m w ++ events (f a) (after m w))
    | Throws e => (Throws e, after m w, events m w)
    | Pending => (Pending, after m w, events m w)
    | OutOfFuel => (OutOfFuel, after m w, events m w)
    end.
Proof.
  unfold bind. rewrite (run_eta m w).
  destruct (outcome m w); try reflexivity.
  now rewrite (run_eta (f a) (after m w)).
Qed.

Lemma await_resumes w : exists b, outcome await_ w = Value b.
Proof.
  unfold outcome, await_, stopAgent, sendToSidepanel, bind, ask, modify, emit, ret.
  destruct (env_stop (env w)) as [|[|] l]; simpl; eauto.
Qed.

Lemma await_stop_status : only stop_status await_.
Proof.
  unfold await_, stopAgent, sendToSidepanel. run_steps. reflexivity.
Qed.

Lemma await_generate : preserves (fun w => env_generate (env w)) await_.
Proof. apply keeps_await; reflexivity. Qed.

Lemma no_sleeps evs : Forall stop_status evs -> sleeps evs = [].
Proof. induction 1 as [|ev evs -> _ IH]; [reflexivity|exact IH]. Qed.

Lemma no_model_calls evs : Forall stop_status evs -> model_calls evs = [].
Proof. induction 1 as [|ev evs -> _ IH]; [reflexivity|exact IH]. Qed.

Lemma no_errors_shown evs : Forall stop_status evs -> errors_shown evs = [].
Proof. induction 1 as [|ev evs -> _ IH]; [reflexivity|exact IH]. Qed.

(** One call of the model: what it yields, shows and leaves. *)
Lemma generateContent_run w :
  exists w1 bg,
    generateContent w =
      (match default (inl (Error "Failed to fetch")) (head (env_generate (env w))) with
       | inl e => Throws e
       | inr response => Value response
       end, w1, EvGenerateContent (contents w) :: bg)
    /\ Forall stop_status bg
    /\ env_generate (env w1) = tail (env_generate (env w))
    /\ contents w1 = contents w.
Proof.
  unfold generateContent. rewrite bind_get, bind_emit.
  unfold outcome, after, events. rewrite bind_run.
  set (w0 := after (ask env_generate rest_generate) w).
  assert (Hw0 : env_generate (env w0) = tail (env_generate (env w))
                /\ contents w0 = contents w
                /\ outcome (ask env_generate rest_generate) w
                   = Value (head (env_generate (env w)))
                /\ events (ask env_generate rest_generate) w = []).
  { subst w0. unfold after, outcome, events, ask.
    destruct (env_generate (env w)) eqn:E; simpl; rewrite ?E; auto. }
  destruct Hw0 as (Hgen & Hcont & -> & ->).
  unfold outcome, after, events. rewrite bind_run.
  destruct (await_resumes w0) as [b ->].
  pose proof (await_stop_status w0) as Hbg.
  pose proof (await_generate w0) as Hg. pose proof (contents_await w0) as Hc.
  simpl in Hg.
  destruct (default (inl (Error "Failed to fetch")) (head (env_generate (env w))))
    as [e|r]; simpl; do 2 eexists; (split; [reflexivity|]); rewrite app_nil_r;
    repeat split; try exact Hbg;
    subst w0; unfold after, throw, ret in *; simpl in *; congruence.
Qed.

Lemma sleep_run ms w :
  exists w1 bg,
    sleep ms w = (Value tt, w1, EvSleep ms :: bg)
    /\ Forall stop_status bg
    /\ env_generate (env w1) = env_generate (env w)
    /\ contents w1 = contents w.
Proof.
  unfold sleep. rewrite bind_emit.
  unfold outcome, after, events. rewrite bind_run.
  destruct (await_resumes w) as [b ->]; simpl.
  do 2 eexists; split; [reflexivity|]. rewrite app_nil_r.
  repeat split; [apply await_stop_status|apply await_generate|apply contents_await].
Qed.

(** Steps of a run, composed. *)
Lemma bind_value_run {A B} (m : M A) (f : A -> M B) w a w1 e1 o w2 e2 :
  m w = (Value a, w1, e1) -> f a w1 = (o, w2, e2) ->
  bind m f w = (o, w2, e1 ++ e2).
Proof. intros H1 H2. unfold bind. now rewrite H1, H2. Qed.

Lemma bind_then_ret {A B} (m : M A) (g : A -> B) w a w1 e1 :
  m w = (Value a, w1, e1) ->
  bind m (fun x => ret (g x)) w = (Value (g a), w1, e1).
Proof. intros H. unfold bind, ret. rewrite H. now rewrite app_nil_r. Qed.

Lemma bind_throws_run {A B} (m : M A) (f : A -> M B) w e w1 e1 :
  m w = (Throws e, w1, e1) -> bind m f w = (Throws e, w1, e1).
Proof. intros H1. unfold bind. now rewrite H1. Qed.

Lemma bind_pending_run {A B} (m : M A) (f : A -> M B) w w1 e1 :
  m w = (Pending, w1, e1) -> bind m f w = (Pending, w1, e1).
Proof. intros H1. unfold bind. now rewrite H1. Qed.

Lemma bind_emit_run {A} ev (k : unit -> M A) w o w2 e2 :
  k tt w = (o, w2, e2) -> bind (emit ev) k w = (o, w2, ev :: e2).
Proof. intros H. unfold bind, emit. now rewrite H. Qed.

Lemma try_catch_value_run {A} (m : M A) handler w a w1 e1 :
  m w = (Value a, w1, e1) -> try_catch m handler w = (Value a, w1, e1).
Proof. intros H. unfold try_catch. now rewrite H. Qed.

Lemma try_catch_throws_run {A} (m : M A) handler w e w1 e1 o w2 e2 :
  m w = (Throws e, w1, e1) -> handler e w1 = (o, w2, e2) ->
  try_catch m handler w = (o, w2, e1 ++ e2).
Proof. intros H1 H2. unfold try_catch. now rewrite H1, H2. Qed.

Lemma sleeps_app a b : sleeps (a ++ b) = sleeps a ++ sleeps b.
Proof. apply omap_app. Qed.

Lemma model_calls_app a b : model_calls (a ++ b) = model_calls a ++ model_calls b.
Proof. apply omap_app. Qed.

Lemma errors_shown_app a b : errors_shown (a ++ b) = errors_shown a ++ errors_shown b.
Proof. apply omap_app. Qed.

(** Failures, then an answer, before the attempts run out. *)
Lemma attempts_succeed errs :
  forall attempt remaining w response rest,
    env_generate (env w) = map inl errs ++ inr response :: rest ->
    (length errs < remaining)%nat -> (attempt + remaining = maxRetries)%nat ->
    exists w' evs,
      attempts remaining attempt w = (Value (Some response), w', evs)
      /\ sleeps evs = map delay (seq attempt (length errs))
      /\ model_calls evs = repeat (contents w) (S (length errs))
      /\ errors_shown evs = []
      /\ env_generate (env w') = rest
      /\ contents w' = contents w.
Proof.
  induction errs as [|e errs IH]; intros attempt remaining w response rest Henv Hlen Hsum.
  - destruct remaining as [|remaining]; [simpl in Hlen; lia|]. cbn [attempts].
    destruct (generateContent_run w) as (w1 & bg & Hrun & Hbg & Hgen & Hcont).
    rewrite Henv in Hrun, Hgen; simpl in Hrun, Hgen.
    eexists _, _. split.
    { eapply try_catch_value_run, bind_value_run; [exact Hrun|reflexivity]. }
    rewrite app_nil_r; simpl.
    rewrite (no_sleeps _ Hbg), (no_model_calls _ Hbg), (no_errors_shown _ Hbg).
    repeat split; assumption.
  - destruct remaining as [|remaining]; [simpl in Hlen; lia|]. cbn [attempts].
    destruct (generateContent_run w) as (w1 & bg & Hrun & Hbg & Hgen & Hcont).
    rewrite Henv in Hrun, Hgen; simpl in Hrun, Hgen.
    destruct (sleep_run (baseDelayMs * 2 ^ Z.of_nat attempt) w1)
      as (w2 & bg2 & Hsl & Hbg2 & Hgen2 & Hcont2).
    destruct (IH (S attempt) remaining w2 response rest)
      as (w3 & e3 & Hrun3 & Hs & Hm & He & Hg & Hc).
    { congruence. } { simpl in Hlen; lia. } { lia. }
    assert (Hnot_last : (attempt =? maxRetries - 1)%nat = false).
    { apply Nat.eqb_neq. simpl in Hlen. unfold maxRetries in *. lia. }
    eexists _, _. split.
    { eapply try_catch_throws_run.
      - eapply bind_throws_run; exact Hrun.
      - eapply bind_emit_run. rewrite Hnot_last.
        eapply bind_value_run; [exact Hsl|exact Hrun3]. }
    rewrite !sleeps_app, !model_calls_app, !errors_shown_app; simpl.
    rewrite !sleeps_app, !model_calls_app, !errors_shown_app; simpl.
    rewrite (no_sleeps _ Hbg), (no_model_calls _ Hbg), (no_errors_shown _ Hbg),
      (no_sleeps _ Hbg2), (no_model_calls _ Hbg2), (no_errors_shown _ Hbg2); simpl.
    rewrite Hs, Hm, He.
    assert (Hw2 : contents w2 = contents w) by congruence.
    rewrite Hw2. repeat split; auto; congruence.
Qed.

(** Failures only: the last one is rethrown, dressed up, with no delay
    after it. *)
Lemma attempts_exhausted errs :
  forall attempt remaining w e rest,
    env_generate (env w) = map inl errs ++ inl e :: rest ->
    S (length errs) = remaining -> (attempt + remaining = maxRetries)%nat ->
    exists w' evs,
      attempts remaining attempt w = (Throws (enhancedError e), w', evs)
      /\ sleeps evs = map delay (seq attempt (length errs))
      /\ model_calls evs = repeat (contents w) (S (length errs))
      /\ errors_shown evs = []
      /\ contents w' = contents w.
Proof.
  induction errs as [|e0 errs IH]; intros attempt remaining w e rest Henv Hlen Hsum.
  - subst remaining. cbn [attempts].
    destruct (generateContent_run w) as (w1 & bg & Hrun & Hbg & Hgen & Hcont).
    rewrite Henv in Hrun, Hgen; simpl in Hrun, Hgen.
    assert (Hlast : (attempt =? maxRetries - 1)%nat = true).
    { apply Nat.eqb_eq. simpl in Hsum. unfold maxRetries in *. lia. }
    eexists _, _. split.
    { eapply try_catch_throws_run.
      - eapply bind_throws_run; exact Hrun.
      - eapply bind_emit_run. rewrite Hlast. reflexivity. }
    rewrite !sleeps_app, !model_calls_app, !errors_shown_app; simpl.
    rewrite (no_sleeps _ Hbg), (no_model_calls _ Hbg), (no_errors_shown _ Hbg).
    repeat split; assumption.
  - subst remaining. cbn [attempts].
    destruct (generateContent_run w) as (w1 & bg & Hrun & Hbg & Hgen & Hcont).
    rewrite Henv in Hrun, Hgen; simpl in Hrun, Hgen.
    destruct (sleep_run (baseDelayMs * 2 ^ Z.of_nat attempt) w1)
      as (w2 & bg2 & Hsl & Hbg2 & Hgen2 & Hcont2).
    destruct (IH (S attempt) (S (length errs)) w2 e rest)
      as (w3 & e3 & Hrun3 & Hs & Hm & He & Hc).
    { congruence. } { reflexivity. } { simpl in Hsum; lia. }
    assert (Hnot_last : (attempt =? maxRetries - 1)%nat = false).
    { apply Nat.eqb_neq. simpl in Hsum. unfold maxRetries in *. lia. }
    eexists _, _. split.
    { eapply try_catch_throws_run.
      - eapply bind_throws_run; exact Hrun.
      - eapply bind_emit_run. rewrite Hnot_last.
        eapply bind_value_run; [exact Hsl|exact Hrun3]. }
    rewrite !sleeps_app, !model_calls_app, !errors_shown_app; simpl.
    rewrite !sleeps_app, !model_calls_app, !errors_shown_app; simpl.
    rewrite (no_sleeps _ Hbg), (no_model_calls _ Hbg), (no_errors_shown _ Hbg),
      (no_sleeps _ Hbg2), (no_model_calls _ Hbg2), (no_errors_shown _ Hbg2); simpl.
    rewrite Hs, Hm, He.
    assert (Hw2 : contents w2 = contents w) by congruence.
    rewrite Hw2. repeat split; auto; congruence.
Qed.

Lemma attempts_bounded remaining :
  forall attempt w,
    (length (model_calls (events (attempts remaining attempt) w)) <= remaining)%nat.
Proof.
  induction remaining as [|remaining IH]; intros attempt w; [simpl; lia|].
  cbn [attempts].
  destruct (generateContent_run w) as (w1 & bg & Hrun & Hbg & _).
  destruct (default (inl (Error "Failed to fetch")) (head (env_generate (env w))))
    as [e|response].
  - destruct (attempt =? maxRetries - 1)%nat eqn:Hlast.
    + unfold events. erewrite try_catch_throws_run.
      2:{ eapply bind_throws_run; exact Hrun. }
      2:{ eapply bind_emit_run. try rewrite Hlast. reflexivity. }
      simpl. rewrite model_calls_app, (no_model_calls _ Hbg). simpl. lia.
    + destruct (sleep_run (baseDelayMs * 2 ^ Z.of_nat attempt) w1)
        as (w2 & bg2 & Hsl & Hbg2 & _).
      specialize (IH (S attempt) w2).
      unfold events in *. erewrite try_catch_throws_run.
      2:{ eapply bind_throws_run; exact Hrun. }
      2:{ eapply bind_emit_run. try rewrite Hlast.
          eapply bind_value_run; [exact Hsl|apply run_eta]. }
      simpl. rewrite !model_calls_app; simpl.
      rewrite (no_model_calls _ Hbg), model_calls_app, (no_model_calls _ Hbg2).
      simpl. unfold events. lia.
  - unfold events. erewrite try_catch_value_run.
    2:{ eapply bind_value_run; [exact Hrun|reflexivity]. }
    simpl. rewrite model_calls_app, (no_model_calls _ Hbg). simpl. lia.
Qed.

(** C7, as the code has it.  [getModelResponse] calls the model at most
    five times.  When the first [k < 5] calls fail and the next one answers,
    that answer is returned after the delays 1000, 2000, 4000, 8000 ms cut to
    the first [k], and no error is shown.  When five calls in a row fail,
    the delays are 1000, 2000, 4000 and 8000 ms (none follows the fifth
    failure), the fifth error is thrown with its message dressed up with
    status and status text, and the iteration shows exactly that one error
    and ends the task. *)
Theorem C7_five_attempts_four_delays :
  (forall w, (length (model_calls (events getModelResponse w)) <= 5)%nat)
  /\ (forall w errs response rest,
        env_generate (env w) = map inl errs ++ inr response :: rest ->
        (length errs < 5)%nat ->
        exists w' evs,
          getModelResponse w = (Value (Some response), w', evs)
          /\ sleeps evs = take (length errs) [1000; 2000; 4000; 8000]%Z
          /\ length (model_calls evs) = S (length errs)
          /\ errors_shown evs = [])
  /\ (forall w e1 e2 e3 e4 e5 rest,
        env_generate (env w) = inl e1 :: inl e2 :: inl e3 :: inl e4 :: inl e5 :: rest ->
        exists w' evs,
          getModelResponse w = (Throws (enhancedError e5), w', evs)
          /\ sleeps evs = [1000; 2000; 4000; 8000]%Z
          /\ length (model_calls evs) = 5%nat
          /\ errors_shown evs = []
          /\ exists w'' evs',
               ServiceWorker.runOneIteration w = (Value ServiceWorker.COMPLETE, w'', evs')
               /\ errors_shown evs' = [ message (enhancedError e5) ])
  /\ (forall kind msg n t,
        msg <> "" -> n <> 0%N -> t <> "" ->
        message (enhancedError {| name := kind; message := msg;
                                  status := Some n; statusText := Some t |})
        = "[" +:+ pretty n +:+ "] " +:+ msg +:+ " (" +:+ t +:+ ")").
Proof.
  split; [|split; [|split]].
  - intros w. apply (attempts_bounded maxRetries 0 w).
  - intros w errs response rest Henv Hlen.
    destruct (attempts_succeed errs 0 maxRetries w response rest Henv)
      as (w' & evs & Hrun & Hs & Hm & He & _); [exact Hlen|reflexivity|].
    exists w', evs. repeat split; try assumption.
    + rewrite Hs.
      destruct errs as [|? [|? [|? [|? [|? ?]]]]]; simpl in Hlen; try lia; reflexivity.
    + rewrite Hm. apply repeat_length.
  - intros w e1 e2 e3 e4 e5 rest Henv.
    destruct (attempts_exhausted [e1; e2; e3; e4] 0 maxRetries w e5 rest Henv)
      as (w' & evs & Hrun & Hs & Hm & He & _); [reflexivity|reflexivity|].
    exists w', evs. repeat split; try assumption.
    + rewrite Hm. reflexivity.
    + eexists _, _. split.
      * unfold ServiceWorker.runOneIteration.
        eapply bind_value_run;
          [ eapply try_catch_throws_run;
            [eapply bind_throws_run; exact Hrun|reflexivity]
          | reflexivity ].
      * rewrite app_nil_r, errors_shown_app, He. reflexivity.
  - intros kind msg n t Hmsg Hn Ht. unfold enhancedError; simpl.
    destruct (String.eqb_spec msg ""); [contradiction|].
    destruct (N.eqb_spec n 0); [contradiction|].
    destruct (String.eqb_spec t ""); [contradiction|].
    rewrite !string_app_assoc. reflexivity.
Qed.

(** C7 fails on the fifth delay: with every call failing, four delays are
    slept and the error is thrown; 16 s is never waited. *)
Lemma C7_no_sixteen_second_delay :
  outcome getModelResponse always_down = Throws (enhancedError unavailable)
  /\ sleeps (events getModelResponse always_down) = [1000; 2000; 4000; 8000]%Z
  /\ sleeps (events getModelResponse always_down)
     <> [1000; 2000; 4000; 8000; 16000]%Z.
Proof. repeat split; try reflexivity. vm_compute. discriminate. Qed.

Lemma C7_retry_witness :
  exists w' evs,
    getModelResponse
      (session task
         {| env_generate := [ inl unavailable; inl unavailable; inl unavailable;
                              inl unavailable; reply [ textPart "Done." ] "STOP" ];
            env_fetch := []; env_safety := []; env_tabs := []; env_send := [];
            env_inject := []; env_capture := []; env_stop := [] |})
    = (Value (Some {| candidates :=
                        Some [ {| content := Some {| role := "model";
                                                     parts := Some [ textPart "Done." ] |};
                                  finishReason := Some "STOP" |} ] |}), w', evs)
    /\ sleeps evs = [1000; 2000; 4000; 8000]%Z.
Proof.
  destruct C7_five_attempts_four_delays as (_ & Hok & _).
  destruct (Hok
    (session task
       {| env_generate := [ inl unavailable; inl unavailable; inl unavailable;
                            inl unavailable; reply [ textPart "Done." ] "STOP" ];
          env_fetch := []; env_safety := []; env_tabs := []; env_send := [];
          env_inject := []; env_capture := []; env_stop := [] |})
    [unavailable; unavailable; unavailable; unavailable]
    {| candidates :=
         Some [ {| content := Some {| role := "model";
                                      parts := Some [ textPart "Done." ] |};
                   finishReason := Some "STOP" |} ] |}
    []) as (w' & evs & Hrun & Hs & _); [reflexivity|simpl; lia|].
  exists w', evs. split; [exact Hrun|exact Hs].
Defined.

End Gateway.

(** ** One iteration: replies without function calls *)

Section RepliesWithoutCalls.
Import BrowserAgent Runtime Agent ServiceWorker.
Local Open Scope js_scope.

Lemma events_bind_prefix {A B} (m : M A) (f : A -> M B) w :
  exists tail, events (bind m f) w = events m w ++ tail.
Proof.
  unfold events, bind. destruct (m w) as [[[a| | |] w1] e1]; simpl.
  - destruct (f a w1) as [[o w2] e2]. now exists e2.
  - exists []. now rewrite app_nil_r.
  - exists []. now rewrite app_nil_r.
  - exists []. now rewrite app_nil_r.
Qed.

Lemma events_try_catch_prefix {A} (m : M A) handler w :
  exists tail, events (try_catch m handler) w = events m w ++ tail.
Proof.
  unfold events, try_catch. destruct (m w) as [[[a|e| |] w1] e1]; simpl.
  - exists []. now rewrite app_nil_r.
  - destruct (handler e w1) as [[o w2] e2]. now exists e2.
  - exists []. now rewrite app_nil_r.
  - exists []. now rewrite app_nil_r.
Qed.

(** An iteration starts by calling the model with the history as it is. *)
Lemma runOneIteration_calls_model w :
  exists more, events runOneIteration w = EvGenerateContent (contents w) :: more.
Proof.
  unfold runOneIteration, getModelResponse, maxRetries. cbn [attempts].
  repeat match goal with
         | |- context [events (bind ?m ?f) w] =>
             destruct (events_bind_prefix m f w) as [? ->]
         | |- context [events (try_catch ?m ?h) w] =>
             destruct (events_try_catch_prefix m h w) as [? ->]
         end.
  destruct (generateContent_run w) as (w1 & bg & Hrun & _).
  unfold events at 1. rewrite Hrun; simpl. eauto.
Qed.

Lemma trackStep_run s a w :
  exists w' evs,
    trackStep s a w = (Value tt, w', evs)
    /\ Forall plain evs
    /\ contents w' = contents w
    /\ finalReasoning w' = finalReasoning w.
Proof.
  pose proof (only_trackStep s a w) as Hev.
  pose proof (contents_trackStep s a w) as Hc.
  assert (Hf : preserves finalReasoning (trackStep s a)).
  { unfold trackStep, sendToSidepanel. run_steps. apply keeps_await; reflexivity. }
  specialize (Hf w).
  assert (Ho : outcome (trackStep s a) w = Value tt).
  { unfold outcome, trackStep. rewrite bind_emit. unfold outcome; simpl.
    rewrite bind_run. destruct (await_resumes w) as [b ->]. reflexivity. }
  exists (after (trackStep s a) w), (events (trackStep s a) w).
  rewrite (run_eta (trackStep s a) w) at 1. rewrite Ho. auto.
Qed.

(** The start of an iteration whose model call answered with a candidate. *)
Lemma runOneIteration_with_candidate w w1 e1 response candidate others :
  getModelResponse w = (Value (Some response), w1, e1) ->
  candidates response = Some (candidate :: others) ->
  forall o w2 e2,
    (let reasoning := getText candidate in
     let thoughtSummary := extractThoughtSummary candidate in
     let functionCalls := extractFunctionCalls candidate in
     if (length functionCalls =? 0)%nat && negb (truthy_str reasoning)
        && isMalformedFunctionCall candidate
     then ret CONTINUE
     else
       sendToSidepanel
         (UPDATE_CONVERSATION "model" reasoning thoughtSummary functionCalls) ;;
       if (length functionCalls =? 0)%nat then
         modify (set_finalReasoning reasoning) ;;
         (if truthy_str reasoning || truthy_str thoughtSummary
          then trackStep None []
          else ret tt) ;;
         sendToSidepanel
           (STATUS_UPDATE (if isWaitingForInput reasoning then "waiting" else "idle")) ;;
         ret COMPLETE
       else
         exit <- forEachCall functionCalls [] ;;
         match exit with
         | LoopReturned r => ret r
         | LoopDone functionResponses =>
             w <- get ;;
             if shouldStop w then ret COMPLETE
             else
               modify (fun w => set_contents
                         (addFunctionResponses functionResponses (contents w)) w) ;;
               ret CONTINUE
         end)
      (set_contents (addModelResponse candidate (contents w1)) w1) = (o, w2, e2) ->
    runOneIteration w = (o, w2, e1 ++ e2).
Proof.
  intros Hrun Hcand o w2 e2 Hrest.
  unfold runOneIteration.
  eapply bind_value_run.
  - eapply try_catch_value_run.
    exact (bind_then_ret getModelResponse inr w _ _ _ Hrun).
  - cbv beta iota. rewrite Hcand.
    rewrite bind_modify. exact Hrest.
Qed.

(** C4, as the code has it.  When the model call answers with a candidate
    that has no function call, no text outside thoughts, and the finish
    reason of a malformed function call, the iteration asks for another
    round without showing anything.  The history is as before when the
    candidate has no content; when it has one (thoughts only, or no parts),
    that content is appended as a turn.  No turn that was there is touched,
    and the next round calls the model with the history so left. *)
Theorem C4_malformed_reply_is_retried w w1 e1 response candidate others :
  getModelResponse w = (Value (Some response), w1, e1) ->
  candidates response = Some (candidate :: others) ->
  extractFunctionCalls candidate = [] ->
  truthy_str (getText candidate) = false ->
  isMalformedFunctionCall candidate = true ->
  exists w',
    runOneIteration w = (Value CONTINUE, w', e1)
    /\ contents w' = match content candidate with
                     | Some c => contents w ++ [c]
                     | None => contents w
                     end
    /\ (forall i turn, contents w !! i = Some turn -> contents w' !! i = Some turn)
    /\ (forall fuel,
           isRunning w = true -> shouldStop w = false ->
           exists w2 bg,
             sleep 300 w' = (Value tt, w2, EvSleep 300 :: bg)
             /\ contents w2 = contents w'
             /\ iterate (S fuel) w
                = (outcome (iterate fuel) w2, after (iterate fuel) w2,
                   e1 ++ (EvSleep 300 :: bg) ++ events (iterate fuel) w2)
             /\ (isRunning w2 = true -> shouldStop w2 = false ->
                 forall fuel', fuel = S fuel' ->
                 exists more,
                   events (iterate fuel) w2 = EvGenerateContent (contents w') :: more)).
Proof.
  intros Hrun Hcand Hcalls Htext Hmal.
  pose proof (contents_getModelResponse w) as Hkeep.
  unfold after in Hkeep. rewrite Hrun in Hkeep; simpl in Hkeep.
  set (w' := set_contents (addModelResponse candidate (contents w1)) w1).
  assert (Hone : runOneIteration w = (Value CONTINUE, w', e1)).
  { rewrite <- (app_nil_r e1).
    eapply runOneIteration_with_candidate; [exact Hrun|exact Hcand|].
    cbv zeta. rewrite Hcalls, Htext, Hmal. reflexivity. }
  assert (Hcont : contents w' = match content candidate with
                                | Some c => contents w ++ [c]
                                | None => contents w
                                end).
  { subst w'; simpl. unfold addModelResponse. rewrite Hkeep.
    now destruct (content candidate). }
  exists w'. split; [exact Hone|]. split; [exact Hcont|]. split.
  - intros i turn Hi. rewrite Hcont. destruct (content candidate); [|exact Hi].
    rewrite lookup_app_l; [exact Hi|]. now apply lookup_lt_Some in Hi.
  - intros fuel Hr Hs.
    destruct (sleep_run 300 w') as (w2 & bg & Hsl & _ & _ & Hc2).
    exists w2, bg. split; [exact Hsl|]. split; [exact Hc2|]. split.
    + cbn [iterate]. rewrite bind_get, Hr, Hs. cbn [andb negb].
      eapply bind_value_run; [exact Hone|].
      cbv iota. erewrite bind_value_run; [reflexivity|exact Hsl|apply run_eta].
    + intros Hr2 Hs2 fuel' ->.
      cbn [iterate]. unfold events. rewrite bind_get, Hr2, Hs2. cbn [andb negb].
      destruct (events_bind_prefix runOneIteration
                  (fun result => match result with
                                 | COMPLETE => ret tt
                                 | CONTINUE => sleep 300;; iterate fuel'
                                 end) w2) as [t Ht].
      unfold events in Ht. rewrite Ht.
      destruct (runOneIteration_calls_model w2) as [more Hmore].
      unfold events in Hmore. rewrite Hmore, Hc2. simpl. eauto.
Qed.

(** C4 fails when the candidate has content: a reply that holds only a
    thought and stops on a malformed function call is retried, and its
    content has been appended to the history. *)
Lemma C4_thought_is_appended_before_retry :
  outcome runOneIteration malformed_after_thought = Value CONTINUE
  /\ length (contents malformed_after_thought) = 1%nat
  /\ length (contents (after runOneIteration malformed_after_thought)) = 2%nat
  /\ contents (after runOneIteration malformed_after_thought)
     <> contents malformed_after_thought.
Proof.
  repeat split; try reflexivity.
  intros H. apply (f_equal length) in H. vm_compute in H. discriminate.
Qed.

Lemma C4_malformed_witness :
  exists w',
    runOneIteration malformed_reply
    = (Value CONTINUE, w', events getModelResponse malformed_reply)
    /\ contents w' = contents malformed_reply.
Proof.
  destruct (C4_malformed_reply_is_retried malformed_reply
              (after getModelResponse malformed_reply)
              (events getModelResponse malformed_reply)
              {| candidates := Some [ malformed_candidate ] |}
              malformed_candidate [])
    as (w' & Hrun & Hcont & _); try reflexivity.
  exists w'. split; [exact Hrun|exact Hcont].
Defined.

(** C3, as the code has it.  When the model call answers with a candidate
    without function calls that is not the malformed-call retry, the
    iteration shows the reply, keeps its text as the final reasoning, never
    enters the executor, and ends the task with a last status update that is
    ["waiting"] if the text outside thoughts matches the question heuristic
    and ["idle"] otherwise.  The heuristic of the code is the one in words: a
    line ending in a question mark, or one of the phrases, letter case
    aside. *)
Theorem C3_reply_without_calls_ends_task w w1 e1 response candidate others :
  getModelResponse w = (Value (Some response), w1, e1) ->
  candidates response = Some (candidate :: others) ->
  extractFunctionCalls candidate = [] ->
  truthy_str (getText candidate) = true \/ isMalformedFunctionCall candidate = false ->
  (exists w' mid,
      runOneIteration w
      = (Value COMPLETE, w',
         e1 ++ EvSidepanel (UPDATE_CONVERSATION "model" (getText candidate)
                              (extractThoughtSummary candidate) [])
            :: mid
            ++ [ EvSidepanel (STATUS_UPDATE
                                (if isWaitingForInput (getText candidate)
                                 then "waiting" else "idle")) ])
      /\ Forall plain mid
      /\ finalReasoning w' = getText candidate)
  /\ Forall not_executor (events runOneIteration w)
  /\ (isWaitingForInput (getText candidate) = true
      <-> exists t, getText candidate = Some t /\ question_heuristic t).
Proof.
  intros Hrun Hcand Hcalls Hnot_retry.
  set (wm := set_contents (addModelResponse candidate (contents w1)) w1).
  set (wf := set_finalReasoning (getText candidate) wm).
  assert (Htrack : exists w' mid,
             (if truthy_str (getText candidate)
                 || truthy_str (extractThoughtSummary candidate)
              then trackStep None [] else ret tt) wf = (Value tt, w', mid)
             /\ Forall plain mid /\ finalReasoning w' = getText candidate).
  { destruct (truthy_str (getText candidate)
              || truthy_str (extractThoughtSummary candidate)).
    - destruct (trackStep_run None [] wf) as (w' & mid & H & Hp & _ & Hf).
      exists w', mid. repeat split; assumption.
    - exists wf, []. repeat split. constructor. }
  destruct Htrack as (w' & mid & Htrack & Hmid & Hfinal).
  assert (Hone : runOneIteration w
                 = (Value COMPLETE, w',
                    e1 ++ EvSidepanel (UPDATE_CONVERSATION "model" (getText candidate)
                                         (extractThoughtSummary candidate) [])
                       :: mid
                       ++ [ EvSidepanel (STATUS_UPDATE
                                           (if isWaitingForInput (getText candidate)
                                            then "waiting" else "idle")) ])).
  { eapply runOneIteration_with_candidate; [exact Hrun|exact Hcand|].
    cbv zeta. rewrite Hcalls. cbn [length Nat.eqb andb].
    replace (negb (truthy_str (getText candidate)) && isMalformedFunctionCall candidate)
      with false
      by (destruct Hnot_retry as [-> | ->]; [reflexivity|now rewrite andb_false_r]).
    unfold sendToSidepanel at 1. eapply bind_emit_run.
    rewrite bind_modify. fold wf.
    eapply bind_value_run; [exact Htrack|].
    unfold sendToSidepanel. eapply bind_emit_run. reflexivity. }
  split; [|split].
  - exists w', mid. repeat split; assumption.
  - unfold events. rewrite Hone; simpl.
    pose proof (only_getModelResponse w) as He1.
    unfold events in He1. rewrite Hrun in He1; simpl in He1.
    apply Forall_app; split.
    + eapply Forall_impl; [exact He1|apply plain_not_executor].
    + constructor; [exact I|]. apply Forall_app; split.
      * eapply Forall_impl; [exact Hmid|apply plain_not_executor].
      * repeat constructor.
  - apply isWaitingForInput_spec.
Qed.

(** C3 fails for the malformed-call retry: a reply without function calls
    and without text, finished as a malformed function call, ends the
    iteration with no status update at all, and asks for another round. *)
Lemma C3_malformed_reply_sets_no_status :
  extractFunctionCalls malformed_candidate = []
  /\ isWaitingForInput (getText malformed_candidate) = false
  /\ outcome runOneIteration malformed_reply = Value CONTINUE
  /\ statuses_shown (events runOneIteration malformed_reply) = []
  /\ ~ In (EvSidepanel (STATUS_UPDATE "idle")) (events runOneIteration malformed_reply).
Proof.
  repeat split; try reflexivity.
  vm_compute. intros [H|[]]. discriminate.
Qed.

Lemma C3_question_witness :
  exists w' mid,
    runOneIteration asks_a_question
    = (Value COMPLETE, w',
       events getModelResponse asks_a_question
       ++ EvSidepanel (UPDATE_CONVERSATION "model" (Some "Should I submit the form?")
                         None [])
          :: mid ++ [ EvSidepanel (STATUS_UPDATE "waiting") ])
    /\ finalReasoning w' = Some "Should I submit the form?".
Proof.
  destruct (C3_reply_without_calls_ends_task asks_a_question
              (after getModelResponse asks_a_question)
              (events getModelResponse asks_a_question)
              {| candidates :=
                   Some [ {| content :=
                               Some {| role := "model";
                                       parts := Some [ textPart "Should I submit the form?" ] |};
                             finishReason := Some "STOP" |} ] |}
              {| content := Some {| role := "model";
                                    parts := Some [ textPart "Should I submit the form?" ] |};
                 finishReason := Some "STOP" |} [])
    as ((w' & mid & Hrun & _ & Hfinal) & _); try reflexivity.
  { left; reflexivity. }
  exists w', mid. split; [exact Hrun|exact Hfinal].
Defined.

End RepliesWithoutCalls.

(** ** The safety gate *)

Create HintDb runs.

#[local] Hint Resolve only_await only_sleep only_tabs_query only_tabs_sendMessage
  only_scripting_executeScript only_captureScreenshot only_waitForPageSettle
  only_getCurrentUrl only_sendToSidepanel only_generateContent only_attempts
  only_getModelResponse only_trackStep only_fetch only_round only_rounds
  only_callGeminiAPI only_page_effects
  contents_await contents_sleep contents_tabs_query contents_tabs_sendMessage
  contents_scripting_executeScript contents_captureScreenshot
  contents_waitForPageSettle contents_getCurrentUrl
  contents_requestSafetyConfirmation contents_getModelResponse contents_trackStep
  : runs.

#[local] Hint Extern 1 (plain _) => exact I : runs.
#[local] Hint Extern 1 (not_executor _) => exact I : runs.
#[local] Hint Extern 1 (not_safety_response _) => exact I : runs.

Section SafetyGate.
Import BrowserAgent Runtime.
Local Open Scope js_scope.

(** *** Traces of composed programs *)

Lemma all_runs_bind {A B} (T : list Event -> Prop) (m : M A) (f : A -> M B) :
  (forall a b, T a -> T b -> T (a ++ b)) ->
  all_runs T m -> (forall a, all_runs T (f a)) -> all_runs T (bind m f).
Proof.
  intros Happ Hm Hf w. specialize (Hm w). unfold events, bind in *.
  destruct (m w) as [[[a| | |] w1] e1]; simpl in *; try assumption.
  specialize (Hf a w1). unfold events in Hf.
  destruct (f a w1) as [[o w2] e2]; simpl in *. now apply Happ.
Qed.

Lemma all_runs_try_catch {A} (T : list Event -> Prop) (m : M A) handler :
  (forall a b, T a -> T b -> T (a ++ b)) ->
  all_runs T m -> (forall e, all_runs T (handler e)) ->
  all_runs T (try_catch m handler).
Proof.
  intros Happ Hm Hh w. specialize (Hm w). unfold events, try_catch in *.
  destruct (m w) as [[[a|e| |] w1] e1]; simpl in *; try assumption.
  specialize (Hh e w1). unfold events in Hh.
  destruct (handler e w1) as [[o w2] e2]; simpl in *. now apply Happ.
Qed.

Lemma all_runs_try_finally {A} (T : list Event -> Prop) (m : M A) cleanup :
  (forall a b, T a -> T b -> T (a ++ b)) ->
  all_runs T m -> all_runs T cleanup -> all_runs T (try_finally m cleanup).
Proof.
  intros Happ Hm Hc w. specialize (Hm w). unfold events, try_finally in *.
  destruct (m w) as [[[a|e| |] w1] e1]; simpl in *; try assumption.
  all: specialize (Hc w1); unfold events in Hc;
    destruct (cleanup w1) as [[[[]|e'| |] w2] e2]; simpl in *; now apply Happ.
Qed.

Lemma well_gated_app a b : well_gated a -> well_gated b -> well_gated (a ++ b).
Proof.
  induction 1; intros Hb; simpl; [exact Hb| | |].
  - apply wg_other; auto.
  - apply wg_free; auto.
  - apply wg_allowed; auto.
Qed.

Lemma well_gated_plain evs : Forall plain evs -> well_gated evs.
Proof.
  induction 1 as [|ev evs Hev _ IH]; [constructor|].
  apply wg_other; [now apply plain_not_executor|exact IH].
Qed.

Lemma all_runs_plain {A} (m : M A) : only plain m -> all_runs well_gated m.
Proof. intros H w. apply well_gated_plain, H. Qed.

Lemma events_bind_cases {A B} (m : M A) (f : A -> M B) w :
  exists tail,
    events (bind m f) w = events m w ++ tail
    /\ (tail = [] \/ exists a w1, tail = events (f a) w1).
Proof.
  unfold events, bind. destruct (m w) as [[[a| | |] w1] e1]; simpl.
  - destruct (f a w1) as [[o w2] e2] eqn:E. exists e2. split; [reflexivity|].
    right. exists a, w1. now rewrite E.
  - exists []. rewrite app_nil_r. auto.
  - exists []. rewrite app_nil_r. auto.
  - exists []. rewrite app_nil_r. auto.
Qed.

(** *** Asking the side panel *)

Lemma requestSafetyConfirmation_run fc explanation w :
  (exists allowed w',
      requestSafetyConfirmation fc explanation w
      = (Value allowed, w',
         [ EvSidepanel (SAFETY_CONFIRMATION fc explanation);
           EvSafetyResponse fc allowed ])
      /\ contents w' = contents w)
  \/ (exists w' evs,
         requestSafetyConfirmation fc explanation w = (Pending, w', evs)
         /\ Forall plain evs).
Proof.
  unfold requestSafetyConfirmation, await_, stopAgent, sendToSidepanel, ask,
    bind, modify, emit, ret, pending; simpl.
  destruct (env_stop (env w)) as [|[|] stops]; simpl;
    destruct (env_safety (env w)) as [|[allowed|] answers]; simpl;
    try (right; do 2 eexists; split; [reflexivity|repeat constructor]);
    left; do 2 eexists; split; reflexivity.
Qed.

(** *** The executor *)

Lemma executeAction_events action args h w :
  exists rest,
    events (ServiceWorker.executeAction action args h) w
    = EvExecuteAction action args :: rest
    /\ Forall plain rest.
Proof.
  unfold ServiceWorker.executeAction, events. rewrite bind_emit; simpl.
  eexists; split; [reflexivity|].
  match goal with |- Forall plain (events ?m w) => assert (H : only plain m) end.
  { run_steps; auto with runs. }
  apply H.
Qed.

Lemma legacy_executeAction_events action args h w :
  exists rest,
    events (Legacy.executeAction action args h) w
    = EvExecuteAction action args :: rest
    /\ Forall plain rest.
Proof.
  unfold Legacy.executeAction, events. rewrite bind_emit; simpl.
  eexists; split; [reflexivity|].
  match goal with |- Forall plain (events ?m w) => assert (H : only plain m) end.
  { run_steps; auto with runs. }
  apply H.
Qed.

Lemma gated_eta fc :
  gated (fc_name fc) (fc_args fc) = required (requiresSafetyConfirmation fc).
Proof. now destruct fc. Qed.

Lemma legacy_requires_same fc :
  Legacy.requiresSafetyConfirmation fc = requiresSafetyConfirmation fc.
Proof.
  unfold Legacy.requiresSafetyConfirmation, requiresSafetyConfirmation.
  destruct (default JUndefined (fc_args fc !! "safety_decision")); simpl;
    rewrite ?andb_false_r; reflexivity.
Qed.

End SafetyGate.

(** Decompose a goal [all_runs well_gated m] along the program. *)
Ltac gate_step :=
  match goal with
  | |- all_runs well_gated (Runtime.bind _ _) =>
      apply all_runs_bind; [exact well_gated_app| |intros]
  | |- all_runs well_gated (Runtime.try_catch _ _) =>
      apply all_runs_try_catch; [exact well_gated_app| |intros]
  | |- all_runs well_gated (Runtime.try_finally _ _) =>
      apply all_runs_try_finally; [exact well_gated_app| |]
  | |- all_runs well_gated (match ?x with _ => _ end) => destruct x
  end.

Ltac gate_steps :=
  repeat gate_step;
  try solve [apply all_runs_plain; run_steps; auto with runs].

Section GatedLoops.
Import BrowserAgent Runtime.
Local Open Scope js_scope.

(** Entering the executor and carrying on: the trace is well gated when the
    call is free, and also right after an allowing answer. *)
Lemma executor_then {B} action args h (k : gmap string JVal -> M B) w :
  (forall result, all_runs well_gated (k result)) ->
  exists rest,
    events (bind (ServiceWorker.executeAction action args h) k) w
    = EvExecuteAction action args :: rest
    /\ well_gated rest.
Proof.
  intros Hk.
  destruct (events_bind_cases (ServiceWorker.executeAction action args h) k w)
    as (tail & -> & Htail).
  destruct (executeAction_events action args h w) as (rest & -> & Hrest).
  exists (rest ++ tail). split; [reflexivity|].
  apply well_gated_app; [now apply well_gated_plain|].
  destruct Htail as [->|(a & w1 & ->)]; [constructor|apply Hk].
Qed.

Lemma legacy_executor_then {B} action args h (k : gmap string JVal -> M B) w :
  (forall result, all_runs well_gated (k result)) ->
  exists rest,
    events (bind (Legacy.executeAction action args h) k) w
    = EvExecuteAction action args :: rest
    /\ well_gated rest.
Proof.
  intros Hk.
  destruct (events_bind_cases (Legacy.executeAction action args h) k w)
    as (tail & -> & Htail).
  destruct (legacy_executeAction_events action args h w) as (rest & -> & Hrest).
  exists (rest ++ tail). split; [reflexivity|].
  apply well_gated_app; [now apply well_gated_plain|].
  destruct Htail as [->|(a & w1 & ->)]; [constructor|apply Hk].
Qed.

Lemma forEachCall_well_gated calls :
  forall acc, all_runs well_gated (ServiceWorker.forEachCall calls acc).
Proof.
  induction calls as [|fc calls IH]; intros acc w; cbn [ServiceWorker.forEachCall].
  { constructor. }
  unfold events. rewrite bind_get.
  destruct (shouldStop w); [constructor|].
  pose proof (gated_eta fc) as Hgated.
  set (k := fun result : gmap string JVal => _).
  assert (Hk : forall result, all_runs well_gated (k result)).
  { intros result. subst k. cbv beta. gate_steps. apply IH. }
  destruct (required (requiresSafetyConfirmation fc)) eqn:Hreq.
  - destruct (requestSafetyConfirmation_run fc
                (explanation (requiresSafetyConfirmation fc)) w)
      as [(allowed & w' & Hrun & _)|(w' & evs & Hrun & Hplain)].
    + destruct allowed.
      * destruct (executor_then (fc_name fc) (fc_args fc) (highlightMouse w) k w' Hk)
          as (rest & Hev & Hrest).
        unfold events in Hev.
        erewrite bind_value_run; [|exact Hrun|apply run_eta]. simpl.
        unfold events. cbn [negb]. rewrite Hev. now apply wg_allowed.
      * erewrite bind_value_run; [|exact Hrun|reflexivity]. simpl.
        repeat (apply wg_other; [exact I|]). constructor.
    + erewrite bind_pending_run; [|exact Hrun]. simpl. now apply well_gated_plain.
  - rewrite bind_ret. cbn [negb].
    destruct (executor_then (fc_name fc) (fc_args fc) (highlightMouse w) k w Hk)
      as (rest & Hev & Hrest).
    unfold events in Hev. rewrite Hev. apply wg_free; [now rewrite Hgated|exact Hrest].
Qed.

Lemma legacy_forEachCall_well_gated calls :
  forall acc, all_runs well_gated (Legacy.forEachCall calls acc).
Proof.
  induction calls as [|fc calls IH]; intros acc w; cbn [Legacy.forEachCall].
  { constructor. }
  unfold events. rewrite bind_get.
  destruct (shouldStop w); [constructor|].
  pose proof (gated_eta fc) as Hgated.
  rewrite legacy_requires_same.
  set (k := fun result : gmap string JVal => _).
  assert (Hk : forall result, all_runs well_gated (k result)).
  { intros result. subst k. cbv beta. gate_steps. apply IH. }
  destruct (required (requiresSafetyConfirmation fc)) eqn:Hreq.
  - destruct (requestSafetyConfirmation_run fc
                (explanation (requiresSafetyConfirmation fc)) w)
      as [(allowed & w' & Hrun & _)|(w' & evs & Hrun & Hplain)].
    + destruct allowed.
      * destruct (legacy_executor_then (fc_name fc) (fc_args fc) (highlightMouse w)
                    k w' Hk) as (rest & Hev & Hrest).
        unfold events in Hev.
        erewrite bind_value_run; [|exact Hrun|apply run_eta]. simpl.
        unfold events. cbn [negb]. rewrite Hev. now apply wg_allowed.
      * erewrite bind_value_run; [|exact Hrun|apply run_eta]. simpl.
        repeat (apply wg_other; [exact I|]). apply IH.
    + erewrite bind_pending_run; [|exact Hrun]. simpl. now apply well_gated_plain.
  - rewrite bind_ret. cbn [negb].
    destruct (legacy_executor_then (fc_name fc) (fc_args fc) (highlightMouse w) k w Hk)
      as (rest & Hev & Hrest).
    unfold events in Hev. rewrite Hev. apply wg_free; [now rewrite Hgated|exact Hrest].
Qed.

Lemma runOneIteration_well_gated : all_runs well_gated ServiceWorker.runOneIteration.
Proof.
  unfold ServiceWorker.runOneIteration. gate_steps.
  apply forEachCall_well_gated.
Qed.

Lemma iterate_well_gated fuel : all_runs well_gated (ServiceWorker.iterate fuel).
Proof.
  induction fuel as [|fuel IH]; cbn [ServiceWorker.iterate]; gate_steps.
  - apply runOneIteration_well_gated.
  - exact IH.
Qed.

Lemma runAgentLoop_well_gated fuel prompt :
  all_runs well_gated (ServiceWorker.runAgentLoop fuel prompt).
Proof.
  unfold ServiceWorker.runAgentLoop. gate_steps. apply iterate_well_gated.
Qed.

Lemma legacy_loopBody_well_gated : all_runs well_gated Legacy.loopBody.
Proof.
  unfold Legacy.loopBody. gate_steps. apply legacy_forEachCall_well_gated.
Qed.

Lemma legacy_iterate_well_gated fuel : all_runs well_gated (Legacy.iterate fuel).
Proof.
  induction fuel as [|fuel IH]; cbn [Legacy.iterate]; gate_steps.
  - apply legacy_loopBody_well_gated.
  - exact IH.
Qed.

Lemma legacy_runAgentLoop_well_gated fuel prompt :
  all_runs well_gated (Legacy.runAgentLoop fuel prompt).
Proof.
  unfold Legacy.runAgentLoop. gate_steps. apply legacy_iterate_well_gated.
Qed.

(** The grammar says what was to be said. *)
Lemma cons_eq_middle {A} (x y : A) l pre post :
  x :: l = pre ++ y :: post ->
  (pre = [] /\ x = y /\ l = post)
  \/ (exists pre', pre = x :: pre' /\ l = pre' ++ y :: post).
Proof.
  destruct pre as [|z pre]; simpl; intros H; injection H as -> ->; eauto.
Qed.

Lemma well_gated_sound evs : well_gated evs -> executed_only_once_allowed evs.
Proof.
  induction 1 as [|ev evs Hev _ IH|a0 args0 evs Hfree _ IH|fc e evs _ IH];
    intros pre action args post Heq Hgated.
  - destruct pre; discriminate.
  - apply cons_eq_middle in Heq as [(-> & -> & _)|(pre1 & -> & Htail)].
    + destruct Hev.
    + destruct (IH _ _ _ _ Htail Hgated) as (pre' & expl & ->).
      now exists (ev :: pre'), expl.
  - apply cons_eq_middle in Heq as [(-> & Hhead & _)|(pre1 & -> & Htail)].
    + injection Hhead as -> ->. congruence.
    + destruct (IH _ _ _ _ Htail Hgated) as (pre' & expl & ->).
      now exists (EvExecuteAction a0 args0 :: pre'), expl.
  - apply cons_eq_middle in Heq as [(-> & Hhead & _)|(pre1 & -> & Heq)];
      [discriminate|].
    apply cons_eq_middle in Heq as [(-> & Hhead & _)|(pre2 & -> & Heq)];
      [discriminate|].
    apply cons_eq_middle in Heq as [(-> & Hhead & _)|(pre3 & -> & Htail)].
    + injection Hhead as <- <-. exists [], e. now destruct fc.
    + destruct (IH _ _ _ _ Htail Hgated) as (pre' & expl & ->).
      now exists (EvSidepanel (SAFETY_CONFIRMATION fc e)
                  :: EvSafetyResponse fc true
                  :: EvExecuteAction (fc_name fc) (fc_args fc) :: pre'), expl.
Qed.

End GatedLoops.

(** ** Refusals *)

Section Refusals.
Import BrowserAgent Runtime.
Local Open Scope js_scope.

Lemma app_eq_middle {A} (y : A) l1 l2 pre post :
  l1 ++ l2 = pre ++ y :: post ->
  (exists post1, l1 = pre ++ y :: post1 /\ post = post1 ++ l2)
  \/ (exists pre2, pre = l1 ++ pre2 /\ l2 = pre2 ++ y :: post).
Proof.
  revert pre. induction l1 as [|x l1 IH]; intros pre H; simpl in H.
  - right. now exists pre.
  - apply cons_eq_middle in H as [(-> & -> & <-)|(pre' & -> & H)].
    + left. now exists l1.
    + destruct (IH pre' H) as [(post1 & -> & ->)|(pre2 & -> & ->)].
      * left. now exists post1.
      * right. now exists pre2.
Qed.

Lemma quiet_has_no_response evs pre fc allowed post :
  Forall not_safety_response evs -> evs <> pre ++ EvSafetyResponse fc allowed :: post.
Proof.
  intros H ->. apply Forall_app in H as [_ H]. inversion H as [|? ? Hhead _].
  exact Hhead.
Qed.

Lemma ends_only {A} (final : Outcome A) (m : M A) :
  only not_safety_response m -> ends_at_denial final m.
Proof.
  intros H w pre fc post Hev. now destruct (quiet_has_no_response _ _ _ _ _ (H w) Hev).
Qed.

Lemma ends_bind {A B} (final : Outcome B) (m : M A) (f : A -> M B) :
  (forall w pre fc post,
      events m w = pre ++ EvSafetyResponse fc false :: post ->
      post = []
      /\ exists x, outcome m w = Value x /\ forall w', f x w' = (final, w', [])) ->
  (forall a, ends_at_denial final (f a)) ->
  ends_at_denial final (bind m f).
Proof.
  intros Hm Hf w pre fc post Hev.
  unfold events, outcome in Hev |- *. rewrite bind_run in *.
  destruct (outcome m w) as [a| | |] eqn:Ho; simpl in Hev |- *.
  - apply app_eq_middle in Hev as [(post1 & Hev & ->)|(pre2 & -> & Hev)].
    + destruct (Hm _ _ _ _ Hev) as (-> & x & Hx & Hfx).
      assert (a = x) as -> by congruence.
      unfold events, outcome. rewrite Hfx. auto.
    + exact (Hf a _ _ _ _ Hev).
  - destruct (Hm _ _ _ _ Hev) as (_ & x & Hx & _). congruence.
  - destruct (Hm _ _ _ _ Hev) as (_ & x & Hx & _). congruence.
  - destruct (Hm _ _ _ _ Hev) as (_ & x & Hx & _). congruence.
Qed.

Lemma ends_after_quiet {A B} (final : Outcome B) (m : M A) (f : A -> M B) :
  only not_safety_response m ->
  (forall a, ends_at_denial final (f a)) ->
  ends_at_denial final (bind m f).
Proof.
  intros Hm. apply ends_bind. intros w pre fc post Hev.
  now destruct (quiet_has_no_response _ _ _ _ _ (Hm w) Hev).
Qed.

Lemma only_quiet_of_plain {A} (m : M A) : only plain m -> only not_safety_response m.
Proof. apply only_weaken, plain_not_safety_response. Qed.

End Refusals.

(** Solve [only not_safety_response m] for programs made of primitives. *)
Ltac quiet :=
  run_steps;
  try exact I;
  try (apply only_quiet_of_plain; run_steps; auto with runs).

Ltac ends_steps :=
  repeat match goal with
         | |- ends_at_denial _ (Runtime.bind _ _) =>
             apply ends_after_quiet; [solve [quiet]|intros]
         | |- ends_at_denial _ (match ?x with _ => _ end) => destruct x
         end;
  try solve [apply ends_only; quiet].

Section RefusalsInTheLoops.
Import BrowserAgent Runtime.
Local Open Scope js_scope.

Lemma only_executeAction_quiet action args h :
  only not_safety_response (ServiceWorker.executeAction action args h).
Proof. unfold ServiceWorker.executeAction. quiet. Qed.

Lemma forEachCall_ends calls :
  forall acc,
    ends_at_denial (Value (ServiceWorker.LoopReturned ServiceWorker.COMPLETE))
      (ServiceWorker.forEachCall calls acc).
Proof.
  induction calls as [|fc calls IH]; intros acc; cbn [ServiceWorker.forEachCall].
  { apply ends_only. quiet. }
  intros w pre fc' post. unfold events, outcome. rewrite bind_get.
  destruct (shouldStop w).
  { simpl. intros H. destruct pre; discriminate. }
  set (k := fun result : gmap string JVal => _).
  assert (Hk : forall w1,
             ends_at_denial (Value (ServiceWorker.LoopReturned ServiceWorker.COMPLETE))
               (bind (ServiceWorker.executeAction (fc_name fc) (fc_args fc) w1) k)).
  { intros w1. apply ends_after_quiet; [apply only_executeAction_quiet|].
    intros result. subst k. cbv beta. ends_steps. apply IH. }
  destruct (required (requiresSafetyConfirmation fc)) eqn:Hreq.
  - destruct (requestSafetyConfirmation_run fc
                (explanation (requiresSafetyConfirmation fc)) w)
      as [(allowed & w' & Hrun & _)|(w' & evs & Hrun & Hplain)].
    + destruct allowed.
      * erewrite bind_value_run; [|exact Hrun|apply run_eta]. cbn [negb fst snd].
        intros Hev. simpl in Hev.
        apply cons_eq_middle in Hev as [(_ & Hhead & _)|(pre1 & -> & Hev)];
          [discriminate|].
        apply cons_eq_middle in Hev as [(_ & Hhead & _)|(pre2 & -> & Hev)];
          [discriminate|].
        exact (Hk (highlightMouse w) w' _ _ _ Hev).
      * erewrite bind_value_run; [|exact Hrun|reflexivity]. simpl.
        intros Hev.
        apply cons_eq_middle in Hev as [(_ & Hhead & _)|(pre1 & -> & Hev)];
          [discriminate|].
        apply cons_eq_middle in Hev as [(_ & _ & <-)|(pre2 & -> & Hev)];
          [auto|destruct pre2; discriminate].
    + erewrite bind_pending_run; [|exact Hrun]. simpl. intros Hev.
      edestruct quiet_has_no_response; [|exact Hev].
      eapply Forall_impl; [exact Hplain|apply plain_not_safety_response].
  - rewrite bind_ret. cbn [negb]. exact (Hk (highlightMouse w) w pre fc' post).
Qed.

Lemma runOneIteration_ends :
  ends_at_denial (Value ServiceWorker.COMPLETE) ServiceWorker.runOneIteration.
Proof.
  unfold ServiceWorker.runOneIteration. ends_steps.
  apply ends_bind.
  - intros w pre fc post Hev.
    destruct (forEachCall_ends _ _ _ _ _ _ Hev) as [-> Ho].
    split; [reflexivity|]. eexists; split; [exact Ho|reflexivity].
  - intros exit. ends_steps.
Qed.

Lemma iterate_ends fuel : ends_at_denial (Value tt) (ServiceWorker.iterate fuel).
Proof.
  induction fuel as [|fuel IH]; cbn [ServiceWorker.iterate]; ends_steps.
  apply ends_bind.
  - intros w pre fc post Hev.
    destruct (runOneIteration_ends _ _ _ _ Hev) as [-> Ho].
    split; [reflexivity|]. eexists; split; [exact Ho|reflexivity].
  - intros result. ends_steps. exact IH.
Qed.

End RefusalsInTheLoops.

Section RefusalsInTheOlderLoop.
Import BrowserAgent Runtime.
Local Open Scope js_scope.

Lemma only_run {A} K (m : M A) w o w' evs :
  only K m -> m w = (o, w', evs) -> Forall K evs.
Proof. intros H Hrun. specialize (H w). unfold events in H. now rewrite Hrun in H. Qed.

Lemma preserves_run {A X} (f : World -> X) (m : M A) w o w' evs :
  preserves f m -> m w = (o, w', evs) -> f w' = f w.
Proof. intros H Hrun. specialize (H w). unfold after in H. now rewrite Hrun in H. Qed.

Lemma bind_inv_value {A B} (m : M A) (f : A -> M B) w b w' evs :
  bind m f w = (Value b, w', evs) ->
  exists a w1 e1 e2,
    m w = (Value a, w1, e1) /\ f a w1 = (Value b, w', e2) /\ evs = e1 ++ e2.
Proof.
  unfold bind. destruct (m w) as [[[a| | |] w1] e1]; try discriminate.
  destruct (f a w1) as [[o w2] e2] eqn:E. intros [= -> -> <-]. eauto 10.
Qed.

Lemma plain_not_refusal ev : plain ev -> not_refusal ev.
Proof. destruct ev; simpl; intros H; try exact I; destruct H. Qed.

Lemma skip_non_refusals l1 l2 pre fc post :
  Forall not_refusal l1 ->
  l1 ++ l2 = pre ++ EvSafetyResponse fc false :: post ->
  exists pre2, l2 = pre2 ++ EvSafetyResponse fc false :: post.
Proof.
  intros H Heq. apply app_eq_middle in Heq as [(post1 & -> & _)|(pre2 & _ & ->)].
  - apply Forall_app in H as [_ H]. inversion H as [|? ? Hhead _]. destruct Hhead.
  - now exists pre2.
Qed.

Lemma no_refusal_among evs pre fc post :
  Forall not_refusal evs -> evs <> pre ++ EvSafetyResponse fc false :: post.
Proof.
  intros H ->. apply Forall_app in H as [_ H]. inversion H as [|? ? Hhead _].
  destruct Hhead.
Qed.

Lemma only_legacy_executeAction action args h :
  only not_refusal (Legacy.executeAction action args h).
Proof.
  unfold Legacy.executeAction. run_steps; try exact I;
    (eapply only_weaken; [exact plain_not_refusal|]); run_steps; auto with runs.
Qed.

Lemma contents_legacy_executeAction action args h :
  preserves contents (Legacy.executeAction action args h).
Proof. unfold Legacy.executeAction. run_steps; auto with runs. Qed.

(** The responses gathered by the older loop hold a denial record for every
    refusal received. *)
Lemma legacy_forEachCall_records calls :
  forall acc w frs w' evs,
    Legacy.forEachCall calls acc w = (Value frs, w', evs) ->
    incl acc frs
    /\ (forall pre fc post,
           evs = pre ++ EvSafetyResponse fc false :: post ->
           In (Legacy.buildFunctionResponse (fc_name fc) Legacy.denied false) frs)
    /\ contents w' = contents w.
Proof.
  induction calls as [|fc calls IH]; intros acc w frs w' evs H;
    cbn [Legacy.forEachCall] in H.
  { injection H as <- <- <-. repeat split; [apply incl_refl|].
    intros pre fc post Heq. destruct pre; discriminate. }
  rewrite bind_get in H. destruct (shouldStop w).
  { injection H as <- <- <-. repeat split; [apply incl_refl|].
    intros pre fc' post Heq. destruct pre; discriminate. }
  rewrite legacy_requires_same in H.
  assert (Hgo : forall w1 e2,
             bind (Legacy.executeAction (fc_name fc) (fc_args fc) (highlightMouse w))
               (fun result =>
                  sleep 200;;
                  Legacy.forEachCall calls
                    (acc ++ [ Legacy.buildFunctionResponse (fc_name fc) result
                                (required (requiresSafetyConfirmation fc)) ]))
               w1 = (Value frs, w', e2) ->
             incl acc frs
             /\ (forall pre fc' post,
                    e2 = pre ++ EvSafetyResponse fc' false :: post ->
                    In (Legacy.buildFunctionResponse (fc_name fc') Legacy.denied false) frs)
             /\ contents w' = contents w1).
  { intros w1 e2 Hrun.
    apply bind_inv_value in Hrun as (result & w2 & e_ex & e3 & Hexec & Hrun & ->).
    apply bind_inv_value in Hrun as ([] & w3 & e_sl & e4 & Hsleep & Hrun & ->).
    destruct (IH _ _ _ _ _ Hrun) as (Hincl & Hrec & Hcont).
    split; [|split].
    - intros x Hx. apply Hincl, in_or_app. now left.
    - intros pre fc' post Heq.
      apply skip_non_refusals in Heq as (pre2 & Heq);
        [|exact (only_run _ _ _ _ _ _ (only_legacy_executeAction _ _ _) Hexec)].
      apply skip_non_refusals in Heq as (pre3 & Heq).
      + exact (Hrec _ _ _ Heq).
      + eapply Forall_impl; [|apply plain_not_refusal].
        exact (only_run _ _ _ _ _ _ (only_sleep 200) Hsleep).
    - rewrite Hcont.
      rewrite (preserves_run _ _ _ _ _ _ (contents_sleep 200) Hsleep).
      exact (preserves_run _ _ _ _ _ _ (contents_legacy_executeAction _ _ _) Hexec). }
  destruct (required (requiresSafetyConfirmation fc)) eqn:Hreq.
  - apply bind_inv_value in H as (allowed & w1 & e1 & e2 & Hask & Hrun & ->).
    destruct (requestSafetyConfirmation_run fc
                (explanation (requiresSafetyConfirmation fc)) w)
      as [(allowed' & w1' & Hask' & Hc1)|(w1' & evs' & Hask' & _)];
      rewrite Hask' in Hask; [|discriminate].
    injection Hask as -> -> <-.
    destruct allowed; cbn [negb] in Hrun.
    + destruct (Hgo _ _ Hrun) as (Hincl & Hrec & Hcont).
      split; [exact Hincl|]. split; [|congruence].
      intros pre fc' post Heq.
      apply (skip_non_refusals [_; _]) in Heq as (pre2 & Heq);
        [|repeat constructor].
      exact (Hrec _ _ _ Heq).
    + destruct (IH _ _ _ _ _ Hrun) as (Hincl & Hrec & Hcont).
      split; [|split; [|congruence]].
      * intros x Hx. apply Hincl, in_or_app. now left.
      * intros pre fc' post Heq.
        apply (app_eq_middle _ [_; _]) in Heq
          as [(post1 & Heq & _)|(pre2 & _ & Heq)]; [|exact (Hrec _ _ _ Heq)].
        apply cons_eq_middle in Heq as [(_ & Hhead & _)|(p1 & -> & Heq)];
          [discriminate|].
        apply cons_eq_middle in Heq as [(_ & Hhead & _)|(p2 & -> & Heq)];
          [|destruct p2; discriminate].
        injection Hhead as <-. apply Hincl, in_or_app. right. now left.
  - rewrite bind_ret in H. cbn [negb] in H. exact (Hgo _ _ H).
Qed.

Lemma sendToSidepanel_run m w : sendToSidepanel m w = (Value tt, w, [EvSidepanel m]).
Proof. reflexivity. Qed.

(** A round of the older loop that goes on to the next one has put every
    refusal on record in the user turn it appended. *)
Lemma legacy_loopBody_records w w' evs :
  Legacy.loopBody w = (Value Legacy.Next, w', evs) ->
  exists older frs image,
    contents w' = older ++ [ {| role := "user"; parts := Some (frs ++ [ image ]) |} ]
    /\ forall pre fc post,
         evs = pre ++ EvSafetyResponse fc false :: post ->
         In (Legacy.buildFunctionResponse (fc_name fc) Legacy.denied false) frs.
Proof.
  unfold Legacy.loopBody. intros H.
  apply bind_inv_value in H as (got & w1 & e1 & e2 & Htry & H & ->).
  assert (He1 : Forall not_refusal e1).
  { eapply Forall_impl; [|apply plain_not_refusal].
    refine (only_run plain _ _ _ _ _ _ Htry). run_steps; auto with runs. }
  destruct got as [[response|]|]; try discriminate.
  rewrite bind_modify in H.
  apply bind_inv_value in H as ([] & w2 & e_s & e3 & Hsend & H & ->).
  rewrite sendToSidepanel_run in Hsend. injection Hsend as <- <-.
  destruct (length (Legacy.extractFunctionCalls (Legacy.reply_parts response)) =? 0)%nat.
  { rewrite bind_modify in H. discriminate. }
  apply bind_inv_value in H as (frs & w3 & e_for & e4 & Hfor & H & ->).
  rewrite bind_get in H. destruct (shouldStop w3); [discriminate|].
  apply bind_inv_value in H as ([] & w4 & e_set & e5 & Hset & H & ->).
  apply bind_inv_value in H as (shot & w5 & e_cap & e6 & Hcap & H & ->).
  rewrite bind_modify in H.
  apply bind_inv_value in H as ([] & w6 & e_sl & e7 & Hsl & H & ->).
  injection H as <- <-.
  destruct (legacy_forEachCall_records _ _ _ _ _ _ Hfor) as (_ & Hrec & _).
  eexists _, frs, _. split.
  - rewrite (preserves_run _ _ _ _ _ _ (contents_sleep 300) Hsl). reflexivity.
  - intros pre fc post Heq.
    apply skip_non_refusals in Heq as (pre2 & Heq); [|exact He1].
    apply (skip_non_refusals [_]) in Heq as (pre3 & Heq); [|repeat constructor].
    apply app_eq_middle in Heq as [(post1 & Heq & _)|(pre4 & _ & Heq)];
      [exact (Hrec _ _ _ Heq)|].
    exfalso. revert Heq. apply no_refusal_among.
    repeat (apply Forall_app; split); try constructor;
      (eapply Forall_impl; [|apply plain_not_refusal]).
    + exact (only_run _ _ _ _ _ _ only_waitForPageSettle Hset).
    + exact (only_run _ _ _ _ _ _ only_captureScreenshot Hcap).
    + exact (only_run _ _ _ _ _ _ (only_sleep 300) Hsl).
Qed.

End RefusalsInTheOlderLoop.

(** ** The claims about the safety gate *)

Section SafetyClaims.
Import BrowserAgent Runtime.
Local Open Scope js_scope.

Lemma refusal_not_followed_by_execution evs pre fc post :
  executed_only_once_allowed evs ->
  gated (fc_name fc) (fc_args fc) = true ->
  evs <> pre ++ EvSafetyResponse fc false
             :: EvExecuteAction (fc_name fc) (fc_args fc) :: post.
Proof.
  intros Hgate Hgated Heq.
  destruct (Hgate (pre ++ [EvSafetyResponse fc false]) (fc_name fc) (fc_args fc) post)
    as (pre' & expl & Hpre); [now rewrite <- app_assoc|exact Hgated|].
  change [EvSidepanel (SAFETY_CONFIRMATION
                         {| fc_name := fc_name fc; fc_args := fc_args fc |} expl);
          EvSafetyResponse {| fc_name := fc_name fc; fc_args := fc_args fc |} true]
    with ([EvSidepanel (SAFETY_CONFIRMATION
                          {| fc_name := fc_name fc; fc_args := fc_args fc |} expl)]
          ++ [EvSafetyResponse {| fc_name := fc_name fc; fc_args := fc_args fc |} true])
    in Hpre.
  rewrite app_assoc in Hpre. apply app_inj_tail in Hpre as [_ Hlast]. discriminate.
Qed.

(** C1, as the code has it.  In both workers, whatever the model, the user
    and the page do, the executor is entered for a call that needs
    confirmation only right after the side panel was asked about that very
    call and answered to allow it; a refusal is never followed by the
    execution of the refused call.  In the older worker a round that goes on
    has appended a user turn that holds, for every refusal received, a
    function response [{ denied: true, reason: 'User denied action' }] under
    the name of the refused call.  (The current worker keeps no such
    record.) *)
Theorem C1_gated_calls_wait_for_the_answer :
  (forall fuel prompt w,
      executed_only_once_allowed (events (ServiceWorker.runAgentLoop fuel prompt) w)
      /\ executed_only_once_allowed (events (Legacy.runAgentLoop fuel prompt) w))
  /\ (forall w,
         executed_only_once_allowed (events ServiceWorker.runOneIteration w)
         /\ executed_only_once_allowed (events Legacy.loopBody w))
  /\ (forall fuel prompt w pre fc post,
         gated (fc_name fc) (fc_args fc) = true ->
         events (ServiceWorker.runAgentLoop fuel prompt) w
         <> pre ++ EvSafetyResponse fc false
                :: EvExecuteAction (fc_name fc) (fc_args fc) :: post
         /\ events (Legacy.runAgentLoop fuel prompt) w
            <> pre ++ EvSafetyResponse fc false
                   :: EvExecuteAction (fc_name fc) (fc_args fc) :: post)
  /\ (forall w w' evs,
         Legacy.loopBody w = (Value Legacy.Next, w', evs) ->
         exists older frs image,
           contents w'
           = older ++ [ {| role := "user"; parts := Some (frs ++ [ image ]) |} ]
           /\ forall pre fc post,
                evs = pre ++ EvSafetyResponse fc false :: post ->
                In (functionResponsePart
                      {| fr_name := fc_name fc;
                         fr_response :=
                           ContentScript.obj [ ("denied", JBool true);
                                               ("reason", JStr "User denied action") ];
                         fr_parts := PartsAbsent |}) frs).
Proof.
  split; [|split; [|split]].
  - intros fuel prompt w. split; apply well_gated_sound.
    + apply runAgentLoop_well_gated.
    + apply legacy_runAgentLoop_well_gated.
  - intros w. split; apply well_gated_sound.
    + apply runOneIteration_well_gated.
    + apply legacy_loopBody_well_gated.
  - intros fuel prompt w pre fc post Hgated.
    split; apply refusal_not_followed_by_execution; try exact Hgated;
      apply well_gated_sound.
    + apply runAgentLoop_well_gated.
    + apply legacy_runAgentLoop_well_gated.
  - intros w w' evs Hrun. exact (legacy_loopBody_records w w' evs Hrun).
Qed.

(** C1 fails on the record: in the current worker a refused call ends the
    iteration, and the history then holds the model's turn and nothing that
    marks the call as denied. *)
Lemma C1_current_worker_keeps_no_record :
  In (EvSafetyResponse gated_click_call false)
     (events ServiceWorker.runOneIteration refused_click)
  /\ outcome ServiceWorker.runOneIteration refused_click = Value ServiceWorker.COMPLETE
  /\ contents (after ServiceWorker.runOneIteration refused_click)
     = task ++ [ {| role := "model";
                    parts := Some [ callPart "click_at" gated_click ] |} ]
  /\ records_denial (contents (after ServiceWorker.runOneIteration refused_click))
     = false.
Proof.
  repeat split; try (vm_compute; reflexivity).
  vm_compute. do 3 right. left. reflexivity.
Qed.

Lemma C1_older_worker_witness :
  records_denial (contents (after Legacy.loopBody refused_click_then_navigate)) = true
  /\ exists older frs image,
       contents (after Legacy.loopBody refused_click_then_navigate)
       = older ++ [ {| role := "user"; parts := Some (frs ++ [ image ]) |} ]
       /\ In (functionResponsePart
                {| fr_name := "click_at";
                   fr_response :=
                     ContentScript.obj [ ("denied", JBool true);
                                         ("reason", JStr "User denied action") ];
                   fr_parts := PartsAbsent |}) frs.
Proof.
  split; [vm_compute; reflexivity|].
  destruct C1_gated_calls_wait_for_the_answer as (_ & _ & _ & Hrecord).
  destruct (Hrecord refused_click_then_navigate
              (after Legacy.loopBody refused_click_then_navigate)
              (events Legacy.loopBody refused_click_then_navigate))
    as (older & frs & image & Hcont & Hin); [vm_compute; reflexivity|].
  exists older, frs, image. split; [exact Hcont|].
  apply (Hin (take 3 (events Legacy.loopBody refused_click_then_navigate))
             gated_click_call
             (drop 4 (events Legacy.loopBody refused_click_then_navigate))).
  vm_compute; reflexivity.
Defined.

(** C2, as the code has it.  In the current worker a refusal is the last
    thing that happens in the iteration, which returns COMPLETE, and with it
    in the loop, which ends: no later call of the batch reaches the
    executor.  (The older worker only skips the refused call.) *)
Theorem C2_refusal_ends_the_iteration :
  (forall w pre fc post,
      events ServiceWorker.runOneIteration w
      = pre ++ EvSafetyResponse fc false :: post ->
      post = []
      /\ outcome ServiceWorker.runOneIteration w = Value ServiceWorker.COMPLETE)
  /\ (forall fuel w pre fc post,
         events (ServiceWorker.iterate fuel) w
         = pre ++ EvSafetyResponse fc false :: post ->
         post = [] /\ outcome (ServiceWorker.iterate fuel) w = Value tt).
Proof.
  split.
  - exact runOneIteration_ends.
  - intros fuel. exact (iterate_ends fuel).
Qed.

(** C2 fails in the older worker: after the refused click the navigation of
    the same batch is executed, and the loop goes on. *)
Lemma C2_older_worker_executes_the_rest :
  executed_after_refusal (events Legacy.loopBody refused_click_then_navigate)
  = [ "navigate" ]
  /\ outcome Legacy.loopBody refused_click_then_navigate = Value Legacy.Next.
Proof. split; vm_compute; reflexivity. Qed.

Lemma C2_refusal_witness :
  drop 4 (events ServiceWorker.runOneIteration refused_click) = []
  /\ outcome ServiceWorker.runOneIteration refused_click = Value ServiceWorker.COMPLETE.
Proof.
  destruct C2_refusal_ends_the_iteration as [Hend _].
  apply (Hend refused_click
           (take 3 (events ServiceWorker.runOneIteration refused_click))
           gated_click_call).
  vm_compute; reflexivity.
Defined.

End SafetyClaims.

(** ** The url of action results *)

Section ActionResults.
Import Runtime ContentScript.

Lemma unknown_action_answer_lacks_url pg action args :
  handler_of action = None ->
  fst (onExecuteAction pg action args) !! "url" = None.
Proof. intros H. unfold onExecuteAction. now rewrite H. Qed.

Lemma raising_handler_answer_lacks_url pg action args handler msg :
  handler_of action = Some handler -> handler pg args = Raises msg ->
  fst (onExecuteAction pg action args) !! "url" = None.
Proof. intros H Hr. unfold onExecuteAction. now rewrite H, Hr. Qed.

(** C8 on the code.  The result of the executor for an action outside the
    vocabulary is the content script's answer
    [{ success: false, error: 'Unknown action: frobnicate' }], which has no
    [url]; so has, in the older worker, the result of a failed injection.
    The sibling paths of the current worker do carry one: the failed
    injection, and the function response the iteration builds from the
    url-less result, which falls back on the tab's url.  The older loop
    has no such fallback: the function response it appends after the
    failed injection has no [url]. *)
Theorem C8_unknown_action_result_has_no_url :
  outcome (ServiceWorker.executeAction "frobnicate" ∅ false) unknown_action
  = Value (obj [ ("success", JBool false);
                 ("error", JStr "Unknown action: frobnicate") ])
  /\ obj [ ("success", JBool false);
           ("error", JStr "Unknown action: frobnicate") ] !! "url" = None
  /\ outcome (Legacy.executeAction "click_at" ∅ false) no_content_script
     = Value (obj [ ("success", JBool false);
                    ("error", JStr "Failed to inject content script: Cannot access a chrome:// URL") ])
  /\ outcome (ServiceWorker.executeAction "click_at" ∅ false) no_content_script
     = Value (obj [ ("success", JBool false);
                    ("error", JStr "Failed to inject content script: Cannot access a chrome:// URL");
                    ("url", JStr "https://example.org/start") ])
  /\ last (contents (after ServiceWorker.runOneIteration unknown_action))
     = Some {| role := "user";
               parts :=
                 Some [ functionResponsePart
                          {| fr_name := "frobnicate";
                             fr_response :=
                               obj [ ("url", JStr "https://example.org/start") ];
                             fr_parts :=
                               PartsArray [ {| mimeType := "image/png";
                                               data := "iVBORw0KGgo" |} ] |} ] |}
  /\ last (contents (after Legacy.loopBody click_without_content_script))
     = Some {| role := "user";
               parts :=
                 Some [ functionResponsePart
                          {| fr_name := "click_at";
                             fr_response :=
                               obj [ ("success", JBool false);
                                     ("error", JStr "Failed to inject content script: Cannot access a chrome:// URL") ];
                             fr_parts := PartsAbsent |};
                        imagePart {| mimeType := "image/png";
                                     data := "iVBORw0KGgo" |} ] |}.
Proof. repeat split; vm_compute; reflexivity. Qed.

End ActionResults.

(* ===================================================================== *)
(** * Part III: further properties of the code                            *)
(* ===================================================================== *)

Import Observations.

(** ** The viewport: points, bounds and validity *)

Section ViewportProperties.
Import Coordinates Viewport.

Lemma Qle_bool_inject (a b : Z) :
  Qle_bool (inject_Z a) (inject_Z b) = (a <=? b)%Z.
Proof. unfold Qle_bool; simpl. now rewrite !Z.mul_1_r. Qed.

Lemma lt_inject (a b : Z) : lt (inject_Z a) (inject_Z b) = (a <? b)%Z.
Proof. unfold lt. rewrite Qle_bool_inject. now rewrite Z.ltb_antisym. Qed.

Lemma isValidNormalizedCoords_inject (nx ny : Z) :
  isValidNormalizedCoords (inject_Z nx) (inject_Z ny) = true
  <-> (0 <= nx < 1000 /\ 0 <= ny < 1000)%Z.
Proof.
  unfold isValidNormalizedCoords, NORMALIZED_MAX.
  change (0 : Q) with (inject_Z 0). change (1000 : Q) with (inject_Z 1000).
  rewrite !Qle_bool_inject, !lt_inject, !andb_true_iff. lia.
Qed.

Lemma isWithinViewport_inject (px py w h : Z) :
  isWithinViewport (inject_Z px) (inject_Z py) (inject_Z w) (inject_Z h) = true
  <-> (0 <= px < w /\ 0 <= py < h)%Z.
Proof.
  unfold isWithinViewport. change (0 : Q) with (inject_Z 0).
  rewrite !Qle_bool_inject, !lt_inject, !andb_true_iff. lia.
Qed.

Lemma denormalizeY_div (v e : Z) :
  denormalizeY (inject_Z v) (inject_Z e) = ((2 * (v * e) + 1000) / 2000)%Z.
Proof. exact (denormalizeX_div v e). Qed.

Lemma normalizeY_div (p e : Z) :
  (0 < e)%Z -> normalizeY (inject_Z p) (inject_Z e) = ((2000 * p + e) / (2 * e))%Z.
Proof. exact (normalizeX_div p e). Qed.

Lemma denormalize_bounds (v e : Z) :
  (0 <= v < 1000)%Z -> (0 < e)%Z ->
  (0 <= (2 * (v * e) + 1000) / 2000 <= e)%Z
  /\ ((500 < e)%Z -> ((2 * (v * e) + 1000) / 2000 < e)%Z).
Proof.
  intros Hv He.
  assert (Hve : (0 <= v * e <= 999 * e)%Z) by nia.
  split; [split|intros Hbig].
  - apply Z.div_pos; lia.
  - apply Z.lt_succ_r. apply Z.div_lt_upper_bound; lia.
  - apply Z.div_lt_upper_bound; lia.
Qed.

Lemma normalize_bounds (p e : Z) :
  (0 <= p < e)%Z ->
  (0 <= (2000 * p + e) / (2 * e) <= 1000)%Z
  /\ ((e < 2000)%Z -> ((2000 * p + e) / (2 * e) < 1000)%Z).
Proof.
  intros Hp.
  split; [split|intros Hsmall].
  - apply Z.div_pos; lia.
  - apply Z.lt_succ_r. apply Z.div_lt_upper_bound; lia.
  - apply Z.div_lt_upper_bound; lia.
Qed.







Lemma narrow_viewport_loses_coordinates :
  normalizeX (inject_Z (denormalizeX 1 400)) 400 = 0%Z.
Proof. reflexivity. Qed.

Lemma Math_round_monotone (a b : Q) :
  (a <= b)%Q -> (Math_round a <= Math_round b)%Z.
Proof.
  intros H. unfold Math_round. apply Qfloor_resp_le.
  apply Qplus_le_compat; [exact H|apply Qle_refl].
Qed.



Lemma Qle_bool_false (a b : Q) : Qle_bool a b = false -> (b < a)%Q.
Proof.
  intros H. apply Qnot_le_lt. intros Hle. apply Qle_bool_iff in Hle. congruence.
Qed.

(** X1.  [clamp] returns a value between [min] and [max] whenever
    [min <= max]: the value itself when it lies in the range, [min] when
    it lies below and [max] when it lies above.  With the bounds crossed
    ([max < min]) it returns [min], whatever the value. *)
Theorem clamp_stays_within_bounds (value min max : Q) :
  ((min <= max)%Q ->
     (min <= clamp value min max <= max)%Q
     /\ ((min <= value <= max)%Q -> (clamp value min max == value)%Q)
     /\ ((value <= min)%Q -> (clamp value min max == min)%Q)
     /\ ((max <= value)%Q -> (clamp value min max == max)%Q))
  /\ ((max < min)%Q -> clamp value min max = min).
Proof.
  unfold clamp, Math_max, Math_min.
  destruct (Qle_bool max value) eqn:E1;
    [apply Qle_bool_iff in E1|apply Qle_bool_false in E1].
  - destruct (Qle_bool min max) eqn:E2;
      [apply Qle_bool_iff in E2|apply Qle_bool_false in E2].
    + split; [intros _|intros H; lra].
      repeat split; intros; lra.
    + split; [intros H; lra|reflexivity].
  - destruct (Qle_bool min value) eqn:E2;
      [apply Qle_bool_iff in E2|apply Qle_bool_false in E2].
    + split; [intros _|intros H; lra].
      repeat split; intros; lra.
    + split; [intros H|reflexivity].
      repeat split; intros; lra.
Qed.

Lemma clamp_witness : (0 <= clamp 1500 0 999 <= 999)%Q.
Proof.
  destruct (clamp_stays_within_bounds 1500 0 999) as [H _].
  destruct H as [Hb _]; [lra|exact Hb].
Defined.

End ViewportProperties.

(** ** The history and the replies *)

Section HistoryProperties.
Import BrowserAgent.

Lemma screenshot_turns_cleanup (contents : list Content) :
  (screenshot_turns (_cleanupOldScreenshots contents) <= 3)%nat.
Proof.
  unfold screenshot_turns, _cleanupOldScreenshots.
  rewrite filter_reverse_bool, filter_cleanup_from, length_reverse, length_take.
  unfold MAX_RECENT_TURN_WITH_SCREENSHOTS. lia.
Qed.


Lemma append_nonempty (a b : string) : a <> "" -> a +:+ b <> "".
Proof. destruct a; [congruence|discriminate]. Qed.

Lemma join_nonempty (sep : string) (l : list string) :
  l <> [] -> Forall (fun s => s <> "") l -> join sep l <> "".
Proof.
  destruct l as [|x l]; [congruence|]. intros _ H.
  apply Forall_cons in H as [Hx _].
  destruct l; simpl; [exact Hx|]. now apply append_nonempty.
Qed.

Lemma texts_where_spec (keep : Part -> bool) (ps : list Part) (t : string) :
  In t (texts_where keep ps)
  <-> exists p, In p ps /\ keep p = true /\ text p = Some t.
Proof.
  unfold texts_where. induction ps as [|p ps IH]; simpl.
  - split; [intros []|intros (p & [] & _)].
  - destruct (keep p) eqn:Hk; [destruct (text p) as [t'|] eqn:Ht|]; simpl.
    + rewrite IH. split.
      * intros [->|(q & Hq & Hkq & Htq)]; eauto 6.
      * intros (q & [->|Hq] & Hkq & Htq); [left; congruence|right; eauto].
    + rewrite IH. split.
      * intros (q & Hq & Hkq & Htq); eauto 6.
      * intros (q & [->|Hq] & Hkq & Htq); [congruence|eauto].
    + rewrite IH. split.
      * intros (q & Hq & Hkq & Htq); eauto 6.
      * intros (q & [->|Hq] & Hkq & Htq); [congruence|eauto].
Qed.

Lemma texts_where_nonempty (keep : Part -> bool) (ps : list Part) :
  (forall p, keep p = true -> truthy_str (text p) = true) ->
  Forall (fun s => s <> "") (texts_where keep ps).
Proof.
  intros Hkeep. apply List.Forall_forall. intros t Ht.
  apply texts_where_spec in Ht as (p & _ & Hk & Htext).
  specialize (Hkeep p Hk). rewrite Htext in Hkeep. simpl in Hkeep.
  intros ->. discriminate.
Qed.

Lemma joined_texts (sep : string) (keep : Part -> bool) (ps : list Part) :
  (forall p, keep p = true -> truthy_str (text p) = true) ->
  let r := if (0 <? length (texts_where keep ps))%nat
           then Some (join sep (texts_where keep ps)) else None in
  r <> Some ""
  /\ (truthy_str r = true
      <-> exists p t, In p ps /\ keep p = true /\ text p = Some t).
Proof.
  intros Hkeep. cbv zeta.
  pose proof (texts_where_nonempty keep ps Hkeep) as Hne.
  destruct (texts_where keep ps) as [|t l] eqn:Hl.
  - simpl. split; [discriminate|]. split; [discriminate|].
    intros (p & t & Hp & Hk & Ht).
    assert (Hin : In t (texts_where keep ps)) by (apply texts_where_spec; eauto).
    rewrite Hl in Hin. destruct Hin.
  - assert (Hj : join sep (t :: l) <> "") by (now apply join_nonempty).
    change (0 <? length (t :: l))%nat with true. cbv iota.
    split; [intros H; injection H as H; contradiction|]. split.
    + intros _.
      assert (Hin : In t (texts_where keep ps)) by (rewrite Hl; now left).
      apply texts_where_spec in Hin as (p & Hp & Hk & Ht). eauto.
    + intros _. unfold truthy_str.
      destruct (String.eqb_spec (join sep (t :: l)) ""); [contradiction|reflexivity].
Qed.

(** X7.  [getText] and [extractThoughtSummary] return [null] or a
    non-empty string, never the empty string.  [getText] returns a string
    exactly when some part of the candidate holds a non-empty text that is
    not a thought, [extractThoughtSummary] exactly when some part holds a
    non-empty text that is a thought. *)
Theorem reply_text_is_null_or_nonempty (candidate : Candidate) :
  getText candidate <> Some ""
  /\ extractThoughtSummary candidate <> Some ""
  /\ (truthy_str (getText candidate) = true
      <-> exists ps p t,
            candidate_parts candidate = Some ps /\ In p ps
            /\ text p = Some t /\ t <> "" /\ thought p = false)
  /\ (truthy_str (extractThoughtSummary candidate) = true
      <-> exists ps p t,
            candidate_parts candidate = Some ps /\ In p ps
            /\ text p = Some t /\ t <> "" /\ thought p = true).
Proof.
  unfold getText, extractThoughtSummary.
  destruct (candidate_parts candidate) as [ps|].
  2:{ repeat split; try discriminate; intros (ps & p & t & H & _); discriminate. }
  destruct (joined_texts "" (fun part => truthy_str (text part) && negb (thought part)) ps)
    as [Hn1 Ht1].
  { intros p Hp. now apply andb_true_iff in Hp as [Hp _]. }
  destruct (joined_texts newline (fun part => thought part && truthy_str (text part)) ps)
    as [Hn2 Ht2].
  { intros p Hp. now apply andb_true_iff in Hp as [_ Hp]. }
  split; [exact Hn1|]. split; [exact Hn2|]. split.
  - rewrite Ht1. split.
    + intros (p & t & Hp & Hk & Ht). exists ps, p, t.
      apply andb_true_iff in Hk as [Hk1 Hk2]. rewrite Ht in Hk1. simpl in Hk1.
      repeat split; try assumption.
      * intros ->. discriminate.
      * now destruct (thought p).
    + intros (ps' & p & t & Hps & Hp & Ht & Hne & Hth). injection Hps as <-.
      exists p, t. repeat split; try assumption.
      rewrite Ht, Hth. simpl. destruct (String.eqb_spec t ""); [contradiction|reflexivity].
  - rewrite Ht2. split.
    + intros (p & t & Hp & Hk & Ht). exists ps, p, t.
      apply andb_true_iff in Hk as [Hk1 Hk2]. rewrite Ht in Hk2. simpl in Hk2.
      repeat split; try assumption.
      intros ->. discriminate.
    + intros (ps' & p & t & Hps & Hp & Ht & Hne & Hth). injection Hps as <-.
      exists p, t. repeat split; try assumption.
      rewrite Ht, Hth. simpl. destruct (String.eqb_spec t ""); [contradiction|reflexivity].
Qed.

(** X8.  A function call requires confirmation exactly when its argument
    [safety_decision] is an object whose [decision] is the string
    require_confirmation.  The explanation returned with it is then always
    truthy (a default text stands in for a missing or empty one).  The
    [requiresSafetyConfirmation] of lib/api.js gives the same answer. *)
Theorem safety_check_is_explained (fc : FunctionCall) :
  (required (requiresSafetyConfirmation fc) = true ->
   truthy (explanation (requiresSafetyConfirmation fc)) = true)
  /\ (required (requiresSafetyConfirmation fc) = true
      <-> exists decision : gmap string JVal,
            fc_args fc !! "safety_decision" = Some (JObj decision)
            /\ decision !! "decision" = Some (JStr "require_confirmation"))
  /\ Legacy.requiresSafetyConfirmation fc = requiresSafetyConfirmation fc.
Proof.
  split; [|split].
  - unfold requiresSafetyConfirmation.
    destruct (is_require_confirmation _); [|discriminate]. simpl. intros _.
    destruct (truthy (prop "explanation" _)) eqn:E; [exact E|reflexivity].
  - unfold requiresSafetyConfirmation.
    destruct (fc_args fc !! "safety_decision") as [[| | | | |d]|] eqn:Hsd; simpl;
      try (split; [discriminate|intros (d' & H & _); discriminate]).
    destruct (d !! "decision") as [[| | | |s|]|] eqn:Hd; simpl;
      try (split; [discriminate|intros (d' & H & H'); congruence]).
    destruct (String.eqb_spec s "require_confirmation") as [->|Hne]; simpl.
    + split; [intros _; eauto|reflexivity].
    + split; [discriminate|intros (d' & H & H'); congruence].
  - unfold Legacy.requiresSafetyConfirmation, requiresSafetyConfirmation.
    destruct (default JUndefined (fc_args fc !! "safety_decision")); simpl;
      rewrite ?andb_false_r; reflexivity.
Qed.

Lemma safety_check_witness :
  truthy (explanation (requiresSafetyConfirmation gated_click_call)) = true.
Proof.
  destruct (safety_check_is_explained gated_click_call) as [H _].
  apply H. reflexivity.
Defined.

End HistoryProperties.

(** ** The gateway of the older worker *)

Ltac decide_tests :=
  repeat match goal with
    | H : (_ =? _)%Z = true |- _ => apply Z.eqb_eq in H
    | H : (_ =? _)%Z = false |- _ => apply Z.eqb_neq in H
    | H : (_ <? _)%nat = true |- _ => apply Nat.ltb_lt in H
    | H : (_ <? _)%nat = false |- _ => apply Nat.ltb_ge in H
    | H : _ && _ = true |- _ => apply andb_true_iff in H as [? ?]
    | H : negb _ = true |- _ => apply negb_true_iff in H
    | H : negb _ = false |- _ => apply negb_false_iff in H
    end.

Section Yields.
Import Runtime.
Local Open Scope js_scope.

Lemma yields_ret {A} (P : A -> Prop) a : P a -> yields P (ret a).
Proof. intros H w b Hb. unfold outcome, ret in Hb; simpl in Hb. congruence. Qed.

Lemma yields_bind {A B} (P : B -> Prop) (m : M A) (f : A -> M B) :
  (forall a, yields P (f a)) -> yields P (bind m f).
Proof.
  intros Hf w b. unfold outcome. rewrite bind_run.
  destruct (outcome m w) as [a| | |]; simpl; try discriminate.
  apply Hf.
Qed.

Lemma yields_throw {A} (P : A -> Prop) e : yields P (throw e).
Proof. intros w b Hb. discriminate. Qed.

Lemma yields_pending {A} (P : A -> Prop) : yields P pending.
Proof. intros w b Hb. discriminate. Qed.

Lemma yields_out_of_fuel {A} (P : A -> Prop) : yields P out_of_fuel.
Proof. intros w b Hb. discriminate. Qed.

Lemma yields_try_catch {A} (P : A -> Prop) (m : M A) handler :
  yields P m -> (forall e, yields P (handler e)) -> yields P (try_catch m handler).
Proof.
  intros Hm Hh w b. specialize (Hm w). unfold outcome, try_catch in *.
  destruct (m w) as [[[a|e| |] w1] e1]; simpl in *; try discriminate.
  - apply Hm.
  - specialize (Hh e w1). unfold outcome in Hh.
    destruct (handler e w1) as [[o w2] e2]; simpl in *. apply Hh.
Qed.

Lemma yields_weaken {A} (P Q : A -> Prop) (m : M A) :
  (forall a, P a -> Q a) -> yields P m -> yields Q m.
Proof. intros H Hm w a Ha. apply H, (Hm w a Ha). Qed.

End Yields.

Ltac yields_step :=
  match goal with
  | |- yields _ (Runtime.bind _ _) => apply yields_bind; intros
  | |- yields _ (Runtime.ret _) => apply yields_ret
  | |- yields _ (Runtime.throw _) => apply yields_throw
  | |- yields _ Runtime.pending => apply yields_pending
  | |- yields _ Runtime.out_of_fuel => apply yields_out_of_fuel
  | |- yields _ (Runtime.try_catch _ _) => apply yields_try_catch; [|intros]
  | |- yields _ (match ?x with _ => _ end) => destruct x eqn:?
  end.

Ltac yields_steps := repeat yields_step.

Section RoundsOfTheOlderGateway.
Import Runtime Legacy.
Local Open Scope js_scope.

Lemma fetches_app a b : fetches (a ++ b) = fetches a ++ fetches b.
Proof. apply omap_app. Qed.

#[local] Arguments Nat.ltb : simpl never.
#[local] Arguments Z.eqb : simpl never.
#[local] Arguments Z.leb : simpl never.
#[local] Arguments parseResponse : simpl never.
#[local] Arguments ok : simpl never.

(** One round of the loop of [callGeminiAPI], whatever the network does. *)
Lemma round_cases retries w o w' evs :
  round retries w = (o, w', evs) ->
  length (fetches evs) = 1%nat
  /\ ((o = Value Again /\ (retries < maxRetries)%nat /\ sleeps evs = [backoff retries])
      \/ (o <> Value Again /\ sleeps evs = []))
  /\ env_fetch (env w') = tail (env_fetch (env w))
  /\ (forall r rest,
         env_fetch (env w) = FetchResponds r :: rest ->
         (http_status r = 401%Z ->
          o = Throws (Error "Invalid API key or unauthorized access"))
         /\ (http_status r = 429%Z -> (retries < maxRetries)%nat -> o = Value Again)
         /\ (http_status r = 429%Z -> (maxRetries <= retries)%nat ->
             o = Throws (Error "Rate limited. Please try again later."))
         /\ (forall data reply,
                http_status r <> 401%Z -> http_status r <> 429%Z -> ok r = true ->
                http_json r = Some data -> parseResponse data = inr reply ->
                o = Value (Return reply))).
Proof.
  destruct w as [c fr ir ss p h [g f sa t se inj cap st]].
  unfold round, fetch, sleep, await_, stopAgent,
    sendToSidepanel, try_catch, bind, ask, get, emit, modify, throw, ret.
  intros H.
  repeat first
    [ progress simpl in H
    | match type of H with
      | context [match ?x with _ => _ end] =>
          lazymatch x with
          | context [match _ with _ => _ end] => fail
          | _ => destruct x eqn:?
          end
      end ].
  all: injection H as <- <- <-.
  all: decide_tests.
  all: split; [reflexivity|].
  all: split;
    [ first [ left; split; [reflexivity|]; split; [assumption|reflexivity]
            | right; split; [discriminate|reflexivity] ] |].
  all: split; [reflexivity|].
  all: intros r' rest' Hhead; try discriminate Hhead.
  all: injection Hhead as <- <-.
  all: repeat split; intros; subst; try reflexivity; try congruence; try lia.
Qed.

End RoundsOfTheOlderGateway.

Section OlderGateway.
Import Runtime Legacy.
Local Open Scope js_scope.

Lemma run_parts {A} (m : M A) w o w' e :
  m w = (o, w', e) -> outcome m w = o /\ after m w = w' /\ events m w = e.
Proof. intros H. unfold outcome, after, events. now rewrite H. Qed.

Lemma backoff_delays k :
  (k <= 3)%nat -> map backoff (seq 0 k) = take k [1000; 2000; 4000]%Z.
Proof.
  intros H. destruct k as [|[|[|[|k]]]]; try lia; reflexivity.
Qed.

(** The loop of [callGeminiAPI] from round [retries] on. *)
Lemma rounds_shape remaining retries w :
  (retries + remaining = maxRetries + 1)%nat -> (1 <= remaining)%nat ->
  exists k,
    (k < remaining)%nat
    /\ sleeps (events (rounds remaining retries) w) = map backoff (seq retries k)
    /\ length (fetches (events (rounds remaining retries) w)) = S k
    /\ outcome (rounds remaining retries) w <> Value None.
Proof.
  revert retries w. induction remaining as [|remaining IH]; intros retries w Hsum Hpos;
    [lia|].
  cbn [rounds]. unfold outcome, events. rewrite bind_run.
  destruct (round_cases retries w _ _ _ (run_eta _ w))
    as (Hfetch & [(Hagain & Hlt & Hsleep)|(Hother & Hsleep)] & _).
  - rewrite Hagain.
    destruct (IH (S retries) (after (round retries) w)) as (k & Hk & Hs & Hf & Hn);
      [unfold maxRetries in *; lia|unfold maxRetries in *; lia|].
    exists (S k). cbn [fst snd]. repeat split.
    + lia.
    + rewrite sleeps_app, Hsleep, Hs. reflexivity.
    + rewrite fetches_app, length_app, Hfetch, Hf. reflexivity.
    + exact Hn.
  - exists 0%nat.
    destruct (outcome (round retries) w) as [[|reply]| | |] eqn:Ho; cbn [fst snd];
      try contradiction; rewrite ?app_nil_r.
    all: repeat split; try lia; try assumption; try discriminate.
Qed.

(** [getModelResponse] from attempt [attempt] on never leaves its loop. *)
Lemma attempts_return_or_throw remaining attempt :
  (attempt + remaining = Agent.maxRetries)%nat -> (1 <= remaining)%nat ->
  yields (fun r => r <> None) (Agent.attempts remaining attempt).
Proof.
  revert attempt. induction remaining as [|remaining IH]; intros attempt Hsum Hpos;
    [lia|].
  cbn [Agent.attempts]. yields_steps; try discriminate.
  apply IH; unfold Agent.maxRetries in *;
    match goal with H : (_ =? _)%nat = false |- _ => apply Nat.eqb_neq in H end; lia.
Qed.

(** X9.  Neither gateway ever falls out of its retry loop: a call returns
    a response or throws (or never settles), it does not return
    [undefined]. *)
Theorem gateways_never_return_undefined (w : World) :
  outcome Agent.getModelResponse w <> Value None
  /\ outcome callGeminiAPI w <> Value None.
Proof.
  split.
  - intros H.
    apply (attempts_return_or_throw Agent.maxRetries 0 ltac:(reflexivity)
             ltac:(unfold Agent.maxRetries; lia) w None H). reflexivity.
  - destruct (rounds_shape (maxRetries + 1) 0 w) as (k & _ & _ & _ & H);
      [reflexivity|unfold maxRetries; lia|exact H].
Qed.

(** X10.  [callGeminiAPI] sends at most four requests; the delays between
    them are 1 s, 2 s and 4 s, in this order, one after each request but
    the last. *)
Theorem callGeminiAPI_sends_at_most_four_requests (w : World) :
  exists k,
    (k <= 3)%nat
    /\ sleeps (events callGeminiAPI w) = take k [1000; 2000; 4000]%Z
    /\ length (fetches (events callGeminiAPI w)) = S k.
Proof.
  destruct (rounds_shape (maxRetries + 1) 0 w) as (k & Hk & Hs & Hf & _);
    [reflexivity|unfold maxRetries; lia|].
  exists k. unfold maxRetries in Hk. split; [lia|]. split; [|exact Hf].
  unfold callGeminiAPI. rewrite Hs. apply backoff_delays. lia.
Qed.

(** Rounds answered by 429 while retries remain. *)
Lemma rounds_rate_limited rs :
  forall remaining retries w rest,
    env_fetch (env w) = map FetchResponds rs ++ rest ->
    Forall (fun r => http_status r = 429%Z) rs ->
    (retries + length rs <= maxRetries)%nat ->
    (length rs <= remaining)%nat ->
    exists w1 evs,
      rounds remaining retries w
      = (outcome (rounds (remaining - length rs) (retries + length rs)) w1,
         after (rounds (remaining - length rs) (retries + length rs)) w1,
         evs ++ events (rounds (remaining - length rs) (retries + length rs)) w1)
      /\ env_fetch (env w1) = rest
      /\ sleeps evs = map backoff (seq retries (length rs))
      /\ length (fetches evs) = length rs.
Proof.
  induction rs as [|r rs IH]; intros remaining retries w rest Henv Hall Hret Hrem.
  - exists w, []. simpl. rewrite Nat.sub_0_r, Nat.add_0_r.
    split; [apply run_eta|]. repeat split. exact Henv.
  - apply Forall_cons in Hall as [Hr Hall]. simpl in Henv, Hret, Hrem.
    destruct remaining as [|remaining]; [lia|].
    destruct (round_cases retries w _ _ _ (run_eta _ w))
      as (Hfetch & Hsl & Htail & Hresp).
    destruct (Hresp r _ Henv) as (_ & Hagain & _).
    specialize (Hagain Hr ltac:(lia)).
    destruct Hsl as [(_ & _ & Hsleep)|(Hno & _)]; [|contradiction].
    rewrite Henv in Htail. simpl in Htail.
    destruct (IH remaining (S retries) (after (round retries) w) rest Htail Hall)
      as (w1 & evs & Hrun & Henv1 & Hs & Hf); [lia|lia|].
    exists w1, (events (round retries) w ++ evs).
    cbn [rounds length]. rewrite bind_run, Hagain. cbv beta iota.
    replace (S remaining - S (length rs))%nat with (remaining - length rs)%nat by lia.
    replace (retries + S (length rs))%nat with (S retries + length rs)%nat by lia.
    destruct (run_parts _ _ _ _ _ Hrun) as (Ho & Ha & He).
    rewrite Ho, Ha, He, app_assoc. split; [reflexivity|]. split; [exact Henv1|]. split.
    + rewrite sleeps_app, Hsleep, Hs. reflexivity.
    + rewrite fetches_app, length_app, Hfetch, Hf. reflexivity.
Qed.

(** X11.  An answer 401 is final: one request, no delay, and the error
    [Invalid API key or unauthorized access]. *)
Theorem callGeminiAPI_gives_up_on_401 (w : World) (r : HttpResponse)
    (rest : list FetchOutcome) :
  env_fetch (env w) = FetchResponds r :: rest ->
  http_status r = 401%Z ->
  outcome callGeminiAPI w = Throws (Error "Invalid API key or unauthorized access")
  /\ sleeps (events callGeminiAPI w) = []
  /\ length (fetches (events callGeminiAPI w)) = 1%nat.
Proof.
  intros Henv H401. unfold callGeminiAPI. cbn [Nat.add maxRetries rounds].
  destruct (round_cases 0 w _ _ _ (run_eta _ w)) as (Hfetch & Hsl & _ & Hresp).
  destruct (Hresp r rest Henv) as (Hthrows & _). specialize (Hthrows H401).
  unfold outcome, events. rewrite bind_run, Hthrows. cbn [fst snd].
  destruct Hsl as [(Hagain & _)|(_ & Hsleep)]; [congruence|].
  repeat split; assumption.
Qed.

(** X12.  Rate limiting.  After [k <= 3] answers 429 a good answer is
    returned, the delays having been the first [k] of 1 s, 2 s, 4 s; a
    fourth 429 in a row ends the call with [Rate limited. Please try again
    later.] *)
Theorem callGeminiAPI_backs_off_when_rate_limited (w : World)
    (limited : list HttpResponse) (r : HttpResponse) (rest : list FetchOutcome) :
  env_fetch (env w) = map FetchResponds limited ++ FetchResponds r :: rest ->
  Forall (fun r => http_status r = 429%Z) limited ->
  (length limited <= 3)%nat ->
  (forall data reply,
      http_status r = 200%Z -> http_json r = Some data ->
      parseResponse data = inr reply ->
      outcome callGeminiAPI w = Value (Some reply)
      /\ sleeps (events callGeminiAPI w) = take (length limited) [1000; 2000; 4000]%Z
      /\ length (fetches (events callGeminiAPI w)) = S (length limited))
  /\ (http_status r = 429%Z -> length limited = 3%nat ->
      outcome callGeminiAPI w = Throws (Error "Rate limited. Please try again later.")
      /\ sleeps (events callGeminiAPI w) = [1000; 2000; 4000]%Z
      /\ length (fetches (events callGeminiAPI w)) = 4%nat).
Proof.
  intros Henv Hall Hlen. unfold callGeminiAPI.
  destruct (rounds_rate_limited limited (maxRetries + 1) 0 w _ Henv Hall)
    as (w1 & evs & Hrun & Henv1 & Hs & Hf);
    [unfold maxRetries; simpl; lia|unfold maxRetries; simpl; lia|].
  destruct (run_parts _ _ _ _ _ Hrun) as (-> & _ & ->). clear Hrun.
  cbn [Nat.add].
  destruct (maxRetries + 1 - length limited)%nat as [|remaining] eqn:Hrem;
    [unfold maxRetries in Hrem; lia|].
  destruct (round_cases (length limited) w1 _ _ _ (run_eta _ w1))
    as (Hfetch & Hsl & _ & Hresp).
  destruct (Hresp r rest Henv1) as (_ & _ & Hlimit & Hgood).
  assert (Hone : outcome (round (length limited)) w1 <> Value Again ->
                 sleeps (events (round (length limited)) w1) = []).
  { intros Hne. destruct Hsl as [(Ha & _)|(_ & Hsleep)]; [congruence|exact Hsleep]. }
  rewrite (backoff_delays _ Hlen) in Hs.
  assert (Hstep : rounds (S remaining) (length limited) w1
                  = match outcome (round (length limited)) w1 with
                    | Value a =>
                        let k := match a with
                                 | Return reply => ret (Some reply)
                                 | Again => rounds remaining (S (length limited))
                                 end in
                        (outcome k (after (round (length limited)) w1),
                         after k (after (round (length limited)) w1),
                         events (round (length limited)) w1
                         ++ events k (after (round (length limited)) w1))
                    | Throws e => (Throws e, after (round (length limited)) w1,
                                   events (round (length limited)) w1)
                    | Pending => (Pending, after (round (length limited)) w1,
                                  events (round (length limited)) w1)
                    | OutOfFuel => (OutOfFuel, after (round (length limited)) w1,
                                    events (round (length limited)) w1)
                    end).
  { cbn [rounds]. rewrite bind_run. now destruct (outcome (round (length limited)) w1) as [[|]| | |]. }
  split.
  - intros data reply H200 Hjson Hparse.
    assert (Ho : outcome (round (length limited)) w1 = Value (Return reply)).
    { apply (Hgood data reply); try assumption; try lia. unfold ok. now rewrite H200. }
    rewrite Ho in Hstep, Hone. cbv zeta in Hstep.
    destruct (run_parts _ _ _ _ _ Hstep) as (-> & _ & ->).
    split; [reflexivity|]. split.
    + rewrite !sleeps_app, Hs, Hone by discriminate. now rewrite !app_nil_r.
    + rewrite !fetches_app, !length_app, Hf, Hfetch. simpl. lia.
  - intros H429 Hfour.
    assert (Ho : outcome (round (length limited)) w1
                 = Throws (Error "Rate limited. Please try again later.")).
    { apply Hlimit; [assumption|unfold maxRetries; lia]. }
    rewrite Ho in Hstep, Hone.
    destruct (run_parts _ _ _ _ _ Hstep) as (-> & _ & ->).
    split; [reflexivity|]. split.
    + rewrite !sleeps_app, Hs, Hone by discriminate. rewrite Hfour. reflexivity.
    + rewrite !fetches_app, !length_app, Hf, Hfetch. lia.
Qed.

Lemma callGeminiAPI_401_witness :
  outcome callGeminiAPI
    (session task
       {| env_generate := [];
          env_fetch := [ FetchResponds {| http_status := 401; http_json := None |} ];
          env_safety := []; env_tabs := []; env_send := []; env_inject := [];
          env_capture := []; env_stop := [] |})
  = Throws (Error "Invalid API key or unauthorized access").
Proof.
  refine (proj1 (callGeminiAPI_gives_up_on_401 _ _ [] _ _)); reflexivity.
Defined.

Lemma callGeminiAPI_rate_limit_witness :
  outcome callGeminiAPI
    (session task
       {| env_generate := [];
          env_fetch := map FetchResponds
                         [ {| http_status := 429; http_json := None |};
                           {| http_status := 429; http_json := None |};
                           {| http_status := 429; http_json := None |} ]
                       ++ [ FetchResponds {| http_status := 429; http_json := None |} ];
          env_safety := []; env_tabs := []; env_send := []; env_inject := [];
          env_capture := []; env_stop := [] |})
  = Throws (Error "Rate limited. Please try again later.").
Proof.
  refine (proj1 (proj2 (callGeminiAPI_backs_off_when_rate_limited _ _ _ [] _ _ _) _ _));
    try reflexivity; try (repeat constructor); simpl; lia.
Defined.

End OlderGateway.

(** ** Escaping and key combinations *)

Section Escaping.
Import TrajectoryExport.

Lemma occurs_cons c d s : occurs c (String d s) <-> d = c \/ occurs c s.
Proof. reflexivity. Qed.

Lemma occurs_app c a b : occurs c (a +:+ b) <-> occurs c a \/ occurs c b.
Proof.
  induction a as [|d a IH].
  - rewrite string_app_nil_l. unfold occurs at 2; simpl. tauto.
  - rewrite string_app_cons, !occurs_cons, IH. tauto.
Qed.

Lemma entity_cases c :
  (entity c = None /\ c <> "&"%char /\ c <> "<"%char /\ c <> ">"%char
   /\ c <> quot /\ c <> "'"%char)
  \/ (c = "&"%char /\ entity c = Some "&amp;")
  \/ (c = "<"%char /\ entity c = Some "&lt;")
  \/ (c = ">"%char /\ entity c = Some "&gt;")
  \/ (c = quot /\ entity c = Some "&quot;")
  \/ (c = "'"%char /\ entity c = Some "&#039;").
Proof.
  unfold entity.
  destruct (Ascii.eqb_spec c "&") as [->|H1]; [tauto|].
  destruct (Ascii.eqb_spec c "<") as [->|H2]; [tauto|].
  destruct (Ascii.eqb_spec c ">") as [->|H3]; [tauto|].
  destruct (Ascii.eqb_spec c quot) as [->|H4]; [tauto|].
  destruct (Ascii.eqb_spec c "'") as [->|H5]; [tauto|].
  left. tauto.
Qed.

Lemma replace_special_app a b :
  replace_special (a +:+ b) = replace_special a +:+ replace_special b.
Proof.
  induction a as [|c a IH]; [now rewrite !string_app_nil_l|].
  rewrite string_app_cons. cbn [replace_special]. rewrite IH.
  destruct (entity c); [now rewrite string_app_assoc|now rewrite string_app_cons].
Qed.

Lemma replace_special_clean t c :
  occurs c (replace_special t) ->
  c <> "<"%char /\ c <> ">"%char /\ c <> quot /\ c <> "'"%char.
Proof.
  induction t as [|d t IH]; [intros []|].
  cbn [replace_special].
  destruct (entity_cases d) as [(-> & Hd)|[(-> & ->)|[(-> & ->)|[(-> & ->)|[(-> & ->)|(-> & ->)]]]]].
  - rewrite occurs_cons. intros [<-|H]; [tauto|exact (IH H)].
  - rewrite occurs_app. intros [H|H]; [|exact (IH H)].
    unfold occurs in H; simpl in H.
    repeat (destruct H as [<-|H]; [repeat split; discriminate|]). destruct H.
  - rewrite occurs_app. intros [H|H]; [|exact (IH H)].
    unfold occurs in H; simpl in H.
    repeat (destruct H as [<-|H]; [repeat split; discriminate|]). destruct H.
  - rewrite occurs_app. intros [H|H]; [|exact (IH H)].
    unfold occurs in H; simpl in H.
    repeat (destruct H as [<-|H]; [repeat split; discriminate|]). destruct H.
  - rewrite occurs_app. intros [H|H]; [|exact (IH H)].
    unfold occurs in H; simpl in H.
    repeat (destruct H as [<-|H]; [repeat split; discriminate|]). destruct H.
  - rewrite occurs_app. intros [H|H]; [|exact (IH H)].
    unfold occurs in H; simpl in H.
    repeat (destruct H as [<-|H]; [repeat split; discriminate|]). destruct H.
Qed.

Lemma replace_special_plain t :
  (forall c, occurs c t -> entity c = None) -> replace_special t = t.
Proof.
  induction t as [|d t IH]; [reflexivity|]. intros H.
  cbn [replace_special]. rewrite (H d) by (now left).
  f_equal. apply IH. intros c Hc. apply H. now right.
Qed.

Lemma escapeHtml_replace t : escapeHtml (Some t) = replace_special t.
Proof. unfold escapeHtml. destruct (String.eqb_spec t "") as [->|_]; reflexivity. Qed.

(** X19.  The text [escapeHtml] returns holds none of the characters
    [<], [>], the double quote and the single quote; escaping goes through
    concatenation; a text without special characters is returned as it
    is; a missing or empty text gives the empty string. *)
Theorem escapeHtml_leaves_no_markup :
  (forall text c,
      occurs c (escapeHtml text) ->
      c <> "<"%char /\ c <> ">"%char /\ c <> quot /\ c <> "'"%char)
  /\ (forall a b,
         escapeHtml (Some (a +:+ b)) = escapeHtml (Some a) +:+ escapeHtml (Some b))
  /\ (forall t,
         (forall c, occurs c t -> entity c = None) -> escapeHtml (Some t) = t)
  /\ escapeHtml None = "" /\ escapeHtml (Some "") = "".
Proof.
  split; [|split; [|split; [|split; reflexivity]]].
  - intros [t|] c; [|intros []].
    rewrite escapeHtml_replace. apply replace_special_clean.
  - intros a b. rewrite !escapeHtml_replace. apply replace_special_app.
  - intros t H. rewrite escapeHtml_replace. now apply replace_special_plain.
Qed.

Lemma escapeHtml_witness :
  escapeHtml (Some "click_at(10, 20)") = "click_at(10, 20)".
Proof.
  destruct escapeHtml_leaves_no_markup as (_ & _ & H & _).
  apply H. intros c Hc. unfold occurs in Hc; simpl in Hc.
  repeat (destruct Hc as [<-|Hc]; [reflexivity|]). destruct Hc.
Defined.

Lemma replace_special_injective a :
  forall b, replace_special a = replace_special b -> a = b.
Proof.
  induction a as [|c a IH]; intros [|d b] H.
  - reflexivity.
  - exfalso. cbn [replace_special] in H.
    destruct (entity_cases d) as [(E & _)|[(_ & E)|[(_ & E)|[(_ & E)|[(_ & E)|(_ & E)]]]]];
      rewrite E in H; discriminate H.
  - exfalso. cbn [replace_special] in H.
    destruct (entity_cases c) as [(E & _)|[(_ & E)|[(_ & E)|[(_ & E)|[(_ & E)|(_ & E)]]]]];
      rewrite E in H; discriminate H.
  - cbn [replace_special] in H.
    destruct (entity_cases c) as [(Ec & Hc)|[(-> & Ec)|[(-> & Ec)|[(-> & Ec)|[(-> & Ec)|(-> & Ec)]]]]];
    destruct (entity_cases d) as [(Ed & Hd)|[(-> & Ed)|[(-> & Ed)|[(-> & Ed)|[(-> & Ed)|(-> & Ed)]]]]];
    rewrite ?Ec, ?Ed in H;
    repeat rewrite ?string_app_cons, ?string_app_nil_l in H;
    simplify_eq; try (exfalso; tauto);
    f_equal; apply IH; assumption.
Qed.

(** X20.  [escapeHtml] loses nothing: two strings with the same escaped
    text are the same string. *)
Theorem escapeHtml_is_injective (a b : string) :
  escapeHtml (Some a) = escapeHtml (Some b) -> a = b.
Proof. rewrite !escapeHtml_replace. apply replace_special_injective. Qed.

Lemma escapeHtml_injective_witness : "a<b" = "a<b".
Proof. apply (escapeHtml_is_injective "a<b" "a<b"). reflexivity. Defined.

End Escaping.

Section KeyCombinations.
Import Actions.

Lemma split_nonempty sep s : split sep s <> [].
Proof.
  induction s as [|c s IH]; simpl; [discriminate|].
  destruct (Ascii.eqb c sep); [discriminate|]. now destruct (split sep s).
Qed.

Lemma split_no_separator sep s piece :
  In piece (split sep s) -> ~ occurs sep piece.
Proof.
  revert piece. induction s as [|c s IH]; intros piece; simpl.
  - intros [<-|[]] [].
  - destruct (Ascii.eqb_spec c sep) as [->|Hne].
    + intros [<-|H]; [intros []|now apply IH].
    + destruct (split sep s) as [|p ps] eqn:E; [now destruct (split_nonempty sep s)|].
      intros [<-|H].
      * rewrite occurs_cons. intros [Hc|Hp]; [congruence|].
        apply (IH p); [now left|exact Hp].
      * apply IH. now right.
Qed.

Lemma occurs_string_drop c n s : occurs c (Legacy.string_drop n s) -> occurs c s.
Proof.
  revert s. induction n as [|n IH]; intros [|d s]; simpl; try tauto.
  intros H. right. now apply IH.
Qed.

Lemma occurs_strip_leading c tokens fuel s :
  occurs c (Legacy.strip_leading tokens fuel s) -> occurs c s.
Proof.
  revert s. induction fuel as [|fuel IH]; intros s; simpl; [tauto|].
  destruct (List.find _ tokens); [|tauto].
  intros H. apply IH in H. now apply occurs_string_drop in H.
Qed.

Lemma occurs_rev_app c s1 s2 :
  occurs c (String.rev_app s1 s2) <-> occurs c s1 \/ occurs c s2.
Proof.
  revert s2. induction s1 as [|d s1 IH]; intros s2; simpl.
  - unfold occurs at 2; simpl. tauto.
  - rewrite IH, !occurs_cons. tauto.
Qed.

Lemma occurs_rev c s : occurs c (String.rev s) <-> occurs c s.
Proof.
  unfold String.rev. rewrite occurs_rev_app.
  split; [intros [H|[]]; exact H|intros H; left; exact H].
Qed.

Lemma occurs_trim c s : occurs c (Legacy.trim s) -> occurs c s.
Proof.
  unfold Legacy.trim. cbv zeta. intros H.
  apply (proj1 (occurs_rev _ _)) in H. apply occurs_strip_leading in H.
  apply (proj1 (occurs_rev _ _)) in H. now apply occurs_strip_leading in H.
Qed.

Lemma is_modifier_split lowerPart :
  is_case modifier_names lowerPart
  = is_case [ "control"; "ctrl" ] lowerPart || is_case [ "alt" ] lowerPart
    || is_case [ "shift" ] lowerPart || is_case [ "meta"; "command"; "cmd" ] lowerPart.
Proof.
  unfold is_case, modifier_names; simpl. rewrite !orb_false_r, <- !orb_assoc. reflexivity.
Qed.

Lemma case_groups_disjoint lowerPart :
  (is_case [ "control"; "ctrl" ] lowerPart = true ->
   is_case [ "alt" ] lowerPart = false /\ is_case [ "shift" ] lowerPart = false
   /\ is_case [ "meta"; "command"; "cmd" ] lowerPart = false)
  /\ (is_case [ "alt" ] lowerPart = true ->
      is_case [ "shift" ] lowerPart = false
      /\ is_case [ "meta"; "command"; "cmd" ] lowerPart = false)
  /\ (is_case [ "shift" ] lowerPart = true ->
      is_case [ "meta"; "command"; "cmd" ] lowerPart = false).
Proof.
  unfold is_case; simpl. rewrite !orb_false_r.
  split; [|split]; intros H;
    repeat match type of H with
           | _ || _ = true => apply orb_true_iff in H; destruct H as [H|H]
           end;
    apply String.eqb_eq in H; subst; repeat split; reflexivity.
Qed.

(** The loop, started in any state. *)
Lemma fold_onPart parts state :
  let r := fold_left onPart parts state in
  ctrlKey (modifiers r)
  = ctrlKey (modifiers state)
    || existsb (fun p => is_case [ "control"; "ctrl" ] (toLowerCase p)) parts
  /\ altKey (modifiers r)
     = altKey (modifiers state)
       || existsb (fun p => is_case [ "alt" ] (toLowerCase p)) parts
  /\ shiftKey (modifiers r)
     = shiftKey (modifiers state)
       || existsb (fun p => is_case [ "shift" ] (toLowerCase p)) parts
  /\ metaKey (modifiers r)
     = metaKey (modifiers state)
       || existsb (fun p => is_case [ "meta"; "command"; "cmd" ] (toLowerCase p)) parts
  /\ key r
     = default (key state)
         (last (List.filter
                  (fun p => negb (is_case modifier_names (toLowerCase p))) parts)).
Proof.
  revert state. induction parts as [|part parts IH]; intros state; cbn zeta.
  - simpl. rewrite !orb_false_r. repeat split.
  - cbn [fold_left existsb List.filter].
    specialize (IH (onPart state part)). cbn zeta in IH.
    destruct IH as (Hc & Ha & Hs & Hm & Hk).
    rewrite Hc, Ha, Hs, Hm, Hk. clear Hc Ha Hs Hm Hk.
    rewrite is_modifier_split.
    destruct (case_groups_disjoint (toLowerCase part)) as (D1 & D2 & D3).
    unfold onPart.
    destruct (is_case [ "control"; "ctrl" ] (toLowerCase part)) eqn:E1.
    { destruct (D1 eq_refl) as (-> & -> & ->). simpl.
      rewrite !orb_true_r. repeat split. }
    destruct (is_case [ "alt" ] (toLowerCase part)) eqn:E2.
    { destruct (D2 eq_refl) as (-> & ->). simpl.
      rewrite !orb_true_r. repeat split. }
    destruct (is_case [ "shift" ] (toLowerCase part)) eqn:E3.
    { rewrite (D3 eq_refl). simpl. rewrite !orb_true_r. repeat split. }
    destruct (is_case [ "meta"; "command"; "cmd" ] (toLowerCase part)) eqn:E4.
    { simpl. rewrite !orb_true_r. repeat split. }
    simpl. repeat split.
    destruct (List.filter _ parts) as [|q qs] eqn:Ef; [reflexivity|].
    rewrite !last_cons. now destruct (last qs).
Qed.

(** X13.  [parseKeyCombination] splits at [+] and trims the parts.  Each
    modifier flag is set exactly when one of the parts is, ignoring case,
    one of the names of that modifier; the key is the last part that is not
    the name of a modifier, the empty string when there is none; and the
    key never contains a [+]. *)
Theorem parseKeyCombination_reads_the_parts (keys : string) :
  let parts := map Legacy.trim (split "+" keys) in
  let r := parseKeyCombination keys in
  ctrlKey (modifiers r)
  = existsb (fun p => is_case [ "control"; "ctrl" ] (toLowerCase p)) parts
  /\ altKey (modifiers r) = existsb (fun p => is_case [ "alt" ] (toLowerCase p)) parts
  /\ shiftKey (modifiers r)
     = existsb (fun p => is_case [ "shift" ] (toLowerCase p)) parts
  /\ metaKey (modifiers r)
     = existsb (fun p => is_case [ "meta"; "command"; "cmd" ] (toLowerCase p)) parts
  /\ key r
     = default ""
         (last (List.filter
                  (fun p => negb (is_case modifier_names (toLowerCase p))) parts))
  /\ ~ occurs "+" (key r).
Proof.
  cbn zeta. unfold parseKeyCombination.
  destruct (fold_onPart (map Legacy.trim (split "+" keys))
              {| key := "";
                 modifiers := {| ctrlKey := false; altKey := false;
                                 shiftKey := false; metaKey := false |} |})
    as (Hc & Ha & Hs & Hm & Hk).
  cbn zeta in *.
  cbn [key modifiers ctrlKey altKey shiftKey metaKey orb] in Hc, Ha, Hs, Hm, Hk.
  repeat (split; [assumption|]).
  rewrite Hk.
  destruct (last _) as [p|] eqn:Hlast; simpl; [|intros []].
  apply last_Some in Hlast as [l' Hl'].
  assert (Hin : In p (List.filter
                        (fun p => negb (is_case modifier_names (toLowerCase p)))
                        (map Legacy.trim (split "+" keys)))).
  { rewrite Hl'. apply in_or_app. right. now left. }
  apply filter_In in Hin as [Hin _].
  apply in_map_iff in Hin as (piece & <- & Hpiece).
  intros Hplus. apply occurs_trim in Hplus.
  exact (split_no_separator _ _ _ Hpiece Hplus).
Qed.

Lemma parseKeyCombination_examples :
  parseKeyCombination "Control+Shift+T"
  = {| key := "T";
       modifiers := {| ctrlKey := true; altKey := false;
                       shiftKey := true; metaKey := false |} |}
  /\ parseKeyCombination "ctrl + a + b"
     = {| key := "b";
          modifiers := {| ctrlKey := true; altKey := false;
                          shiftKey := false; metaKey := false |} |}
  /\ parseKeyCombination "Control++"
     = {| key := "";
          modifiers := {| ctrlKey := true; altKey := false;
                          shiftKey := false; metaKey := false |} |}.
Proof. repeat split; vm_compute; reflexivity. Qed.

End KeyCombinations.

(** ** Where [navigate] goes *)

Section NavigationTargets.
Import ContentScript.

(** X18.  Whatever the arguments, when the [navigate] handler sets the
    location of the page, the address starts with http:// or https://; it
    is then the only effect of the handler on the page and the [url] of
    its answer. *)
Theorem navigate_only_opens_http_addresses (pg : Page) (args : gmap string JVal)
    (target : string) :
  In (Navigate target) (snd (onExecuteAction pg "navigate" args)) ->
  (startsWith target "http://" = true \/ startsWith target "https://" = true)
  /\ snd (onExecuteAction pg "navigate" args) = [ Navigate target ]
  /\ fst (onExecuteAction pg "navigate" args)
     = obj [ ("success", JBool true); ("navigatedTo", JStr target);
             ("url", JStr target) ].
Proof.
  unfold onExecuteAction. change (handler_of "navigate") with (Some navigate).
  unfold navigate.
  destruct (negb (truthy (default JUndefined (args !! "url"))));
    [intros H; exact (False_ind _ H)|].
  destruct (default JUndefined (args !! "url")) as [| | | |u|];
    try (intros H; exact (False_ind _ H)).
  destruct (negb (startsWith u "http://") && negb (startsWith u "https://")) eqn:E;
    cbn [fst snd]; intros [H|[]]; injection H as Ht; subst target.
  - repeat split. right. apply prefix_app. now exists u.
  - repeat split. apply andb_false_iff in E as [E|E]; apply negb_false_iff in E; auto.
Qed.

Lemma navigate_target_witness :
  startsWith "https://ftp://example.org/file" "http://" = true
  \/ startsWith "https://ftp://example.org/file" "https://" = true.
Proof.
  refine (proj1 (navigate_only_opens_http_addresses somePage
                   (obj [ ("url", JStr "ftp://example.org/file") ])
                   "https://ftp://example.org/file" _)).
  left. reflexivity.
Defined.

End NavigationTargets.

(** ** The answers to the function calls *)

Section FunctionResponses.
Import BrowserAgent Runtime ServiceWorker.
Local Open Scope js_scope.

Lemma contents_executeAction action args h :
  preserves contents (executeAction action args h).
Proof. unfold executeAction. run_steps; auto with runs. Qed.

(** The calls answered by the loop of the current worker, when it ran to
    its end without a stop. *)
Lemma forEachCall_answers calls :
  forall acc w frs w' evs,
    forEachCall calls acc w = (Value (LoopDone frs), w', evs) ->
    shouldStop w' = false ->
    contents w' = contents w
    /\ exists new, frs = acc ++ new /\ Forall2 answers calls new.
Proof.
  induction calls as [|fc calls IH]; intros acc w frs w' evs H Hgo;
    cbn [forEachCall] in H.
  { injection H as <- <- <-. split; [reflexivity|].
    exists []. rewrite app_nil_r. split; [reflexivity|constructor]. }
  rewrite bind_get in H. destruct (shouldStop w) eqn:Hstop.
  { injection H as <- <- <-. congruence. }
  apply bind_inv_value in H as (allowed & w1 & e1 & e2 & Hask & H & ->).
  assert (Hc1 : contents w1 = contents w).
  { destruct (required (requiresSafetyConfirmation fc)).
    - exact (preserves_run _ _ _ _ _ _ (contents_requestSafetyConfirmation _ _) Hask).
    - injection Hask as <- <- <-. reflexivity. }
  destruct allowed; cbn [negb] in H; [|discriminate].
  apply bind_inv_value in H as (result & w2 & e_ex & e3 & Hexec & H & ->).
  apply bind_inv_value in H as ([] & w3 & e_set & e4 & Hset & H & ->).
  apply bind_inv_value in H as (shot & w4 & e_cap & e5 & Hcap & H & ->).
  apply bind_inv_value in H as (url & w5 & e_url & e6 & Hurl & H & ->).
  apply bind_inv_value in H as ([] & w6 & e_tr & e7 & Htrack & H & ->).
  apply bind_inv_value in H as ([] & w7 & e_sl & e8 & Hsl & H & ->).
  destruct (IH _ _ _ _ _ H Hgo) as (Hcont & new & -> & Hnew).
  assert (Hc5 : contents w5 = contents w4 /\ (truthy url = true \/ exists s, url = JStr s)).
  { destruct (truthy (default JUndefined (result !! "url"))) eqn:Ht.
    - injection Hurl as <- <- <-. split; [reflexivity|]. now left.
    - apply bind_inv_value in Hurl as (current & w5' & e_c & e9 & Hcur & Hret & ->).
      injection Hret as <- <- <-.
      split; [exact (preserves_run _ _ _ _ _ _ contents_getCurrentUrl Hcur)|].
      right. eauto. }
  destruct Hc5 as [Hc5 Hshape].
  split.
  - rewrite Hcont.
    rewrite (preserves_run _ _ _ _ _ _ (contents_sleep 200) Hsl).
    rewrite (preserves_run _ _ _ _ _ _ (contents_trackStep _ _) Htrack), Hc5.
    rewrite (preserves_run _ _ _ _ _ _ contents_captureScreenshot Hcap).
    rewrite (preserves_run _ _ _ _ _ _ contents_waitForPageSettle Hset).
    rewrite (preserves_run _ _ _ _ _ _ (contents_executeAction _ _ _) Hexec).
    exact Hc1.
  - eexists (_ :: new). rewrite <- app_assoc. split; [reflexivity|].
    constructor; [|exact Hnew].
    split; [reflexivity|]. exists url. split; [exact Hshape|reflexivity].
Qed.

(** The loop is left by [return] only with COMPLETE. *)
Lemma forEachCall_returns_complete calls :
  forall acc w r w' evs,
    forEachCall calls acc w = (Value (LoopReturned r), w', evs) -> r = COMPLETE.
Proof.
  induction calls as [|fc calls IH]; intros acc w r w' evs H;
    cbn [forEachCall] in H; [discriminate|].
  rewrite bind_get in H. destruct (shouldStop w); [discriminate|].
  apply bind_inv_value in H as (allowed & w1 & e1 & e2 & _ & H & _).
  destruct allowed; cbn [negb] in H; [|now injection H as <- _ _].
  apply bind_inv_value in H as (? & ? & ? & ? & _ & H & _).
  apply bind_inv_value in H as (? & ? & ? & ? & _ & H & _).
  apply bind_inv_value in H as (? & ? & ? & ? & _ & H & _).
  apply bind_inv_value in H as (? & ? & ? & ? & _ & H & _).
  apply bind_inv_value in H as (? & ? & ? & ? & _ & H & _).
  apply bind_inv_value in H as (? & ? & ? & ? & _ & H & _).
  exact (IH _ _ _ _ _ H).
Qed.

Lemma last_addFunctionResponses frs history :
  last (addFunctionResponses frs history)
  = Some {| role := "user"; parts := Some (map functionResponse_of frs) |}.
Proof.
  unfold addFunctionResponses.
  set (new := {| role := "user"; parts := Some (map functionResponse_of frs) |}).
  rewrite last_lookup.
  assert (Hlen : length (_cleanupOldScreenshots (history ++ [new]))
                 = S (length history)).
  { unfold _cleanupOldScreenshots.
    rewrite length_reverse, length_cleanup_from, length_reverse, length_app.
    simpl. lia. }
  rewrite Hlen. simpl.
  rewrite (cleanup_lookup (history ++ [new]) (length history) new).
  - rewrite drop_ge by (rewrite length_app; simpl; lia).
    unfold pruned_turn, screenshot_turns. simpl. now rewrite andb_false_r.
  - rewrite lookup_app_r by lia. now rewrite Nat.sub_diag.
Qed.



Lemma contents_round retries : preserves contents (Legacy.round retries).
Proof.
  unfold Legacy.round, Legacy.fetch. cbv zeta. run_steps; auto with runs.
Qed.

Lemma contents_rounds remaining retries :
  preserves contents (Legacy.rounds remaining retries).
Proof.
  revert retries. induction remaining as [|n IHn]; intros k; cbn [Legacy.rounds].
  - apply preserves_ret.
  - apply preserves_bind; [apply contents_round|].
    intros [|reply]; [apply IHn|apply preserves_ret].
Qed.

Lemma contents_callGeminiAPI : preserves contents Legacy.callGeminiAPI.
Proof. apply contents_rounds. Qed.

(** The calls answered by the loop of the older worker, when it ran to its
    end without a stop. *)
Lemma legacy_forEachCall_answers calls :
  forall acc w frs w' evs,
    Legacy.forEachCall calls acc w = (Value frs, w', evs) ->
    shouldStop w' = false ->
    exists new, frs = acc ++ new /\ Forall2 answers_by_name calls new.
Proof.
  induction calls as [|fc calls IH]; intros acc w frs w' evs H Hgo;
    cbn [Legacy.forEachCall] in H.
  { injection H as <- <- <-. exists []. rewrite app_nil_r. split; [reflexivity|constructor]. }
  rewrite bind_get in H. destruct (shouldStop w) eqn:Hstop.
  { injection H as <- <- <-. congruence. }
  apply bind_inv_value in H as (allowed & w1 & e1 & e2 & _ & H & _).
  destruct allowed; cbn [negb] in H.
  - apply bind_inv_value in H as (result & w2 & e_ex & e3 & _ & H & _).
    apply bind_inv_value in H as ([] & w3 & e_sl & e4 & _ & H & _).
    destruct (IH _ _ _ _ _ H Hgo) as (new & -> & Hnew).
    eexists (_ :: new). rewrite <- app_assoc. split; [reflexivity|].
    constructor; [|exact Hnew]. unfold answers_by_name, Legacy.buildFunctionResponse.
    eauto.
  - destruct (IH _ _ _ _ _ H Hgo) as (new & -> & Hnew).
    eexists (_ :: new). rewrite <- app_assoc. split; [reflexivity|].
    constructor; [|exact Hnew]. unfold answers_by_name, Legacy.buildFunctionResponse.
    eauto.
Qed.

(** X15.  When a round of the older loop goes on to the next, the model
    had answered with at least one function call, and the history has
    grown by exactly two turns: the model turn and one user turn holding
    one function response per call, in order and under the name of the
    call, followed by the new screenshot. *)
Theorem older_worker_answers_every_call (w w' : World) (evs : list Event) :
  Legacy.loopBody w = (Value Legacy.Next, w', evs) ->
  exists (reply : Legacy.Reply) (frs : list Part) (screenshot : string),
    outcome Legacy.callGeminiAPI w = Value (Some reply)
    /\ contents w'
       = contents w
         ++ [ {| role := "model"; parts := Some (Legacy.reply_parts reply) |};
              {| role := "user";
                 parts := Some (frs ++ [ imagePart {| mimeType := "image/png";
                                                      data := screenshot |} ]) |} ]
    /\ Forall2 answers_by_name
         (Legacy.extractFunctionCalls (Legacy.reply_parts reply)) frs
    /\ frs <> [].
Proof.
  unfold Legacy.loopBody. intros H.
  apply bind_inv_value in H as (got & w1 & e1 & e2 & Htry & H & ->).
  destruct got as [[reply|]|]; try discriminate.
  assert (Hcall : Legacy.callGeminiAPI w = (Value (Some reply), w1, e1)).
  { unfold try_catch in Htry.
    destruct (bind Legacy.callGeminiAPI (fun r => ret (Some r)) w)
      as [[[r|e| |] wt] et] eqn:Hm; try discriminate.
    injection Htry as -> -> ->.
    apply bind_inv_value in Hm as (r0 & w0 & e0 & e0' & Hm & Hret & ->).
    injection Hret as <- <- <-. now rewrite app_nil_r. }
  assert (Hc1 : contents w1 = contents w).
  { exact (preserves_run _ _ _ _ _ _ contents_callGeminiAPI Hcall). }
  exists reply.
  rewrite bind_modify in H.
  apply bind_inv_value in H as ([] & w2 & e_s & e3 & Hsend & H & ->).
  rewrite sendToSidepanel_run in Hsend. injection Hsend as <- <-.
  destruct (length (Legacy.extractFunctionCalls (Legacy.reply_parts reply)) =? 0)%nat
    eqn:Hcalls.
  { rewrite bind_modify in H. discriminate. }
  apply bind_inv_value in H as (frs & w3 & e_for & e4 & Hfor & H & ->).
  rewrite bind_get in H. destruct (shouldStop w3) eqn:Hstop; [discriminate|].
  apply bind_inv_value in H as ([] & w4 & e_set & e5 & Hset & H & ->).
  apply bind_inv_value in H as (shot & w5 & e_cap & e6 & Hcap & H & ->).
  rewrite bind_modify in H.
  apply bind_inv_value in H as ([] & w6 & e_sl & e7 & Hsl & H & ->).
  injection H as <- <-.
  destruct (legacy_forEachCall_answers _ _ _ _ _ _ Hfor Hstop) as (new & -> & Hnew).
  destruct (legacy_forEachCall_records _ _ _ _ _ _ Hfor) as (_ & _ & Hc3).
  exists new, shot. split; [unfold outcome; now rewrite Hcall|]. split; [|split].
  - rewrite (preserves_run _ _ _ _ _ _ (contents_sleep 300) Hsl). simpl.
    rewrite (preserves_run _ _ _ _ _ _ contents_captureScreenshot Hcap).
    rewrite (preserves_run _ _ _ _ _ _ contents_waitForPageSettle Hset).
    rewrite Hc3. simpl. rewrite Hc1, <- app_assoc. reflexivity.
  - exact Hnew.
  - intros ->. inversion Hnew as [Hnil|]. rewrite <- Hnil in Hcalls. discriminate.
Qed.

Lemma older_worker_witness :
  exists (reply : Legacy.Reply) (frs : list Part) (screenshot : string),
    outcome Legacy.callGeminiAPI refused_click_then_navigate = Value (Some reply)
    /\ contents (after Legacy.loopBody refused_click_then_navigate)
       = contents refused_click_then_navigate
         ++ [ {| role := "model"; parts := Some (Legacy.reply_parts reply) |};
              {| role := "user";
                 parts := Some (frs ++ [ imagePart {| mimeType := "image/png";
                                                      data := screenshot |} ]) |} ]
    /\ Forall2 answers_by_name
         (Legacy.extractFunctionCalls (Legacy.reply_parts reply)) frs
    /\ frs <> [].
Proof.
  apply (older_worker_answers_every_call refused_click_then_navigate
           (after Legacy.loopBody refused_click_then_navigate)
           (events Legacy.loopBody refused_click_then_navigate)).
  vm_compute; reflexivity.
Defined.

End FunctionResponses.

(** ** How the loop ends *)

Section CleaningUp.
Import BrowserAgent Runtime.
Local Open Scope js_scope.

(** What the [finally] block of either worker does. *)
Lemma cleanup_run w :
  (modify (fun w => set_pending None (set_isRunning false w)) ;;
   w <- get ;;
   if negb (shouldStop w) then sendToSidepanel (STATUS_UPDATE "idle") else ret tt) w
  = (Value tt, set_pending None (set_isRunning false w),
     if shouldStop w then [] else [ EvSidepanel (STATUS_UPDATE "idle") ]).
Proof.
  rewrite bind_modify, bind_get. simpl. now destruct (shouldStop w).
Qed.

(** A guarded loop: errors are reported, and the [finally] block runs. *)
Lemma guarded_loop_cleans_up (body : M unit) w0 o w' evs :
  try_finally
    (try_catch body (fun error => sendToSidepanel (ERROR (message error))))
    (modify (fun w => set_pending None (set_isRunning false w)) ;;
     w <- get ;;
     if negb (shouldStop w) then sendToSidepanel (STATUS_UPDATE "idle") else ret tt)
    w0 = (o, w', evs) ->
  (forall e, o <> Throws e)
  /\ (o = Value tt ->
      isRunning w' = false /\ pendingSafetyConfirmation w' = None
      /\ (shouldStop w' = false ->
          last evs = Some (EvSidepanel (STATUS_UPDATE "idle")))).
Proof.
  unfold try_finally.
  destruct (try_catch body _ w0) as [[[[]|e0| |] w1] e1] eqn:Htry;
    rewrite ?cleanup_run; intros H.
  - injection H as <- <- <-. split; [discriminate|]. intros _.
    repeat split. simpl. intros Hs. rewrite Hs. now rewrite last_snoc.
  - exfalso.
    assert (Hno : forall e, @Throws unit e0 <> Throws e).
    { unfold try_catch in Htry.
      destruct (body w0) as [[[x|e2| |] w2] e3]; discriminate. }
    exact (Hno e0 eq_refl).
  - injection H as <- _ _. split; [discriminate|discriminate].
  - injection H as <- _ _. split; [discriminate|discriminate].
Qed.

(** Both [runAgentLoop]s are such a guarded loop, entered unless the agent
    is running already. *)
Lemma guarded_loop_ends_idle (body : M unit) w :
  isRunning w = false ->
  let loop : M unit :=
    w <- get ;;
    if isRunning w then ret tt
    else
      modify (fun w => set_shouldStop false (set_isRunning true w)) ;;
      sendToSidepanel (STATUS_UPDATE "running") ;;
      try_finally
        (try_catch body (fun error => sendToSidepanel (ERROR (message error))))
        (modify (fun w => set_pending None (set_isRunning false w)) ;;
         w <- get ;;
         if negb (shouldStop w) then sendToSidepanel (STATUS_UPDATE "idle")
         else ret tt) in
  (forall e, outcome loop w <> Throws e)
  /\ head (events loop w) = Some (EvSidepanel (STATUS_UPDATE "running"))
  /\ (outcome loop w = Value tt ->
      isRunning (after loop w) = false
      /\ pendingSafetyConfirmation (after loop w) = None
      /\ (shouldStop (after loop w) = false ->
          last (events loop w) = Some (EvSidepanel (STATUS_UPDATE "idle")))).
Proof.
  intros Hrun loop.
  set (guarded :=
         try_finally
           (try_catch body (fun error => sendToSidepanel (ERROR (message error))))
           (modify (fun w => set_pending None (set_isRunning false w)) ;;
            w <- get ;;
            if negb (shouldStop w) then sendToSidepanel (STATUS_UPDATE "idle")
            else ret tt)).
  set (w0 := set_shouldStop false (set_isRunning true w)).
  assert (Hloop : loop w = (outcome guarded w0, after guarded w0,
                            EvSidepanel (STATUS_UPDATE "running") :: events guarded w0)).
  { subst loop. rewrite bind_get, Hrun. cbv iota. rewrite bind_modify.
    unfold sendToSidepanel at 1. now rewrite bind_emit. }
  destruct (run_parts _ _ _ _ _ Hloop) as (-> & -> & ->).
  destruct (guarded_loop_cleans_up body w0 _ _ _ (run_eta _ _)) as (Hno & Hval).
  split; [exact Hno|]. split; [reflexivity|]. intros Ho.
  destruct (Hval Ho) as (H1 & H2 & H3). repeat split; try assumption.
  intros Hs. specialize (H3 Hs).
  fold guarded in H3. destruct (events guarded w0) as [|ev evs]; [discriminate|].
  exact H3.
Qed.

(** X17.  [runAgentLoop], in both workers.  Called while the agent is
    running it does nothing.  Otherwise it never throws, the first thing
    it does is to tell the side panel that the agent is running, and when
    it returns, the agent is not running, no safety confirmation is
    parked, and, unless the agent was stopped, the last message to the side
    panel is the status idle. *)
Theorem runAgentLoop_ends_idle (fuel : nat) (prompt : option string) (w : World) :
  (isRunning w = true ->
   ServiceWorker.runAgentLoop fuel prompt w = (Value tt, w, [])
   /\ Legacy.runAgentLoop fuel prompt w = (Value tt, w, []))
  /\ (isRunning w = false ->
      forall loop, In loop [ ServiceWorker.runAgentLoop; Legacy.runAgentLoop ] ->
      (forall e, outcome (loop fuel prompt) w <> Throws e)
      /\ head (events (loop fuel prompt) w) = Some (EvSidepanel (STATUS_UPDATE "running"))
      /\ (outcome (loop fuel prompt) w = Value tt ->
          isRunning (after (loop fuel prompt) w) = false
          /\ pendingSafetyConfirmation (after (loop fuel prompt) w) = None
          /\ (shouldStop (after (loop fuel prompt) w) = false ->
              last (events (loop fuel prompt) w)
              = Some (EvSidepanel (STATUS_UPDATE "idle"))))).
Proof.
  split.
  - intros Hrun. unfold ServiceWorker.runAgentLoop, Legacy.runAgentLoop.
    rewrite !bind_get, Hrun. split; reflexivity.
  - intros Hrun loop [<-|[<-|[]]].
    + exact (guarded_loop_ends_idle _ w Hrun).
    + exact (guarded_loop_ends_idle _ w Hrun).
Qed.

Lemma runAgentLoop_witness :
  last (events (ServiceWorker.runAgentLoop 3 None)
          (at_rest task
             {| env_generate := [ reply [ textPart "Done." ] "STOP" ];
                env_fetch := []; env_safety := []; env_tabs := []; env_send := [];
                env_inject := []; env_capture := []; env_stop := [] |}))
  = Some (EvSidepanel (STATUS_UPDATE "idle")).
Proof.
  destruct (runAgentLoop_ends_idle 3 None
              (at_rest task
                 {| env_generate := [ reply [ textPart "Done." ] "STOP" ];
                    env_fetch := []; env_safety := []; env_tabs := []; env_send := [];
                    env_inject := []; env_capture := []; env_stop := [] |}))
    as (_ & H).
  destruct (H eq_refl ServiceWorker.runAgentLoop) as (_ & _ & Hend); [now left|].
  apply Hend; vm_compute; reflexivity.
Defined.

End CleaningUp.

(** ** Stopping the agent *)

Section Stopping.
Import BrowserAgent Runtime.
Local Open Scope js_scope.

Lemma nil_has_no_middle {A} (y : A) pre post : [] <> pre ++ y :: post.
Proof. destruct pre; discriminate. Qed.

(** A run without events that leaves the stop flag alone. *)
Lemma stops_silent {A} (Q : A -> Prop) (m : M A) :
  (forall w, events m w = [] /\ shouldStop (after m w) = shouldStop w) ->
  stops Q m.
Proof.
  intros H w. destruct (H w) as [He Hs]. rewrite He, Hs. split.
  - intros Hw. split; [constructor|intros _; exact Hw].
  - intros pre post Heq. now destruct (nil_has_no_middle _ _ _ Heq).
Qed.

Lemma stops_ret {A} (Q : A -> Prop) a : stops Q (ret a).
Proof. apply stops_silent. intros w. split; reflexivity. Qed.

Lemma stops_get Q : stops Q get.
Proof. apply stops_silent. intros w. split; reflexivity. Qed.

Lemma stops_throw {A} (Q : A -> Prop) e : stops Q (@throw A e).
Proof. apply stops_silent. intros w. split; reflexivity. Qed.

Lemma stops_pending {A} (Q : A -> Prop) : stops Q (@pending A).
Proof. apply stops_silent. intros w. split; reflexivity. Qed.

Lemma stops_out_of_fuel {A} (Q : A -> Prop) : stops Q (@out_of_fuel A).
Proof. apply stops_silent. intros w. split; reflexivity. Qed.

Lemma stops_ask {A} Q (answers : Env -> list A) rest : stops Q (ask answers rest).
Proof.
  apply stops_silent. intros w. unfold events, after, ask.
  destruct (answers (env w)); split; reflexivity.
Qed.

Lemma stops_modify Q g :
  (forall w, shouldStop w = true -> shouldStop (g w) = true) -> stops Q (modify g).
Proof.
  intros Hg w. split.
  - intros Hw. split; [constructor|intros _; exact (Hg w Hw)].
  - intros pre post Heq. now destruct (nil_has_no_middle _ _ _ Heq).
Qed.

Lemma stops_emit Q ev : not_executor ev -> ev <> stop_message -> stops Q (emit ev).
Proof.
  intros Hev Hne w. split.
  - intros Hw. split; [repeat constructor; exact Hev|intros _; exact Hw].
  - intros pre post Heq. unfold events, emit in Heq; simpl in Heq.
    apply cons_eq_middle in Heq as [(_ & Heq & _)|(pre' & _ & Heq)];
      [contradiction|now destruct (nil_has_no_middle _ _ _ Heq)].
Qed.

Lemma stops_weaken {A} (Q Q' : A -> Prop) (m : M A) :
  (forall a, Q' a -> Q a) -> stops Q m -> stops Q' m.
Proof.
  intros HQ H w. destruct (H w) as [H1 H2].
  assert (Hg : goes_on Q' (outcome m w) -> goes_on Q (outcome m w)).
  { destruct (outcome m w); simpl; auto. }
  split.
  - intros Hw. destruct (H1 Hw) as [Hev Hf]. split; [exact Hev|auto].
  - intros pre post Heq. destruct (H2 pre post Heq) as [Hev Hf]. split; [exact Hev|auto].
Qed.

(** [m], and then [f]: on the values that satisfy [Q1] it honours a stop
    in its turn, on the others it ends the run at once. *)
Lemma stops_bind_if {A B} (Q1 : A -> Prop) (Q : B -> Prop) (m : M A) (f : A -> M B) :
  stops Q1 m ->
  (forall a,
      (Q1 a /\ stops Q (f a))
      \/ (forall w, events (f a) w = [] /\ ~ goes_on Q (outcome (f a) w))) ->
  stops Q (bind m f).
Proof.
  intros Hm Hf w. destruct (Hm w) as [Hm1 Hm2].
  pose proof (bind_run m f w) as Hrun.
  destruct (outcome m w) as [a|e| |] eqn:Ho.
  - destruct (run_parts _ _ _ _ _ Hrun) as (-> & -> & ->). clear Hrun.
    destruct (Hf a) as [[HQ Hfa]|Hend].
    + destruct (Hfa (after m w)) as [Hf1 Hf2]. split.
      * intros Hw. destruct (Hm1 Hw) as [He1 Hflag].
        destruct (Hf1 (Hflag HQ)) as [He2 Hflag2].
        split; [apply Forall_app; split; assumption|exact Hflag2].
      * intros pre post Heq.
        apply app_eq_middle in Heq as [(post1 & Heq & ->)|(pre2 & _ & Heq)].
        -- destruct (Hm2 _ _ Heq) as [He1 Hflag].
           destruct (Hf1 (Hflag HQ)) as [He2 Hflag2].
           split; [apply Forall_app; split; assumption|exact Hflag2].
        -- exact (Hf2 _ _ Heq).
    + destruct (Hend (after m w)) as [He2 Hno]. rewrite He2, app_nil_r. split.
      * intros Hw. destruct (Hm1 Hw) as [He1 _]. split; [exact He1|contradiction].
      * intros pre post Heq. destruct (Hm2 _ _ Heq) as [He1 _].
        split; [exact He1|contradiction].
  - destruct (run_parts _ _ _ _ _ Hrun) as (-> & -> & ->). split.
    + intros Hw. destruct (Hm1 Hw) as [He1 Hflag]. split; [exact He1|intros _; now apply Hflag].
    + intros pre post Heq. destruct (Hm2 _ _ Heq) as [He1 Hflag].
      split; [exact He1|intros _; now apply Hflag].
  - destruct (run_parts _ _ _ _ _ Hrun) as (-> & -> & ->). split.
    + intros Hw. destruct (Hm1 Hw) as [He1 _]. split; [exact He1|intros []].
    + intros pre post Heq. destruct (Hm2 _ _ Heq) as [He1 _]. split; [exact He1|intros []].
  - destruct (run_parts _ _ _ _ _ Hrun) as (-> & -> & ->). split.
    + intros Hw. destruct (Hm1 Hw) as [He1 _]. split; [exact He1|intros []].
    + intros pre post Heq. destruct (Hm2 _ _ Heq) as [He1 _]. split; [exact He1|intros []].
Qed.

Lemma stops_bind {A B} (Q : B -> Prop) (m : M A) (f : A -> M B) :
  stops always m -> (forall a, stops Q (f a)) -> stops Q (bind m f).
Proof.
  intros Hm Hf. apply (stops_bind_if always Q); [exact Hm|].
  intros a. left. split; [exact I|apply Hf].
Qed.

Lemma try_catch_unsettled {A} (m : M A) handler w :
  outcome m w = Pending \/ outcome m w = OutOfFuel ->
  try_catch m handler w = (outcome m w, after m w, events m w).
Proof.
  unfold try_catch, outcome, after, events.
  destruct (m w) as [[[?|?| |] ?] ?]; simpl; intros [H|H]; congruence.
Qed.

Lemma stops_try_catch {A} (Q : A -> Prop) (m : M A) handler :
  stops Q m -> (forall e, stops Q (handler e)) -> stops Q (try_catch m handler).
Proof.
  intros Hm Hh w. destruct (Hm w) as [Hm1 Hm2].
  destruct (outcome m w) as [a|e| |] eqn:Ho.
  - destruct (run_parts _ _ _ _ _ (try_catch_value m handler w a Ho)) as (-> & -> & ->).
    split; assumption.
  - destruct (run_parts _ _ _ _ _ (try_catch_throws m handler w e Ho)) as (-> & -> & ->).
    destruct (Hh e (after m w)) as [Hh1 Hh2]. split.
    + intros Hw. destruct (Hm1 Hw) as [He1 Hflag].
      destruct (Hh1 (Hflag I)) as [He2 Hflag2].
      split; [apply Forall_app; split; assumption|exact Hflag2].
    + intros pre post Heq.
      apply app_eq_middle in Heq as [(post1 & Heq & ->)|(pre2 & _ & Heq)].
      * destruct (Hm2 _ _ Heq) as [He1 Hflag].
        destruct (Hh1 (Hflag I)) as [He2 Hflag2].
        split; [apply Forall_app; split; assumption|exact Hflag2].
      * exact (Hh2 _ _ Heq).
  - destruct (run_parts _ _ _ _ _ (try_catch_unsettled m handler w (or_introl Ho)))
      as (-> & -> & ->).
    rewrite Ho. split; assumption.
  - destruct (run_parts _ _ _ _ _ (try_catch_unsettled m handler w (or_intror Ho)))
      as (-> & -> & ->).
    rewrite Ho. split; assumption.
Qed.

(** A run that never enters the executor and never goes on. *)
Lemma stops_at_the_end {A} (Q : A -> Prop) (m : M A) :
  only not_executor m -> (forall w, ~ goes_on Q (outcome m w)) -> stops Q m.
Proof.
  intros Hev Hend w. specialize (Hev w). specialize (Hend w). split.
  - intros _. split; [exact Hev|contradiction].
  - intros pre post Heq. rewrite Heq in Hev.
    apply Forall_app in Hev as [_ Hev]. apply Forall_cons in Hev as [_ Hev].
    split; [exact Hev|contradiction].
Qed.

Lemma stops_await Q : stops Q await_.
Proof.
  intros w. unfold outcome, after, events, await_, stopAgent, sendToSidepanel,
    bind, ask, modify, emit, ret.
  destruct (env_stop (env w)) as [|[|] l]; simpl.
  - split; [intros Hw; split; [constructor|intros _; exact Hw]|].
    intros pre post Heq. now destruct (nil_has_no_middle _ _ _ Heq).
  - split; [intros Hw; split; [repeat constructor|reflexivity]|].
    intros pre post Heq.
    apply cons_eq_middle in Heq as [(_ & _ & <-)|(pre' & _ & Heq)];
      [split; [constructor|reflexivity]|now destruct (nil_has_no_middle _ _ _ Heq)].
  - split; [intros Hw; split; [constructor|intros _; exact Hw]|].
    intros pre post Heq. now destruct (nil_has_no_middle _ _ _ Heq).
Qed.

End Stopping.

(** Decompose a goal [stops Q m] along the program. *)
Ltac stops_step :=
  match goal with
  | |- stops _ (Runtime.bind _ _) => apply stops_bind; [|intros]
  | |- stops _ (Runtime.ret _) => apply stops_ret
  | |- stops _ Runtime.get => apply stops_get
  | |- stops _ (Runtime.throw _) => apply stops_throw
  | |- stops _ Runtime.pending => apply stops_pending
  | |- stops _ Runtime.out_of_fuel => apply stops_out_of_fuel
  | |- stops _ (Runtime.ask _ _) => apply stops_ask
  | |- stops _ Runtime.await_ => apply stops_await
  | |- stops _ (Runtime.modify _) => apply stops_modify; intros ? ?; assumption
  | |- stops _ (Runtime.emit _) => apply stops_emit; [exact I|discriminate]
  | |- stops _ (Runtime.sendToSidepanel _) => apply stops_emit; [exact I|discriminate]
  | |- stops _ (Runtime.try_catch _ _) => apply stops_try_catch; [|intros]
  | |- stops _ (match ?x with _ => _ end) => destruct x
  | |- stops _ (let '(_, _) := ?x in _) => destruct x
  end.

Ltac stops_steps := repeat stops_step.

Section StoppingTheWorker.
Import BrowserAgent Runtime ServiceWorker.
Local Open Scope js_scope.

Lemma stops_sleep Q ms : stops Q (sleep ms).
Proof. unfold sleep. stops_steps. Qed.

Lemma stops_tabs_query Q : stops Q tabs_query.
Proof. unfold tabs_query. stops_steps. Qed.

Lemma stops_page_effects Q l : stops Q (page_effects l).
Proof. induction l as [|eff l IH]; cbn [page_effects]; stops_steps. exact IH. Qed.

Lemma stops_tabs_sendMessage Q action args h : stops Q (tabs_sendMessage action args h).
Proof. unfold tabs_sendMessage. stops_steps. apply stops_page_effects. Qed.

Lemma stops_scripting_executeScript Q : stops Q scripting_executeScript.
Proof. unfold scripting_executeScript. stops_steps. Qed.

Lemma stops_captureScreenshot Q : stops Q captureScreenshot.
Proof. unfold captureScreenshot. stops_steps. Qed.

Lemma stops_waitForPageSettle Q : stops Q waitForPageSettle.
Proof. unfold waitForPageSettle. stops_steps. Qed.

Lemma stops_getCurrentUrl Q : stops Q getCurrentUrl.
Proof. unfold getCurrentUrl. stops_steps. apply stops_tabs_query. Qed.

Lemma stops_trackStep Q s a : stops Q (trackStep s a).
Proof. unfold trackStep. stops_steps. Qed.

Lemma stops_generateContent Q : stops Q Agent.generateContent.
Proof. unfold Agent.generateContent. stops_steps. Qed.

Lemma stops_attempts Q remaining attempt : stops Q (Agent.attempts remaining attempt).
Proof.
  revert attempt. induction remaining as [|remaining IH]; intros attempt;
    cbn [Agent.attempts]; stops_steps;
    try apply stops_generateContent; try apply stops_sleep. apply IH.
Qed.

Lemma stops_getModelResponse Q : stops Q Agent.getModelResponse.
Proof. apply stops_attempts. Qed.

Lemma stops_requestSafetyConfirmation Q fc explanation :
  stops Q (requestSafetyConfirmation fc explanation).
Proof. unfold requestSafetyConfirmation. stops_steps. Qed.

Lemma bind_assoc {A B C} (m : M A) (f : A -> M B) (g : B -> M C) w :
  bind (bind m f) g w = bind m (fun x => bind (f x) g) w.
Proof.
  unfold bind. destruct (m w) as [[[a| | |] w1] e1]; try reflexivity.
  destruct (f a w1) as [[[b| | |] w2] e2]; try reflexivity.
  destruct (g b w2) as [[o w3] e3]. now rewrite app_assoc.
Qed.

Lemma bind_ext {A B} (m : M A) (f g : A -> M B) w :
  (forall a w1, f a w1 = g a w1) -> bind m f w = bind m g w.
Proof.
  intros H. unfold bind. destruct (m w) as [[[a| | |] w1] e1]; try reflexivity.
  now rewrite H.
Qed.

Lemma stops_ext {A} (Q : A -> Prop) (m m' : M A) :
  (forall w, m w = m' w) -> stops Q m' -> stops Q m.
Proof.
  intros Heq H w. specialize (H w). unfold outcome, after, events in *.
  now rewrite Heq.
Qed.

(** One turn of a loop over the function calls: leave when stopped, ask
    when the call needs confirmation, and enter the executor when
    allowed. *)
Lemma stops_checked_call {B} (done : B) (gate : option (FunctionCall * JVal))
    (action : string) (args : gmap string JVal)
    (on_denied : M B) (rest : World -> M B) :
  stops always on_denied ->
  (forall w, stops always (rest w)) ->
  stops always
    (w <- get ;;
     if shouldStop w then ret done
     else
       allowed <- match gate with
                  | Some (fc, explanation) => requestSafetyConfirmation fc explanation
                  | None => ret true
                  end ;;
       if negb allowed then on_denied
       else (emit (EvExecuteAction action args) ;; rest w)).
Proof.
  intros Hdenied Hrest w.
  match goal with
  | |- context [events (bind get ?k) w] =>
      destruct (run_parts _ _ _ _ _ (eq_trans (bind_get k w) (run_eta (k w) w)))
        as (-> & -> & ->)
  end.
  destruct (shouldStop w) eqn:Hs.
  { split; [intros _; split; [constructor|intros _; exact Hs]|].
    intros pre post Heq. now destruct (nil_has_no_middle _ _ _ Heq). }
  split; [discriminate|]. intros pre post.
  assert (Hgo : forall allowed w1 pre post,
             events (if negb allowed then on_denied
                     else (emit (EvExecuteAction action args) ;; rest w)) w1
             = pre ++ stop_message :: post ->
             Forall not_executor post
             /\ (goes_on always
                   (outcome (if negb allowed then on_denied
                             else (emit (EvExecuteAction action args) ;; rest w)) w1) ->
                 shouldStop
                   (after (if negb allowed then on_denied
                           else (emit (EvExecuteAction action args) ;; rest w)) w1)
                 = true)).
  { intros [|] w1 pre' post'; cbn [negb].
    - destruct (run_parts _ _ _ _ _ (bind_emit (EvExecuteAction action args)
                                       (fun _ => rest w) w1)) as (-> & -> & ->).
      intros Heq.
      apply cons_eq_middle in Heq as [(_ & Heq & _)|(pre'' & _ & Heq)];
        [discriminate|].
      exact (proj2 (Hrest w w1) _ _ Heq).
    - exact (proj2 (Hdenied w1) _ _). }
  destruct gate as [[fc explanation]|].
  - destruct (requestSafetyConfirmation_run fc explanation w)
      as [(allowed & w1 & Hask & _)|(w1 & evs & Hask & _)].
    + match goal with
      | |- context [events (bind ?m ?k) w] =>
          destruct (run_parts _ _ _ _ _ (bind_value m k w _ _ _ Hask))
            as (-> & -> & ->)
      end.
      intros Heq.
      apply cons_eq_middle in Heq as [(_ & Heq & _)|(pre1 & _ & Heq)];
        [discriminate|].
      apply cons_eq_middle in Heq as [(_ & Heq & _)|(pre2 & _ & Heq)];
        [discriminate|].
      exact (Hgo allowed w1 _ _ Heq).
    + match goal with
      | |- context [events (bind ?m ?k) w] =>
          destruct (run_parts _ _ _ _ _ (bind_pending_run m k w _ _ Hask))
            as (-> & -> & ->)
      end.
      intros Heq.
      destruct (stops_requestSafetyConfirmation always fc explanation w) as [_ H2].
      destruct (run_parts _ _ _ _ _ Hask) as (_ & _ & He). rewrite He in H2.
      destruct (H2 _ _ Heq) as [Hev _]. split; [exact Hev|intros []].
  - match goal with
    | |- context [events (bind (ret true) ?k) w] =>
        destruct (run_parts _ _ _ _ _ (eq_trans (bind_ret true k w) (run_eta (k true) w)))
          as (-> & -> & ->)
    end.
    exact (Hgo true w _ _).
Qed.

Lemma stops_executeAction_body Q action args h :
  stops Q
    (try_catch
       (t <- tabs_query ;;
        match t with
        | None => throw (Error "No active tab found")
        | Some tab =>
            if String.eqb action "wait_5_seconds" then
              sleep 5000 ;;
              ret (ContentScript.obj
                     [ ("success", JBool true); ("waited", JNum 5000);
                       ("url", match tab_url tab with
                               | Some u => JStr u
                               | None => JUndefined
                               end) ])
            else tabs_sendMessage action args h
        end)
       (fun error =>
          if str_includes "Receiving end does not exist" (message error) then
            try_catch
              (t <- tabs_query ;;
               match t with
               | None =>
                   throw {| name := "TypeError";
                            message := "Cannot read properties of undefined (reading 'id')";
                            status := None; statusText := None |}
               | Some tab =>
                   scripting_executeScript ;;
                   tabs_sendMessage action args h
               end)
              (fun injectError =>
                 t <- tabs_query ;;
                 ret (ContentScript.obj
                        [ ("success", JBool false);
                          ("error", JStr ("Failed to inject content script: "
                                          +:+ message injectError));
                          ("url", url_of_tab t) ]))
          else
            t <- tabs_query ;;
            ret (ContentScript.obj
                   [ ("success", JBool false);
                     ("error", JStr (message error));
                     ("url", url_of_tab t) ]))).
Proof.
  stops_steps;
    first [ apply stops_tabs_query | apply stops_sleep | apply stops_tabs_sendMessage
          | apply stops_scripting_executeScript ].
Qed.

Lemma stops_forEachCall calls : forall acc, stops always (forEachCall calls acc).
Proof.
  induction calls as [|fc calls IH]; intros acc; cbn [forEachCall];
    [apply stops_ret|].
  eapply stops_ext;
    [|apply (stops_checked_call (LoopDone acc)
               (if required (requiresSafetyConfirmation fc)
                then Some (fc, explanation (requiresSafetyConfirmation fc))
                else None)
               (fc_name fc) (fc_args fc)
               (ret (LoopReturned COMPLETE)))].
  - intros w. rewrite !bind_get. destruct (shouldStop w); [reflexivity|].
    assert (Hreq : (if required (requiresSafetyConfirmation fc)
                    then requestSafetyConfirmation fc
                           (explanation (requiresSafetyConfirmation fc))
                    else ret true)
                   = match (if required (requiresSafetyConfirmation fc)
                            then Some (fc, explanation (requiresSafetyConfirmation fc))
                            else None) with
                     | Some (fc', explanation') =>
                         requestSafetyConfirmation fc' explanation'
                     | None => ret true
                     end)
      by (destruct (required (requiresSafetyConfirmation fc)); reflexivity).
    rewrite Hreq. apply bind_ext. intros [|] w1; [|reflexivity]. cbn [negb].
    unfold executeAction. rewrite bind_assoc. reflexivity.
  - apply stops_ret.
  - intros w. cbv beta.
    apply stops_bind; [apply stops_executeAction_body|]. intros result.
    stops_steps;
      first [ apply stops_waitForPageSettle | apply stops_captureScreenshot
            | apply stops_getCurrentUrl | apply stops_trackStep | apply stops_sleep
            | apply IH ].
Qed.


Lemma answer_run reasoning thoughtSummary w :
  outcome
    (modify (set_finalReasoning reasoning) ;;
     (if truthy_str reasoning || truthy_str thoughtSummary
      then trackStep None []
      else ret tt) ;;
     sendToSidepanel
       (STATUS_UPDATE (if Agent.isWaitingForInput reasoning
                       then "waiting" else "idle")) ;;
     ret COMPLETE) w
  = Value COMPLETE.
Proof.
  unfold outcome. rewrite bind_modify.
  destruct (truthy_str reasoning || truthy_str thoughtSummary).
  - destruct (trackStep_run None [] (set_finalReasoning reasoning w))
      as (w' & evs & Hrun & _).
    unfold bind at 1. rewrite Hrun. reflexivity.
  - reflexivity.
Qed.

Lemma stops_runOneIteration : stops (fun r => r = CONTINUE) runOneIteration.
Proof.
  unfold runOneIteration.
  apply stops_bind.
  { stops_steps. apply stops_getModelResponse. }
  intros [early|[response|]]; [apply stops_ret| |apply stops_throw].
  destruct (candidates response) as [[|candidate others]|];
    [stops_steps|idtac|stops_steps].
  apply stops_bind; [stops_steps|intros _].
  destruct ((length (extractFunctionCalls candidate) =? 0)%nat
            && negb (truthy_str (getText candidate))
            && isMalformedFunctionCall candidate); [apply stops_ret|].
  apply stops_bind; [stops_steps|intros _].
  destruct (length (extractFunctionCalls candidate) =? 0)%nat.
  - apply stops_at_the_end.
    + unfold sendToSidepanel. run_steps; auto with runs.
      eapply only_weaken; [exact plain_not_executor|apply only_trackStep].
    + intros w. rewrite answer_run. discriminate.
  - apply stops_bind; [apply stops_forEachCall|].
    intros [functionResponses|r]; stops_steps.
Qed.

Lemma stops_iterate fuel : stops never (iterate fuel).
Proof.
  induction fuel as [|fuel IH]; cbn [iterate]; [stops_steps|].
  apply stops_bind; [apply stops_get|]. intros w.
  destruct (isRunning w && negb (shouldStop w)); [|apply stops_ret].
  apply (stops_bind_if (fun r => r = CONTINUE)); [apply stops_runOneIteration|].
  intros [|].
  - right. intros w1. split; [reflexivity|]. intros [].
  - left. split; [reflexivity|].
    apply stops_bind; [apply stops_sleep|]. intros _. exact IH.
Qed.

End StoppingTheWorker.

Section StoppingTheOlderWorker.
Import BrowserAgent Runtime Legacy.
Local Open Scope js_scope.

Lemma stops_fetch Q : stops Q fetch.
Proof. unfold fetch. stops_steps. Qed.

Lemma stops_round Q retries : stops Q (round retries).
Proof.
  unfold round. stops_steps; first [apply stops_fetch|apply stops_sleep].
Qed.

Lemma stops_rounds Q remaining : forall retries, stops Q (rounds remaining retries).
Proof.
  induction remaining as [|remaining IH]; intros retries; cbn [rounds]; stops_steps;
    first [apply stops_round|apply IH].
Qed.

Lemma stops_legacy_forEachCall calls : forall acc, stops always (forEachCall calls acc).
Proof.
  induction calls as [|fc calls IH]; intros acc; cbn [forEachCall];
    [apply stops_ret|].
  eapply stops_ext;
    [|apply (stops_checked_call acc
               (if required (requiresSafetyConfirmation fc)
                then Some (fc, explanation (requiresSafetyConfirmation fc))
                else None)
               (fc_name fc) (fc_args fc)
               (forEachCall calls
                  (acc ++ [ buildFunctionResponse (fc_name fc) denied false ])))].
  - intros w. rewrite !bind_get. destruct (shouldStop w); [reflexivity|].
    assert (Hreq : (if required (requiresSafetyConfirmation fc)
                    then requestSafetyConfirmation fc
                           (explanation (requiresSafetyConfirmation fc))
                    else ret true)
                   = match (if required (requiresSafetyConfirmation fc)
                            then Some (fc, explanation (requiresSafetyConfirmation fc))
                            else None) with
                     | Some (fc', explanation') =>
                         requestSafetyConfirmation fc' explanation'
                     | None => ret true
                     end)
      by (destruct (required (requiresSafetyConfirmation fc)); reflexivity).
    rewrite Hreq. apply bind_ext. intros [|] w1; [|reflexivity]. cbn [negb].
    unfold executeAction. rewrite bind_assoc. reflexivity.
  - apply IH.
  - intros w. cbv beta.
    stops_steps;
      first [ apply stops_tabs_query | apply stops_sleep | apply stops_tabs_sendMessage
            | apply stops_scripting_executeScript | apply IH ].
Qed.

Lemma stops_loopBody : stops (fun s => s = Next) loopBody.
Proof.
  unfold loopBody.
  apply stops_bind.
  { stops_steps. apply stops_rounds. }
  intros [[response|]|]; [|apply stops_throw|apply stops_ret].
  apply stops_bind; [stops_steps|intros _].
  apply stops_bind; [stops_steps|intros _].
  destruct (length (extractFunctionCalls (reply_parts response)) =? 0)%nat.
  - apply stops_at_the_end.
    + unfold sendToSidepanel. run_steps; auto with runs.
    + intros w. unfold outcome. rewrite bind_modify. unfold sendToSidepanel.
      rewrite bind_emit. simpl. discriminate.
  - apply stops_bind; [apply stops_legacy_forEachCall|]. intros functionResponses.
    stops_steps;
      first [ apply stops_waitForPageSettle | apply stops_captureScreenshot
            | apply stops_sleep ].
Qed.

Lemma stops_legacy_iterate fuel : stops never (iterate fuel).
Proof.
  induction fuel as [|fuel IH]; cbn [iterate]; [stops_steps|].
  apply stops_bind; [apply stops_get|]. intros w.
  destruct (isRunning w && negb (shouldStop w)); [|apply stops_ret].
  apply (stops_bind_if (fun s => s = Next)); [apply stops_loopBody|].
  intros [|].
  - right. intros w1. split; [reflexivity|]. intros [].
  - left. split; [reflexivity|exact IH].
Qed.

End StoppingTheOlderWorker.

Section StoppingTheLoop.
Import BrowserAgent Runtime.
Local Open Scope js_scope.

Lemma events_try_finally {A} (m : M A) cleanup w :
  exists tl,
    events (try_finally m cleanup) w = events m w ++ tl
    /\ (tl = [] \/ tl = events cleanup (after m w)).
Proof.
  unfold events, after, try_finally.
  destruct (m w) as [[[a|e| |] w1] e1]; simpl.
  - exists (snd (cleanup w1)). destruct (cleanup w1) as [[[]] ?]; simpl; auto.
  - exists (snd (cleanup w1)). destruct (cleanup w1) as [[[]] ?]; simpl; auto.
  - exists []. rewrite app_nil_r. auto.
  - exists []. rewrite app_nil_r. auto.
Qed.

(** Both [runAgentLoop]s: once the side panel was told that the agent is
    idle, the guarded loop enters the executor no more. *)
Lemma guarded_loop_stops (body : M unit) w pre post :
  stops never body ->
  let loop : M unit :=
    w <- get ;;
    if isRunning w then ret tt
    else
      modify (fun w => set_shouldStop false (set_isRunning true w)) ;;
      sendToSidepanel (STATUS_UPDATE "running") ;;
      try_finally
        (try_catch body (fun error => sendToSidepanel (ERROR (message error))))
        (modify (fun w => set_pending None (set_isRunning false w)) ;;
         w <- get ;;
         if negb (shouldStop w) then sendToSidepanel (STATUS_UPDATE "idle")
         else ret tt) in
  events loop w = pre ++ stop_message :: post -> Forall not_executor post.
Proof.
  intros Hbody loop.
  set (guarded_body :=
         try_catch body (fun error => sendToSidepanel (ERROR (message error)))).
  set (cleanup :=
         modify (fun w => set_pending None (set_isRunning false w)) ;;
         w <- get ;;
         if negb (shouldStop w) then sendToSidepanel (STATUS_UPDATE "idle")
         else ret tt).
  set (w0 := set_shouldStop false (set_isRunning true w)).
  assert (Hloop : events loop w
                  = if isRunning w then []
                    else EvSidepanel (STATUS_UPDATE "running")
                         :: events (try_finally guarded_body cleanup) w0).
  { subst loop. unfold events. rewrite bind_get. destruct (isRunning w); [reflexivity|].
    rewrite bind_modify. unfold sendToSidepanel at 1. now rewrite bind_emit. }
  rewrite Hloop. clear Hloop.
  destruct (isRunning w); [intros Heq; now destruct (nil_has_no_middle _ _ _ Heq)|].
  intros Heq.
  apply cons_eq_middle in Heq as [(_ & Heq & _)|(pre1 & _ & Heq)]; [discriminate|].
  destruct (events_try_finally guarded_body cleanup w0) as (tl & Hev & Htl).
  assert (Hm : stops never guarded_body)
    by (apply stops_try_catch; [exact Hbody|intros; stops_steps]).
  assert (Hc : Forall not_executor tl).
  { destruct Htl as [->| ->]; [constructor|].
    rewrite (proj2 (proj2 (run_parts _ _ _ _ _ (cleanup_run _)))).
    destruct (shouldStop _); repeat constructor. }
  rewrite Hev in Heq.
  apply app_eq_middle in Heq as [(post1 & Heq & ->)|(pre2 & Hpre & Heq)].
  - apply Forall_app. split; [|exact Hc].
    exact (proj1 (proj2 (Hm _) _ _ Heq)).
  - rewrite Heq in Hc. apply Forall_app in Hc as [_ Hc].
    now apply Forall_cons in Hc as [_ Hc].
Qed.



(** In that run the navigation was entered, the click never. *)
Lemma stopped_midway_run :
  omap (fun ev => match ev with
                  | EvExecuteAction action _ => Some action
                  | _ => None
                  end)
    (events (ServiceWorker.runAgentLoop 3 None) stopped_midway)
  = [ "navigate" ]
  /\ statuses_shown (events (ServiceWorker.runAgentLoop 3 None) stopped_midway)
     = [ "running"; "idle" ].
Proof. split; vm_compute; reflexivity. Qed.

End StoppingTheLoop.

(** ** The errors of the executor *)

Section ErrorsOfTheExecutor.
Import BrowserAgent Runtime ContentScript.
Local Open Scope js_scope.

Lemma never_throws_ret {A} (a : A) : never_throws (ret a).
Proof. intros w e. discriminate. Qed.

Lemma never_throws_bind {A B} (m : M A) (f : A -> M B) :
  never_throws m -> (forall a, never_throws (f a)) -> never_throws (bind m f).
Proof.
  intros Hm Hf w e. unfold outcome. rewrite bind_run.
  specialize (Hm w). destruct (outcome m w) as [a|e'| |]; cbn [fst]; try discriminate.
  - apply Hf.
  - intros _. exact (Hm e' eq_refl).
Qed.

Lemma never_throws_try_catch {A} (m : M A) handler :
  (forall e, never_throws (handler e)) -> never_throws (try_catch m handler).
Proof.
  intros Hh w e. unfold outcome, try_catch.
  destruct (m w) as [[[a|e'| |] w1] e1]; cbn [fst]; try discriminate.
  specialize (Hh e' w1 e). unfold outcome in Hh.
  destruct (handler e' w1) as [[o w2] e2]. exact Hh.
Qed.

Lemma never_throws_await : never_throws await_.
Proof. intros w e. destruct (await_resumes w) as [b ->]. discriminate. Qed.

Lemma never_throws_tabs_query : never_throws tabs_query.
Proof.
  unfold tabs_query. apply never_throws_bind.
  - intros w e. unfold outcome, ask. destruct (env_tabs (env w)); discriminate.
  - intros t. apply never_throws_bind; [apply never_throws_await|].
    intros _. apply never_throws_ret.
Qed.

Lemma never_throws_emit ev : never_throws (emit ev).
Proof. intros w e. discriminate. Qed.

(** The query of the active tab when there is none. *)
Lemma tabs_query_none w :
  no_active_tab w ->
  exists w' evs,
    tabs_query w = (Value None, w', evs)
    /\ no_active_tab w'
    /\ Forall stop_status evs.
Proof.
  intros Hnone.
  pose proof (await_stop_status) as Hev.
  assert (Hkeep : forall w0, env_tabs (env (after await_ w0)) = env_tabs (env w0)).
  { intros w0. apply (keeps_await (fun w => env_tabs (env w))); reflexivity. }
  unfold tabs_query, no_active_tab in *.
  unfold bind at 1, ask.
  destruct (env_tabs (env w)) as [|t more] eqn:Htabs.
  - destruct (await_resumes w) as [b Hb].
    exists (after await_ w), (events await_ w ++ []).
    unfold bind. rewrite (run_eta await_ w), Hb. cbn.
    split; [reflexivity|]. split; [|rewrite app_nil_r; apply Hev].
    rewrite Hkeep, Htabs. constructor.
  - apply Forall_cons in Hnone as [-> Hmore].
    set (w1 := set_env (rest_tabs more (env w)) w).
    destruct (await_resumes w1) as [b Hb].
    exists (after await_ w1), (events await_ w1 ++ []).
    unfold bind. rewrite (run_eta await_ w1), Hb. cbn.
    split; [reflexivity|]. split; [|rewrite app_nil_r; apply Hev].
    rewrite Hkeep. exact Hmore.
Qed.

(** X21.  [executeAction] never throws, in either worker (the query of
    the active tab is taken to answer): what fails on the way is reported
    in the result.  When no tab is active the result is [success: false]
    with the error No active tab found, with an empty [url] in the current
    worker and without [url] in the older one, and nothing is sent to the
    page: after entering the executor the run shows at most the status of
    a stop. *)
Theorem executeAction_reports_its_errors (action : string) (args : gmap string JVal)
    (h : bool) (w : World) :
  (forall e, outcome (ServiceWorker.executeAction action args h) w <> Throws e)
  /\ (forall e, outcome (Legacy.executeAction action args h) w <> Throws e)
  /\ (no_active_tab w ->
      outcome (ServiceWorker.executeAction action args h) w
      = Value (obj [ ("success", JBool false);
                     ("error", JStr "No active tab found");
                     ("url", JStr "") ])
      /\ outcome (Legacy.executeAction action args h) w
         = Value (obj [ ("success", JBool false);
                        ("error", JStr "No active tab found") ])
      /\ (exists evs,
             events (ServiceWorker.executeAction action args h) w
             = EvExecuteAction action args :: evs
             /\ Forall stop_status evs)
      /\ (exists evs,
             events (Legacy.executeAction action args h) w
             = EvExecuteAction action args :: evs
             /\ Forall stop_status evs)).
Proof.
  split; [|split].
  - intros e. revert w e.
    change (never_throws (ServiceWorker.executeAction action args h)).
    unfold ServiceWorker.executeAction.
    apply never_throws_bind; [apply never_throws_emit|]. intros _.
    apply never_throws_try_catch. intros error.
    destruct (str_includes _ _).
    + apply never_throws_try_catch. intros injectError.
      apply never_throws_bind; [apply never_throws_tabs_query|].
      intros t. apply never_throws_ret.
    + apply never_throws_bind; [apply never_throws_tabs_query|].
      intros t. apply never_throws_ret.
  - intros e. revert w e.
    change (never_throws (Legacy.executeAction action args h)).
    unfold Legacy.executeAction.
    apply never_throws_bind; [apply never_throws_emit|]. intros _.
    apply never_throws_try_catch. intros error.
    destruct (str_includes _ _).
    + apply never_throws_try_catch. intros injectError. apply never_throws_ret.
    + apply never_throws_ret.
  - intros Hnone.
    destruct (tabs_query_none w Hnone) as (w1 & e1 & Hq1 & Hnone1 & Hev1).
    destruct (tabs_query_none w1 Hnone1) as (w2 & e2 & Hq2 & _ & Hev2).
    assert (Hcur : ServiceWorker.executeAction action args h w
                   = (Value (obj [ ("success", JBool false);
                                   ("error", JStr "No active tab found");
                                   ("url", JStr "") ]),
                      w2, EvExecuteAction action args :: (e1 ++ []) ++ e2)).
    { unfold ServiceWorker.executeAction. apply bind_emit_run.
      eapply try_catch_throws_run.
      - eapply bind_value_run; [exact Hq1|reflexivity].
      - change (str_includes "Receiving end does not exist"
                  (message (Error "No active tab found"))) with false.
        cbv iota. exact (bind_then_ret tabs_query _ w1 None w2 e2 Hq2). }
    assert (Hold : Legacy.executeAction action args h w
                   = (Value (obj [ ("success", JBool false);
                                   ("error", JStr "No active tab found") ]),
                      w1, EvExecuteAction action args :: (e1 ++ []) ++ [])).
    { unfold Legacy.executeAction. apply bind_emit_run.
      eapply try_catch_throws_run.
      - eapply bind_value_run; [exact Hq1|reflexivity].
      - reflexivity. }
    destruct (run_parts _ _ _ _ _ Hcur) as (-> & _ & ->).
    destruct (run_parts _ _ _ _ _ Hold) as (-> & _ & ->).
    repeat split; try reflexivity.
    + eexists. split; [reflexivity|]. rewrite app_nil_r.
      apply Forall_app. split; assumption.
    + eexists. split; [reflexivity|]. rewrite !app_nil_r. assumption.
Qed.

Lemma executeAction_witness :
  outcome (ServiceWorker.executeAction "click_at"
             (obj [ ("x", JNum 500); ("y", JNum 300) ]) false)
    (session task silence)
  = Value (obj [ ("success", JBool false);
                 ("error", JStr "No active tab found");
                 ("url", JStr "") ]).
Proof.
  destruct (executeAction_reports_its_errors "click_at"
              (obj [ ("x", JNum 500); ("y", JNum 300) ]) false
              (session task silence)) as (_ & _ & H).
  destruct H as (H & _); [constructor|exact H].
Defined.

End ErrorsOfTheExecutor.
